(** * Probability distributions of stable_baselines3/common/distributions.py

    A shallow embedding of the distribution layer: the Python classes become
    records of their fields, methods become functions on those records that
    return a [result] (a value or the Python exception raised), and tensors
    become nested lists.

    Numbers.  A torch float is idealised as a real number of the Standard
    Library: NaN, infinities and rounding are outside the model.  Shapes,
    control flow, masks, exceptions and the closed-form formulas are kept as
    the source has them.

    Left out.  The diagnostic [print] calls and the blocks under [if False];
    the [nn.Linear] layers that [proba_distribution_net] creates; the fields
    [mean_actions] and [log_std] of the Gaussian classes, which the
    constructor sets to [None] and nothing reads.  A method that raises
    returns the exception alone: what it had already stored in the instance
    is not kept. *)

From Stdlib Require Import String Reals Lra Lia ZArith Bool Arith List.
Import ListNotations.
Open Scope R_scope.

(** ** Python exceptions and fallible results *)

Inductive exn : Type :=
| AttributeError (msg : string)
| TypeError (msg : string)
| KeyError (key : string)
| IndexError (msg : string)
| RuntimeError (msg : string)
| ValueError (msg : string)
| AssertionError (msg : string)
| NotImplementedError (msg : string)
| Exception (msg : string).

Inductive result (A : Type) : Type :=
| Ok (a : A)
| Raise (e : exn).

Arguments Ok {A} a.
Arguments Raise {A} e.

Definition bind {A B : Type} (r : result A) (k : A -> result B) : result B :=
  match r with
  | Ok a => k a
  | Raise e => Raise e
  end.

Notation "x <- r ;; k" := (bind r (fun x => k))
  (at level 61, r at next level, right associativity).

Definition raises {A : Type} (r : result A) : Prop :=
  exists e, r = Raise e.

Definition returns {A : Type} (r : result A) : Prop :=
  exists a, r = Ok a.

(** [mapM f l]: a Python list comprehension whose body may raise. *)
Fixpoint mapM {A B : Type} (f : A -> result B) (l : list A) : result (list B) :=
  match l with
  | [] => Ok []
  | a :: l' => b <- f a ;; bs <- mapM f l' ;; Ok (b :: bs)
  end.

(** ** Tensors

    A tensor of rank 0 to 3 as nested lists, outermost dimension first, over
    an element type: [tensor R] for float tensors, [tensor bool] for masks.
    [len(tensor.shape)] is [ndim]. *)

Abbreviation vec := (list R) (only parsing).
Abbreviation matrix := (list (list R)) (only parsing).

Inductive tensor (A : Type) : Type :=
| T0 (x : A)
| T1 (v : list A)
| T2 (m : list (list A))
| T3 (c : list (list (list A))).

Arguments T0 {A} x.
Arguments T1 {A} v.
Arguments T2 {A} m.
Arguments T3 {A} c.

Definition ndim {A : Type} (t : tensor A) : nat :=
  match t with
  | T0 _ => 0
  | T1 _ => 1
  | T2 _ => 2
  | T3 _ => 3
  end.

(** [len(tensor)]: the size of the leading dimension; a 0-d tensor has none. *)
Definition tensor_len {A : Type} (t : tensor A) : result nat :=
  match t with
  | T0 _ => Raise (TypeError "len() of a 0-d tensor")
  | T1 v => Ok (length v)
  | T2 m => Ok (length m)
  | T3 c => Ok (length c)
  end.

Definition tmap {A B : Type} (f : A -> B) (t : tensor A) : tensor B :=
  match t with
  | T0 x => T0 (f x)
  | T1 v => T1 (map f v)
  | T2 m => T2 (map (map f) m)
  | T3 c => T3 (map (map (map f)) c)
  end.

(** *** Broadcasting

    Two tensors are aligned on their trailing dimensions; a dimension of
    size one is stretched, any other mismatch is a RuntimeError. *)

Section Broadcast.
Context {A B C : Type} (e : exn) (f : A -> B -> result C).

(** Pairing entry by entry; [e] is raised when the sizes differ. *)
Fixpoint zipM (u : list A) (v : list B) : result (list C) :=
  match u, v with
  | [], [] => Ok []
  | a :: u', b :: v' => c <- f a b ;; cs <- zipM u' v' ;; Ok (c :: cs)
  | _, _ => Raise e
  end.

Definition bcast (u : list A) (v : list B) : result (list C) :=
  match u, v with
  | [a], _ => mapM (f a) v
  | _, [b] => mapM (fun a => f a b) u
  | _, _ => zipM u v
  end.
End Broadcast.

Definition size_mismatch : exn :=
  RuntimeError "The size of tensor a must match the size of tensor b".

(** Entry-by-entry combination of two lists of the same length. *)
Definition zip_with {A B C : Type} (f : A -> B -> C) (u : list A) (v : list B)
  : list C :=
  map (fun p => f (fst p) (snd p)) (combine u v).

Definition promote {A : Type} (t : tensor A) : list (list (list A)) :=
  match t with
  | T0 x => [[[x]]]
  | T1 v => [[v]]
  | T2 m => [m]
  | T3 c => c
  end.

(** The result has the larger of the two ranks: the leading dimensions that
    [promote] added are of size one on both sides and are taken off again. *)
Definition demote {A : Type} (rank : nat) (c : list (list (list A)))
  : result (tensor A) :=
  match rank, c with
  | 0%nat, [[[x]]] => Ok (T0 x)
  | 1%nat, [[v]] => Ok (T1 v)
  | 2%nat, [m] => Ok (T2 m)
  | 3%nat, _ => Ok (T3 c)
  | _, _ => Raise (RuntimeError "shape")
  end.

Definition tmap2M {A B C : Type} (f : A -> B -> result C)
    (a : tensor A) (b : tensor B) : result (tensor C) :=
  c <- bcast size_mismatch (bcast size_mismatch (bcast size_mismatch f))
             (promote a) (promote b) ;;
  demote (Nat.max (ndim a) (ndim b)) c.

Definition tmap2 {A B C : Type} (f : A -> B -> C) :=
  tmap2M (fun a b => Ok (f a b)).

(** The entry at row [i], column [j]. *)
Definition entry {A : Type} (m : list (list A)) (i j : nat) : option A :=
  match nth_error m i with
  | Some row => nth_error row j
  | None => None
  end.

(** *** Reductions *)

Definition vsum (v : vec) : R := fold_right Rplus 0 v.

Definition msum (m : matrix) : R := vsum (map vsum m).

(** Elementwise sum of two rows of the same length. *)
Fixpoint vadd (u v : vec) : vec :=
  match u, v with
  | x :: u', y :: v' => (x + y) :: vadd u' v'
  | _, _ => []
  end.

(** Sum of the rows of a matrix: the reduction over its first axis. *)
Definition colsum (m : matrix) : vec :=
  match m with
  | [] => []
  | r :: rs => fold_left vadd rs r
  end.

(** [tensor.sum()]: every element, down to a 0-dimensional tensor. *)
Definition tensor_sum (t : tensor R) : tensor R :=
  match t with
  | T0 x => T0 x
  | T1 v => T0 (vsum v)
  | T2 m => T0 (msum m)
  | T3 c => T0 (vsum (map msum c))
  end.

(** [tensor.sum(dim=1)]: dimension 1 is reduced, dimension 0 is kept.
    Torch refuses [dim=1] on a tensor with fewer than two dimensions. *)
Definition tensor_sum_dim1 (t : tensor R) : result (tensor R) :=
  match t with
  | T2 m => Ok (T1 (map vsum m))
  | T3 c => Ok (T2 (map colsum c))
  | _ => Raise (IndexError "Dimension out of range")
  end.

(** [sum_independent_dims], lines 106-118. *)
Definition sum_independent_dims (t : tensor R) : result (tensor R) :=
  if (1 <? ndim t)%nat then tensor_sum_dim1 t
  else Ok (tensor_sum t).

(** [tensor.shape], as far as nested lists record it. *)
Definition shape {A : Type} (t : tensor A) : list nat :=
  match t with
  | T0 _ => []
  | T1 v => [length v]
  | T2 m => [length m; match m with [] => 0%nat | r :: _ => length r end]
  | T3 c => [length c;
             match c with [] => 0%nat | m :: _ => length m end;
             match c with (r :: _) :: _ => length r | _ => 0%nat end]
  end.

(** An in-place update [a -= b]: [b] is broadcast to [a], and the result must
    keep the shape of [a]. *)
Definition isub (a b : tensor R) : result (tensor R) :=
  r <- tmap2 Rminus a b ;;
  if list_eq_dec Nat.eq_dec (shape r) (shape a) then Ok r
  else Raise (RuntimeError "output with shape doesn't match the broadcast shape").

(** Attribute access on a field that holds [None]. *)
Definition getattr {A : Type} (field : option A) (attr : string) : result A :=
  match field with
  | Some a => Ok a
  | None => Raise (AttributeError ("'NoneType' object has no attribute '" ++ attr ++ "'"))
  end.

(** Iterating over a field that holds [None] in place of a list. *)
Definition iter {A : Type} (field : option (list A)) : result (list A) :=
  match field with
  | Some l => Ok l
  | None => Raise (TypeError "'NoneType' object is not iterable")
  end.

(** ** Scalar functions of torch *)

(** [torch.log1p] on its real domain [x > -1].  At [x = -1] torch returns
    [-inf] and below it NaN, neither of which is a real number: a statement
    that goes through [log1p] carries the hypothesis that keeps its argument
    above [-1]. *)
Definition log1p (x : R) : R := ln (1 + x).

Definition sigmoid (x : R) : R := 1 / (1 + exp (- x)).

Definition softplus (x : R) : R := ln (1 + exp x).

(** Comparison of floats, as the 0/1 value a boolean tensor takes in a
    product. *)
Definition Rleb (x y : R) : bool := if Rle_dec x y then true else false.
Definition Rltb (x y : R) : bool := if Rlt_dec x y then true else false.
Definition b2r (b : bool) : R := if b then 1 else 0.

(** [tensor.long()] on one entry: truncation toward zero. *)
Definition long (x : R) : Z :=
  if Rle_dec 0 x then Int_part x else (- Int_part (- x))%Z.

(** [torch.round] on one entry: to the nearest integer, halves to even. *)
Definition th_round (x : R) : R :=
  let n := Int_part x in
  let frac := x - IZR n in
  if Rlt_dec frac (1 / 2) then IZR n
  else if Rlt_dec (1 / 2) frac then IZR (n + 1)
  else if Z.even n then IZR n else IZR (n + 1).

(** [tensor.clamp(min=lo, max=hi)] on one entry. *)
Definition clamp (lo hi x : R) : R := Rmin (Rmax x lo) hi.

(** Floating types and [torch.finfo(dtype).eps], the gap between 1.0 and the
    next larger float of the type. *)
Inductive dtype : Type := float16 | bfloat16 | float32 | float64.

Definition finfo_eps (dt : dtype) : R :=
  match dt with
  | float16 => / 2 ^ 10
  | bfloat16 => / 2 ^ 7
  | float32 => / 2 ^ 23
  | float64 => / 2 ^ 52
  end.



(** ** Elementary distributions of torch.distributions *)

Module Normal.
Record t : Type := mk { loc : tensor R; scale : tensor R }.

(** The constructor broadcasts its two parameters against each other. *)
Definition init (loc scale : tensor R) : result t :=
  l <- tmap2 (fun l _ => l) loc scale ;;
  s <- tmap2 (fun _ s => s) loc scale ;;
  Ok (mk l s).

Definition log_prob (d : t) (value : tensor R) : result (tensor R) :=
  diff <- tmap2 Rminus value (loc d) ;;
  tmap2 (fun df s => - (df ^ 2) / (2 * s ^ 2) - ln s - ln (sqrt (2 * PI)))
        diff (scale d).

Definition entropy (d : t) : tensor R :=
  tmap (fun s => 1 / 2 + (1 / 2) * ln (2 * PI) + ln s) (scale d).

(** [rsample]: [loc + eps * scale] for a standard normal draw [eps]. *)
Definition rsample (d : t) (eps : tensor R) : result (tensor R) :=
  n <- tmap2 Rmult eps (scale d) ;;
  tmap2 Rplus (loc d) n.

Definition mean (d : t) : tensor R := loc d.

Definition kl (p q : t) : result (tensor R) :=
  ratio <- tmap2 (fun ps qs => (ps / qs) ^ 2) (scale p) (scale q) ;;
  dl <- tmap2 Rminus (loc p) (loc q) ;;
  t1 <- tmap2 (fun d qs => (d / qs) ^ 2) dl (scale q) ;;
  tmap2 (fun vr t1 => (1 / 2) * (vr + t1 - 1 - ln vr)) ratio t1.
End Normal.

Module Categorical.
(** One row of normalised logits per batch entry. *)
Record t : Type := mk { logits : matrix }.

Definition logsumexp (row : vec) : R := ln (vsum (map exp row)).

Definition normalise (row : vec) : vec :=
  map (fun l => l - logsumexp row) row.

Definition softmax (row : vec) : vec :=
  map (fun l => exp l / vsum (map exp row)) row.

(** [Categorical(logits=...)]. *)
Definition init (raw : matrix) : t := mk (map normalise raw).

Definition probs (d : t) : matrix := map softmax (logits d).

Definition gather (x : R) (row : vec) : result R :=
  let i := long x in
  if (i <? 0)%Z then Raise (RuntimeError "index out of range")
  else match nth_error row (Z.to_nat i) with
       | Some l => Ok l
       | None => Raise (RuntimeError "index out of range")
       end.

(** The value is broadcast against the batch of rows, and each entry picks
    its logit. *)
Definition log_prob (d : t) (value : tensor R) : result (tensor R) :=
  tmap2M gather value (T1 (logits d)).

Definition row_entropy (row : vec) : R :=
  - vsum (map (fun l => exp l / vsum (map exp row) * l) row).

Definition entropy (d : t) : tensor R := T1 (map row_entropy (logits d)).

(** [sample]: one multinomial draw per row; the generator is an oracle
    [draw] from the row number and its probabilities to an index. *)
Definition sample (draw : nat -> vec -> nat) (d : t) : tensor R :=
  T1 (map (fun ir => INR (draw (fst ir) (snd ir)))
          (combine (seq 0 (length (probs d))) (probs d))).

Definition row_kl (p q : vec) : result R :=
  ts <- bcast size_mismatch
              (fun lp lq => Ok (exp lp / vsum (map exp p) * (lp - lq))) p q ;;
  Ok (vsum ts).

Definition kl (p q : t) : result (tensor R) :=
  rows <- bcast size_mismatch row_kl (logits p) (logits q) ;;
  Ok (T1 rows).
End Categorical.

Module Bernoulli.
Record t : Type := mk { logits : tensor R }.

Definition init (raw : tensor R) : t := mk raw.

Definition probs (d : t) : tensor R := tmap sigmoid (logits d).

(** [binary_cross_entropy_with_logits(logits, target)], no reduction. *)
Definition bce (l y : R) : R := (1 - y) * l + softplus (- l).

Definition log_prob (d : t) (value : tensor R) : result (tensor R) :=
  tmap2 (fun l v => - bce l v) (logits d) value.

Definition entropy (d : t) : tensor R :=
  tmap (fun l => bce l (sigmoid l)) (logits d).

(** [sample]: the generator is an oracle from a probability to 0 or 1. *)
Definition sample (draw : R -> bool) (d : t) : tensor R :=
  tmap (fun p => b2r (draw p)) (probs d).

Definition kl (p q : t) : result (tensor R) :=
  tmap2 (fun lp lq =>
           sigmoid lp * (softplus (- lq) - softplus (- lp))
           + (1 - sigmoid lp) * (softplus lq - softplus lp))
        (logits p) (logits q).
End Bernoulli.

(** [th.argmax] over one row: the index of the first maximal entry. *)
Fixpoint argmax_from (best_i : nat) (best : R) (i : nat) (row : vec) : nat :=
  match row with
  | [] => best_i
  | x :: row' =>
      if Rlt_dec best x then argmax_from i x (S i) row'
      else argmax_from best_i best (S i) row'
  end.

Definition argmax (row : vec) : result nat :=
  match row with
  | [] => Raise (IndexError "argmax(): cannot reduce an empty dimension")
  | x :: row' => Ok (argmax_from 0 x 1 row')
  end.

(** [th.argmax(probs, dim=1)] on a batch of rows. *)
Definition argmax_dim1 (m : matrix) : result (tensor R) :=
  idx <- mapM argmax m ;; Ok (T1 (map INR idx)).

(** Exchange of the two outer dimensions of a nested list; this is
    [th.stack(..., dim=1)] of same-sized pieces and [th.unbind(..., dim=1)]. *)
Fixpoint transpose {A : Type} (rows : list (list A)) : result (list (list A)) :=
  match rows with
  | [] => Ok []
  | r :: rs =>
      match rs with
      | [] => Ok (map (fun x => [x]) r)
      | _ => t <- transpose rs ;;
             zipM (RuntimeError "stack expects each tensor to be equal size")
                  (fun x col => Ok (x :: col)) r t
      end
  end.

Definition unbind_dim1 (t : tensor R) : result (list (tensor R)) :=
  match t with
  | T2 m => cols <- transpose m ;; Ok (map T1 cols)
  | T3 c => sl <- transpose c ;; Ok (map T2 sl)
  | _ => Raise (IndexError "Dimension out of range")
  end.

Definition as_T1 (t : tensor R) : option vec :=
  match t with T1 v => Some v | _ => None end.

Definition as_T2 (t : tensor R) : option matrix :=
  match t with T2 m => Some m | _ => None end.

Fixpoint all_some {A : Type} (l : list (option A)) : option (list A) :=
  match l with
  | [] => Some []
  | Some a :: l' => match all_some l' with Some r => Some (a :: r) | None => None end
  | None :: _ => None
  end.

(** [th.stack(pieces, dim=1)]: an empty list is refused, 0-d pieces have no
    dimension 1, and pieces must agree in rank and size. *)
Definition stack_dim1 (pieces : list (tensor R)) : result (tensor R) :=
  match pieces with
  | [] => Raise (RuntimeError "stack expects a non-empty TensorList")
  | T0 _ :: _ => Raise (IndexError "Dimension out of range")
  | T1 _ :: _ =>
      match all_some (map as_T1 pieces) with
      | Some vs => m <- transpose vs ;; Ok (T2 m)
      | None => Raise (RuntimeError "stack expects each tensor to be equal size")
      end
  | T2 _ :: _ =>
      match all_some (map as_T2 pieces) with
      | Some ms => c <- transpose ms ;; Ok (T3 c)
      | None => Raise (RuntimeError "stack expects each tensor to be equal size")
      end
  | T3 _ :: _ => Raise (RuntimeError "rank above 3")
  end.

(** ** The random generator

    Draws are oracles: what torch's generator returns for this call. *)
Record generator : Type := mkGen {
  randn_like : tensor R -> tensor R;
  randn_batch : nat -> tensor R -> tensor R;
  multinomial : nat -> vec -> nat;
  bernoulli : R -> bool
}.

(** ** TanhBijector, lines 919-960 *)

Module TanhBijector.
Record t : Type := mk { epsilon : R }.

Definition init (epsilon : R) : t := mk epsilon.

Definition forward (x : tensor R) : tensor R := tmap tanh x.

(** [atanh], lines 936-944: [0.5 * (x.log1p() - (-x).log1p())], two calls of
    the [log1p] of the tensor library, with that function as the parameter
    [lp]. *)
Definition atanh_with (lp : R -> R) (x : tensor R) : tensor R :=
  tmap (fun v => (1 / 2) * (lp v - lp (- v))) x.

(** [inverse], lines 946-956. *)
Definition inverse_with (lp : R -> R) (dt : dtype) (y : tensor R) : tensor R :=
  let eps := finfo_eps dt in
  atanh_with lp (tmap (clamp (- 1 + eps) (1 - eps)) y).


Definition inverse (dt : dtype) (y : tensor R) : tensor R :=
  inverse_with log1p dt y.

(** The form the docstring of [atanh] quotes and the code does not use,
    line 941: [0.5 * torch.log((1 + x) / (1 - x))], with the [log] of the
    tensor library as [lg] and the rounding of a sum to the floating type
    as [rnd]. *)
Definition atanh_naive_with (rnd lg : R -> R) (x : tensor R) : tensor R :=
  tmap (fun v => (1 / 2) * lg (rnd (1 + v) / rnd (1 - v))) x.

Definition log_prob_correction (self : t) (x : tensor R) : tensor R :=
  tmap (fun v => ln (1 - tanh v ^ 2 + epsilon self)) x.
End TanhBijector.

(** ** DiagGaussianDistribution, lines 121-208 *)

Module DiagGaussianDistribution.
Record t : Type := mk {
  action_dim : nat;
  distribution : option Normal.t
}.

Definition init (action_dim : nat) : t := mk action_dim None.

Definition proba_distribution (self : t) (mean_actions log_std : tensor R)
  : result t :=
  action_std <- tmap2 Rmult (tmap (fun _ => 1) mean_actions) (tmap exp log_std) ;;
  d <- Normal.init mean_actions action_std ;;
  Ok (mk (action_dim self) (Some d)).

Definition log_prob (self : t) (actions : tensor R) : result (tensor R) :=
  d <- getattr (distribution self) "log_prob" ;;
  lp <- Normal.log_prob d actions ;;
  sum_independent_dims lp.

Definition entropy (self : t) : result (option (tensor R)) :=
  d <- getattr (distribution self) "entropy" ;;
  e <- sum_independent_dims (Normal.entropy d) ;;
  Ok (Some e).

Definition sample (g : generator) (self : t) : result (tensor R) :=
  d <- getattr (distribution self) "rsample" ;;
  Normal.rsample d (randn_like g (Normal.loc d)).

Definition mode (self : t) : result (tensor R) :=
  d <- getattr (distribution self) "mean" ;;
  Ok (Normal.mean d).

Definition get_actions (g : generator) (self : t) (deterministic : bool)
  : result (tensor R) :=
  if deterministic then mode self else sample g self.

Definition actions_from_params (g : generator) (self : t)
    (mean_actions log_std : tensor R) (deterministic : bool)
  : result (t * tensor R) :=
  self' <- proba_distribution self mean_actions log_std ;;
  a <- get_actions g self' deterministic ;;
  Ok (self', a).

Definition log_prob_from_params (g : generator) (self : t)
    (mean_actions log_std : tensor R)
  : result (t * (tensor R * tensor R)) :=
  sa <- actions_from_params g self mean_actions log_std false ;;
  lp <- log_prob (fst sa) (snd sa) ;;
  Ok (fst sa, (snd sa, lp)).
End DiagGaussianDistribution.

(** ** SquashedDiagGaussianDistribution, lines 211-268 *)

Module SquashedDiagGaussianDistribution.
Record t : Type := mk {
  base : DiagGaussianDistribution.t;
  epsilon : R;
  gaussian_actions : option (tensor R)
}.

Definition init (action_dim : nat) (epsilon : R) : t :=
  mk (DiagGaussianDistribution.init action_dim) epsilon None.

Definition proba_distribution (self : t) (mean_actions log_std : tensor R)
  : result t :=
  b <- DiagGaussianDistribution.proba_distribution (base self) mean_actions log_std ;;
  Ok (mk b (epsilon self) (gaussian_actions self)).

(** [dt] is the dtype of [actions]. *)
Definition log_prob (self : t) (dt : dtype) (actions : tensor R)
    (gaussian_actions : option (tensor R)) : result (tensor R) :=
  let ga := match gaussian_actions with
            | None => TanhBijector.inverse dt actions
            | Some ga => ga
            end in
  lp <- DiagGaussianDistribution.log_prob (base self) ga ;;
  corr <- tensor_sum_dim1 (tmap (fun a => ln (1 - a ^ 2 + epsilon self)) actions) ;;
  isub lp corr.

Definition entropy (self : t) : result (option (tensor R)) := Ok None.

Definition sample (g : generator) (self : t) : result (t * tensor R) :=
  ga <- DiagGaussianDistribution.sample g (base self) ;;
  Ok (mk (base self) (epsilon self) (Some ga), tmap tanh ga).

Definition mode (self : t) : result (t * tensor R) :=
  ga <- DiagGaussianDistribution.mode (base self) ;;
  Ok (mk (base self) (epsilon self) (Some ga), tmap tanh ga).

Definition get_actions (g : generator) (self : t) (deterministic : bool)
  : result (t * tensor R) :=
  if deterministic then mode self else sample g self.

Definition actions_from_params (g : generator) (self : t)
    (mean_actions log_std : tensor R) (deterministic : bool)
  : result (t * tensor R) :=
  self' <- proba_distribution self mean_actions log_std ;;
  get_actions g self' deterministic.

Definition log_prob_from_params (g : generator) (self : t) (dt : dtype)
    (mean_actions log_std : tensor R)
  : result (t * (tensor R * tensor R)) :=
  sa <- actions_from_params g self mean_actions log_std false ;;
  lp <- log_prob (fst sa) dt (snd sa) (gaussian_actions (fst sa)) ;;
  Ok (fst sa, (snd sa, lp)).
End SquashedDiagGaussianDistribution.

(** ** Masks *)

(** [tensor.min()] over every entry; an empty tensor has no minimum. *)
Definition matrix_min (m : matrix) : result R :=
  match concat m with
  | [] => Raise (RuntimeError "min(): cannot reduce a tensor with no elements")
  | x :: l => Ok (fold_left Rmin l x)
  end.

Definition mask_mismatch : exn :=
  IndexError "The shape of the mask does not match the shape of the indexed tensor".

(** [logits[mask] = value] on a copy of [logits]: the mask covers the leading
    dimensions of the indexed tensor and must agree with them in size. *)
Definition masked_fill (logits : matrix) (mask : tensor bool) (value : R)
  : result matrix :=
  match mask with
  | T0 b => Ok (if b then map (map (fun _ => value)) logits else logits)
  | T1 bs =>
      zipM mask_mismatch
           (fun row (b : bool) => Ok (if b then map (fun _ => value) row else row))
           logits bs
  | T2 bm =>
      zipM mask_mismatch
           (fun row brow =>
              zipM mask_mismatch
                   (fun l (b : bool) => Ok (if b then value else l)) row brow)
           logits bm
  | T3 _ => Raise (IndexError "too many indices for tensor of dimension 2")
  end.

(** The layer that maps an observation batch to the invalid-action
    indicator. *)
Definition layer : Type := tensor R -> tensor R.

(** The Python values a configuration mapping holds: [None], flags, numbers,
    a class object whose call builds an invalid-actions layer, and a function
    from one observation to its valid-action indicator vector. *)
Inductive pyvalue : Type :=
| PyNone
| PyBool (b : bool)
| PyFloat (x : R)
| PyLayerClass (make : layer)
| PyFunction (f : tensor R -> vec).

Definition is_none (v : pyvalue) : bool :=
  match v with PyNone => true | _ => false end.

Definition truthy (v : pyvalue) : bool :=
  match v with
  | PyNone => false
  | PyBool b => b
  | PyFloat x => if Req_dec_T x 0 then false else true
  | PyLayerClass _ => true
  | PyFunction _ => true
  end.

(** [obj()]: a call without arguments. *)
Definition call0 (obj : pyvalue) : result layer :=
  match obj with
  | PyLayerClass make => Ok make
  | PyFunction _ => Raise (TypeError "missing 1 required positional argument")
  | _ => Raise (TypeError "object is not callable")
  end.

(** [obj(x)]: a call with one argument, for the valid-actions function. *)
Definition call1 (obj : pyvalue) (x : tensor R) : result vec :=
  match obj with
  | PyFunction f => Ok (f x)
  | PyLayerClass _ => Raise (TypeError "__init__() takes 1 positional argument but 2 were given")
  | _ => Raise (TypeError "object is not callable")
  end.

(** ** CategoricalDistribution, lines 271-325 *)

Module CategoricalDistribution.
Record t : Type := mk {
  action_dim : nat;
  distribution : option Categorical.t
}.

(** The constructor raises unconditionally once the fields are set. *)
Definition init (action_dim : nat) : result t :=
  let self := mk action_dim None in
  _ <- Raise (A := unit) (Exception "In CategoricalDistribution") ;;
  Ok self.

Definition proba_distribution (self : t) (action_logits : matrix) : t :=
  mk (action_dim self) (Some (Categorical.init action_logits)).

Definition log_prob (self : t) (actions : tensor R) : result (tensor R) :=
  d <- getattr (distribution self) "log_prob" ;;
  Categorical.log_prob d actions.

Definition entropy (self : t) : result (option (tensor R)) :=
  d <- getattr (distribution self) "entropy" ;;
  Ok (Some (Categorical.entropy d)).

Definition sample (g : generator) (self : t) : result (tensor R) :=
  d <- getattr (distribution self) "sample" ;;
  Ok (Categorical.sample (multinomial g) d).

Definition mode (self : t) : result (tensor R) :=
  d <- getattr (distribution self) "probs" ;;
  argmax_dim1 (Categorical.probs d).

Definition get_actions (g : generator) (self : t) (deterministic : bool)
  : result (tensor R) :=
  if deterministic then mode self else sample g self.

Definition actions_from_params (g : generator) (self : t)
    (action_logits : matrix) (deterministic : bool) : result (t * tensor R) :=
  let self' := proba_distribution self action_logits in
  a <- get_actions g self' deterministic ;;
  Ok (self', a).

Definition log_prob_from_params (g : generator) (self : t)
    (action_logits : matrix) : result (t * (tensor R * tensor R)) :=
  sa <- actions_from_params g self action_logits false ;;
  lp <- log_prob (fst sa) (snd sa) ;;
  Ok (fst sa, (snd sa, lp)).
End CategoricalDistribution.

(** ** CategoricalDistributionLimitedActions, lines 328-467 *)

Module CategoricalDistributionLimitedActions.
Record t : Type := mk {
  action_dim : nat;
  _get_invalid_actions_layer : layer;
  _get_invalid_actions_obj : pyvalue;
  _original_action_logits : option matrix;
  _valid_actions : option (tensor R);
  _invalid_actions : option (tensor bool);
  _invalid_logit_value : option R;
  _new_action_logits : option matrix;
  distribution : option Categorical.t
}.

Definition init (action_dim : nat) (get_invalid_actions_layer_obj : pyvalue)
  : result t :=
  if is_none get_invalid_actions_layer_obj
  then Raise (Exception "get_invalid_actions_layer is none")
  else
    l <- call0 get_invalid_actions_layer_obj ;;
    Ok (mk action_dim l get_invalid_actions_layer_obj None None None None None None).

(** The logit given to the invalid actions, lines 399-401. *)
Definition invalid_logit_value (action_logits : matrix) : result R :=
  lo <- matrix_min action_logits ;;
  let v := lo - 10 in
  Ok (if Rle_dec (- 10) v then - 10 else v).

Definition proba_distribution (self : t) (action_logits : matrix)
    (obs : option (tensor R)) : result t :=
  match obs with
  | None => Raise (Exception "In get_valid_actions the observation is None")
  | Some obs =>
      let invalid_actions_float := _get_invalid_actions_layer self obs in
      let invalid_actions := tmap (fun x => Rltb 0 x) invalid_actions_float in
      v <- invalid_logit_value action_logits ;;
      new_action_logits <- masked_fill action_logits invalid_actions v ;;
      Ok (mk (action_dim self) (_get_invalid_actions_layer self)
             (_get_invalid_actions_obj self)
             (Some action_logits) (_valid_actions self)
             (Some invalid_actions) (Some v)
             (Some new_action_logits)
             (Some (Categorical.init new_action_logits)))
  end.

Definition log_prob (self : t) (actions : tensor R) : result (tensor R) :=
  d <- getattr (distribution self) "log_prob" ;;
  Categorical.log_prob d actions.

Definition entropy (self : t) : result (option (tensor R)) :=
  d <- getattr (distribution self) "entropy" ;;
  Ok (Some (Categorical.entropy d)).

Definition sample (g : generator) (self : t) : result (tensor R) :=
  d <- getattr (distribution self) "sample" ;;
  Ok (Categorical.sample (multinomial g) d).

Definition mode (self : t) : result (tensor R) :=
  d <- getattr (distribution self) "probs" ;;
  argmax_dim1 (Categorical.probs d).

Definition get_actions (g : generator) (self : t) (deterministic : bool)
  : result (tensor R) :=
  if deterministic then mode self else sample g self.

Definition actions_from_params (g : generator) (self : t)
    (action_logits : matrix) (obs : option (tensor R)) (deterministic : bool)
  : result (t * tensor R) :=
  self' <- proba_distribution self action_logits obs ;;
  a <- get_actions g self' deterministic ;;
  Ok (self', a).

Definition log_prob_from_params (g : generator) (self : t)
    (action_logits : matrix) (obs : option (tensor R))
  : result (t * (tensor R * tensor R)) :=
  sa <- actions_from_params g self action_logits obs false ;;
  lp <- log_prob (fst sa) (snd sa) ;;
  Ok (fst sa, (snd sa, lp)).
End CategoricalDistributionLimitedActions.

(** Iteration over the leading dimension, [obs[i] for i in range(len(obs))]. *)
Definition tensor_rows (t : tensor R) : result (list (tensor R)) :=
  match t with
  | T0 _ => Raise (TypeError "len() of a 0-d tensor")
  | T1 v => Ok (map T0 v)
  | T2 m => Ok (map T1 m)
  | T3 c => Ok (map T2 c)
  end.

(** [th.stack(rows)] of 1-d pieces along a new leading dimension. *)
Definition stack_dim0 (rows : list vec) : result matrix :=
  match rows with
  | [] => Raise (RuntimeError "stack expects a non-empty TensorList")
  | r :: rs =>
      if forallb (fun r' => (length r' =? length r)%nat) rs then Ok rows
      else Raise (RuntimeError "stack expects each tensor to be equal size")
  end.

(** ** CategoricalDistributionLimitedActions_Manual, lines 470-582

    [sample_distribution] is not set by the constructor: [None] stands for
    the missing attribute. *)

Module CategoricalDistributionLimitedActions_Manual.
Record t : Type := mk {
  action_dim : nat;
  _get_valid_actions : pyvalue;
  distribution : option Categorical.t;
  sample_distribution : option Categorical.t
}.

Definition init (action_dim : nat) (get_valid_actions : pyvalue) : result t :=
  if is_none get_valid_actions
  then Raise (Exception "get_valid_actions is none")
  else Ok (mk action_dim get_valid_actions None None).

Definition invalid_logit_value (action_logits : matrix) : result R :=
  lo <- matrix_min action_logits ;;
  let v := lo - 100 in
  Ok (if Rle_dec (- 100) v then - 100 else v).

Definition proba_distribution (self : t) (action_logits : matrix)
    (obs : option (tensor R)) : result t :=
  match obs with
  | None => Raise (Exception "In get_valid_actions the observation is None")
  | Some obs =>
      let distribution := Categorical.init action_logits in
      v <- invalid_logit_value action_logits ;;
      rows <- tensor_rows obs ;;
      valid_actions_list <- mapM (call1 (_get_valid_actions self)) rows ;;
      all_valid_actions <- stack_dim0 valid_actions_list ;;
      new_action_logits <-
        bcast size_mismatch
              (bcast size_mismatch
                     (fun valid l => Ok (if Req_dec_T valid 0 then v else l)))
              all_valid_actions action_logits ;;
      Ok (mk (action_dim self) (_get_valid_actions self)
             (Some distribution)
             (Some (Categorical.init new_action_logits)))
  end.

Definition log_prob (self : t) (actions : tensor R) : result (tensor R) :=
  d <- getattr (distribution self) "log_prob" ;;
  Categorical.log_prob d actions.

Definition entropy (self : t) : result (option (tensor R)) :=
  d <- getattr (distribution self) "entropy" ;;
  Ok (Some (Categorical.entropy d)).

(** After the draw, [logits[0][ret] < -9.5] is used as the condition of an
    [if]: a tensor with no row has no row 0, and one with several entries
    has no truth value. *)
Definition sample (g : generator) (self : t) : result (tensor R) :=
  d <- getattr (sample_distribution self) "sample" ;;
  let ret := Categorical.sample (multinomial g) d in
  match Categorical.logits d with
  | [] => Raise (IndexError "index 0 is out of bounds for dimension 0 with size 0")
  | [_] => Ok ret
  | _ => Raise (RuntimeError "Boolean value of Tensor with more than one value is ambiguous")
  end.

Definition mode (self : t) : result (tensor R) :=
  d <- getattr (sample_distribution self) "probs" ;;
  argmax_dim1 (Categorical.probs d).

Definition get_actions (g : generator) (self : t) (deterministic : bool)
  : result (tensor R) :=
  if deterministic then mode self else sample g self.

Definition actions_from_params (g : generator) (self : t)
    (action_logits : matrix) (obs : option (tensor R)) (deterministic : bool)
  : result (t * tensor R) :=
  self' <- proba_distribution self action_logits obs ;;
  a <- get_actions g self' deterministic ;;
  Ok (self', a).

Definition log_prob_from_params (g : generator) (self : t)
    (action_logits : matrix) (obs : option (tensor R))
  : result (t * (tensor R * tensor R)) :=
  sa <- actions_from_params g self action_logits obs false ;;
  lp <- log_prob (fst sa) (snd sa) ;;
  Ok (fst sa, (snd sa, lp)).
End CategoricalDistributionLimitedActions_Manual.

(** [th.split(logits, sizes, dim=1)]: the sizes must add up to the width. *)
Fixpoint split_cols_aux (sizes : list nat) (m : matrix) : list matrix :=
  match sizes with
  | [] => []
  | n :: sizes' => map (firstn n) m :: split_cols_aux sizes' (map (skipn n) m)
  end.

Definition split_cols (sizes : list nat) (m : matrix) : result (list matrix) :=
  if forallb (fun row => (length row =? list_sum sizes)%nat) m
  then Ok (split_cols_aux sizes m)
  else Raise (RuntimeError "split_with_sizes expects split_sizes to sum exactly to the width").

(** ** MultiCategoricalDistribution, lines 585-654 *)

Module MultiCategoricalDistribution.
Record t : Type := mk {
  action_dims : list nat;
  distribution : option (list Categorical.t)
}.

Definition init (action_dims : list nat) : t := mk action_dims None.

Definition proba_distribution (self : t) (action_logits : matrix) : result t :=
  splits <- split_cols (action_dims self) action_logits ;;
  Ok (mk (action_dims self) (Some (map Categorical.init splits))).

Definition log_prob (self : t) (actions : tensor R) : result (tensor R) :=
  cols <- unbind_dim1 actions ;;
  ds <- iter (distribution self) ;;
  lps <- mapM (fun da => Categorical.log_prob (fst da) (snd da)) (combine ds cols) ;;
  st <- stack_dim1 lps ;;
  tensor_sum_dim1 st.

Definition entropy (self : t) : result (option (tensor R)) :=
  ds <- iter (distribution self) ;;
  st <- stack_dim1 (map Categorical.entropy ds) ;;
  e <- tensor_sum_dim1 st ;;
  Ok (Some e).

Definition sample (g : generator) (self : t) : result (tensor R) :=
  ds <- iter (distribution self) ;;
  stack_dim1 (map (Categorical.sample (multinomial g)) ds).

Definition mode (self : t) : result (tensor R) :=
  ds <- iter (distribution self) ;;
  ms <- mapM (fun d => argmax_dim1 (Categorical.probs d)) ds ;;
  stack_dim1 ms.

Definition get_actions (g : generator) (self : t) (deterministic : bool)
  : result (tensor R) :=
  if deterministic then mode self else sample g self.

Definition actions_from_params (g : generator) (self : t)
    (action_logits : matrix) (deterministic : bool) : result (t * tensor R) :=
  self' <- proba_distribution self action_logits ;;
  a <- get_actions g self' deterministic ;;
  Ok (self', a).

Definition log_prob_from_params (g : generator) (self : t)
    (action_logits : matrix) : result (t * (tensor R * tensor R)) :=
  sa <- actions_from_params g self action_logits false ;;
  lp <- log_prob (fst sa) (snd sa) ;;
  Ok (fst sa, (snd sa, lp)).
End MultiCategoricalDistribution.

(** ** BernoulliDistribution, lines 657-708 *)

Module BernoulliDistribution.
Record t : Type := mk {
  action_dims : nat;
  distribution : option Bernoulli.t
}.

Definition init (action_dims : nat) : t := mk action_dims None.

Definition proba_distribution (self : t) (action_logits : tensor R) : t :=
  mk (action_dims self) (Some (Bernoulli.init action_logits)).

Definition log_prob (self : t) (actions : tensor R) : result (tensor R) :=
  d <- getattr (distribution self) "log_prob" ;;
  lp <- Bernoulli.log_prob d actions ;;
  tensor_sum_dim1 lp.

Definition entropy (self : t) : result (option (tensor R)) :=
  d <- getattr (distribution self) "entropy" ;;
  e <- tensor_sum_dim1 (Bernoulli.entropy d) ;;
  Ok (Some e).

Definition sample (g : generator) (self : t) : result (tensor R) :=
  d <- getattr (distribution self) "sample" ;;
  Ok (Bernoulli.sample (bernoulli g) d).

Definition mode (self : t) : result (tensor R) :=
  d <- getattr (distribution self) "probs" ;;
  Ok (tmap th_round (Bernoulli.probs d)).

Definition get_actions (g : generator) (self : t) (deterministic : bool)
  : result (tensor R) :=
  if deterministic then mode self else sample g self.

Definition actions_from_params (g : generator) (self : t)
    (action_logits : tensor R) (deterministic : bool) : result (t * tensor R) :=
  let self' := proba_distribution self action_logits in
  a <- get_actions g self' deterministic ;;
  Ok (self', a).

Definition log_prob_from_params (g : generator) (self : t)
    (action_logits : tensor R) : result (t * (tensor R * tensor R)) :=
  sa <- actions_from_params g self action_logits false ;;
  lp <- log_prob (fst sa) (snd sa) ;;
  Ok (fst sa, (snd sa, lp)).
End BernoulliDistribution.

(** ** Matrix products *)

(** One row times a matrix: the rows of the matrix, weighted and added up. *)
Fixpoint scale_rows (row : vec) (m : matrix) : matrix :=
  match row, m with
  | x :: row', r :: m' => map (Rmult x) r :: scale_rows row' m'
  | _, _ => []
  end.

Definition vecmat (row : vec) (m : matrix) : result vec :=
  if (length row =? length m)%nat then Ok (colsum (scale_rows row m))
  else Raise (RuntimeError "mat1 and mat2 shapes cannot be multiplied").

Definition matmat (a b : matrix) : result matrix :=
  mapM (fun row => vecmat row b) a.

(** [th.mm]: both arguments are matrices. *)
Definition mm (a b : tensor R) : result (tensor R) :=
  match a, b with
  | T2 a, T2 b => r <- matmat a b ;; Ok (T2 r)
  | _, _ => Raise (RuntimeError "mm(): expected 2D tensors")
  end.

(** [th.bmm]: both arguments are batches of matrices of the same length. *)
Definition bmm (a b : tensor R) : result (tensor R) :=
  match a, b with
  | T3 a, T3 b =>
      r <- zipM (RuntimeError "bmm(): batch sizes differ") matmat a b ;; Ok (T3 r)
  | _, _ => Raise (RuntimeError "bmm(): expected 3D tensors")
  end.

(** [tensor.unsqueeze(dim=1)]; a rank above 3 is outside the tensor type and
    is reported as the error the following [bmm] raises on it. *)
Definition unsqueeze_dim1 (t : tensor R) : result (tensor R) :=
  match t with
  | T0 _ => Raise (IndexError "Dimension out of range")
  | T1 v => Ok (T2 (map (fun x => [x]) v))
  | T2 m => Ok (T3 (map (fun r => [r]) m))
  | T3 _ => Raise (RuntimeError "bmm(): expected 3D tensors")
  end.

Definition single {A : Type} (l : list A) : option A :=
  match l with [a] => Some a | _ => None end.

(** [tensor.squeeze(dim=1)]: dimension 1 is dropped when its size is one. *)
Definition squeeze_dim1 (t : tensor R) : result (tensor R) :=
  match t with
  | T0 _ => Raise (IndexError "Dimension out of range")
  | T1 v => Raise (IndexError "Dimension out of range")
  | T2 m => match all_some (map single m) with
            | Some v => Ok (T1 v)
            | None => Ok t
            end
  | T3 c => match all_some (map single c) with
            | Some m => Ok (T2 m)
            | None => Ok t
            end
  end.

(** [len(x)] where [x] may be [None]. *)
Definition py_len (x : option (tensor R)) : result nat :=
  match x with
  | None => Raise (TypeError "object of type 'NoneType' has no len()")
  | Some t => tensor_len t
  end.

(** A torch function given [None] where it expects a tensor. *)
Definition as_tensor (x : option (tensor R)) : result (tensor R) :=
  match x with
  | None => Raise (TypeError "argument must be Tensor, not NoneType")
  | Some t => Ok t
  end.

(** ** StateDependentNoiseDistribution, lines 711-916 *)

Module StateDependentNoiseDistribution.
Record t : Type := mk {
  action_dim : nat;
  latent_sde_dim : option nat;
  weights_dist : option Normal.t;
  exploration_mat : option (tensor R);
  exploration_matrices : option (tensor R);
  _latent_sde : option (tensor R);
  use_expln : bool;
  full_std : bool;
  epsilon : R;
  learn_features : bool;
  bijector : option TanhBijector.t;
  distribution : option Normal.t
}.

Definition init (action_dim : nat)
    (full_std use_expln squash_output learn_features : bool) (epsilon : R) : t :=
  mk action_dim None None None None None use_expln full_std epsilon
     learn_features
     (if squash_output then Some (TanhBijector.init epsilon) else None)
     None.

(** [safe_log_std] at one entry, line 773: the argument of [log1p]. *)
Definition safe_log_std (epsilon log_std : R) : R :=
  log_std * b2r (Rltb 0 log_std) + epsilon.

(** One entry of the expln branch of [get_std], lines 771-775.  The source
    applies [log1p] to [safe_log_std] at every entry, also at those the mask
    [(log_std > 0)] then multiplies by zero, and in floating point a NaN times
    zero is a NaN: the entry is the real number below exactly when
    [safe_log_std] is above [-1] there, which holds at every entry as soon as
    [epsilon > -1] (lemma [safe_log_std_domain]).  The statements about the
    expln transform carry that hypothesis. *)
Definition expln (epsilon log_std : R) : R :=
  let below_threshold := exp log_std * b2r (Rleb log_std 0) in
  let above_threshold :=
    (log1p (safe_log_std epsilon log_std) + 1) * b2r (Rltb 0 log_std) in
  below_threshold + above_threshold.

Definition get_std (self : t) (log_std : tensor R) : result (tensor R) :=
  let std := if use_expln self then tmap (expln (epsilon self)) log_std
             else tmap exp log_std in
  if full_std self then Ok std
  else
    match latent_sde_dim self with
    | None => Raise (TypeError "ones(): argument 'size' must be tuple of ints, but found NoneType")
    | Some d => tmap2 Rmult (T2 (repeat (repeat 1 (action_dim self)) d)) std
    end.

Definition set_weights (self : t) (w : Normal.t) (mat mats : tensor R) : t :=
  mk (action_dim self) (latent_sde_dim self) (Some w) (Some mat) (Some mats)
     (_latent_sde self) (use_expln self) (full_std self) (epsilon self)
     (learn_features self) (bijector self) (distribution self).

Definition sample_weights (g : generator) (self : t) (log_std : tensor R)
    (batch_size : nat) : result t :=
  std <- get_std self log_std ;;
  w <- Normal.init (tmap (fun _ => 0) std) std ;;
  mat <- Normal.rsample w (randn_like g (Normal.loc w)) ;;
  mats <- Normal.rsample w (randn_batch g batch_size (Normal.loc w)) ;;
  Ok (set_weights self w mat mats).

(** Returns the instance and the [log_std] parameter; the linear layer of
    the mean is not part of the model. *)
Definition proba_distribution_net (g : generator) (self : t) (latent_dim : nat)
    (log_std_init : R) (latent_sde_dim : option nat) : result (t * tensor R) :=
  let d := match latent_sde_dim with None => latent_dim | Some d => d end in
  let self1 :=
    mk (action_dim self) (Some d) (weights_dist self) (exploration_mat self)
       (exploration_matrices self) (_latent_sde self) (use_expln self)
       (full_std self) (epsilon self) (learn_features self) (bijector self)
       (distribution self) in
  let ones := if full_std self then repeat (repeat 1 (action_dim self)) d
              else repeat [1] d in
  let log_std := T2 (map (map (fun x => x * log_std_init)) ones) in
  self2 <- sample_weights g self1 log_std 1 ;;
  Ok (self2, log_std).

Definition proba_distribution (self : t) (mean_actions log_std latent_sde : tensor R)
  : result t :=
  let latent := latent_sde in
  std <- get_std self log_std ;;
  variance <- mm (tmap (fun x => x ^ 2) latent) (tmap (fun x => x ^ 2) std) ;;
  d <- Normal.init mean_actions (tmap (fun v => sqrt (v + epsilon self)) variance) ;;
  Ok (mk (action_dim self) (latent_sde_dim self) (weights_dist self)
         (exploration_mat self) (exploration_matrices self) (Some latent)
         (use_expln self) (full_std self) (epsilon self) (learn_features self)
         (bijector self) (Some d)).

Definition get_noise (self : t) (latent_sde : option (tensor R))
  : result (tensor R) :=
  latent <- (if learn_features self then Ok latent_sde
             else l <- getattr latent_sde "detach" ;; Ok (Some l)) ;;
  n <- py_len latent ;;
  one_matrix <- (if (n =? 1)%nat then Ok true
                 else k <- py_len (exploration_matrices self) ;;
                      Ok (negb (n =? k)%nat)) ;;
  l <- as_tensor latent ;;
  if one_matrix then
    mat <- as_tensor (exploration_mat self) ;;
    mm l mat
  else
    l3 <- unsqueeze_dim1 l ;;
    mats <- as_tensor (exploration_matrices self) ;;
    noise <- bmm l3 mats ;;
    squeeze_dim1 noise.

(** [dt] is the dtype of [actions]. *)
Definition log_prob (self : t) (dt : dtype) (actions : tensor R)
  : result (tensor R) :=
  let gaussian_actions := match bijector self with
                          | Some _ => TanhBijector.inverse dt actions
                          | None => actions
                          end in
  d <- getattr (distribution self) "log_prob" ;;
  lp <- Normal.log_prob d gaussian_actions ;;
  lp <- sum_independent_dims lp ;;
  match bijector self with
  | Some b =>
      corr <- tensor_sum_dim1 (TanhBijector.log_prob_correction b gaussian_actions) ;;
      isub lp corr
  | None => Ok lp
  end.

Definition entropy (self : t) : result (option (tensor R)) :=
  match bijector self with
  | Some _ => Ok None
  | None =>
      d <- getattr (distribution self) "entropy" ;;
      e <- sum_independent_dims (Normal.entropy d) ;;
      Ok (Some e)
  end.

Definition sample (self : t) : result (tensor R) :=
  noise <- get_noise self (_latent_sde self) ;;
  d <- getattr (distribution self) "mean" ;;
  actions <- tmap2 Rplus (Normal.mean d) noise ;;
  match bijector self with
  | Some _ => Ok (TanhBijector.forward actions)
  | None => Ok actions
  end.

Definition mode (self : t) : result (tensor R) :=
  d <- getattr (distribution self) "mean" ;;
  let actions := Normal.mean d in
  match bijector self with
  | Some _ => Ok (TanhBijector.forward actions)
  | None => Ok actions
  end.

Definition get_actions (self : t) (deterministic : bool) : result (tensor R) :=
  if deterministic then mode self else sample self.

Definition actions_from_params (self : t)
    (mean_actions log_std latent_sde : tensor R) (deterministic : bool)
  : result (t * tensor R) :=
  self' <- proba_distribution self mean_actions log_std latent_sde ;;
  a <- get_actions self' deterministic ;;
  Ok (self', a).

Definition log_prob_from_params (self : t) (dt : dtype)
    (mean_actions log_std latent_sde : tensor R)
  : result (t * (tensor R * tensor R)) :=
  sa <- actions_from_params self mean_actions log_std latent_sde false ;;
  lp <- log_prob (fst sa) dt (snd sa) ;;
  Ok (fst sa, (snd sa, lp)).
End StateDependentNoiseDistribution.

(** ** The variants together *)

Inductive Distribution : Type :=
| DiagGaussian (d : DiagGaussianDistribution.t)
| SquashedDiagGaussian (d : SquashedDiagGaussianDistribution.t)
| PlainCategorical (d : CategoricalDistribution.t)
| LimitedActions (d : CategoricalDistributionLimitedActions.t)
| LimitedActions_Manual (d : CategoricalDistributionLimitedActions_Manual.t)
| MultiCategorical (d : MultiCategoricalDistribution.t)
| BernoulliDist (d : BernoulliDistribution.t)
| StateDependentNoise (d : StateDependentNoiseDistribution.t).

(** [dist.__class__] *)
Inductive class : Type :=
| cDiagGaussian | cSquashedDiagGaussian | cCategorical | cLimitedActions
| cLimitedActions_Manual | cMultiCategorical | cBernoulli | cStateDependentNoise.

Definition class_of (d : Distribution) : class :=
  match d with
  | DiagGaussian _ => cDiagGaussian
  | SquashedDiagGaussian _ => cSquashedDiagGaussian
  | PlainCategorical _ => cCategorical
  | LimitedActions _ => cLimitedActions
  | LimitedActions_Manual _ => cLimitedActions_Manual
  | MultiCategorical _ => cMultiCategorical
  | BernoulliDist _ => cBernoulli
  | StateDependentNoise _ => cStateDependentNoise
  end.

Definition class_eq_dec (a b : class) : {a = b} + {a <> b}.
Proof. decide equality. Defined.

(** The four queries of the interface, dispatched on the variant.  [dt] is
    the dtype of the action tensor. *)
Definition log_prob (dt : dtype) (d : Distribution) (actions : tensor R)
  : result (tensor R) :=
  match d with
  | DiagGaussian s => DiagGaussianDistribution.log_prob s actions
  | SquashedDiagGaussian s => SquashedDiagGaussianDistribution.log_prob s dt actions None
  | PlainCategorical s => CategoricalDistribution.log_prob s actions
  | LimitedActions s => CategoricalDistributionLimitedActions.log_prob s actions
  | LimitedActions_Manual s => CategoricalDistributionLimitedActions_Manual.log_prob s actions
  | MultiCategorical s => MultiCategoricalDistribution.log_prob s actions
  | BernoulliDist s => BernoulliDistribution.log_prob s actions
  | StateDependentNoise s => StateDependentNoiseDistribution.log_prob s dt actions
  end.

Definition entropy (d : Distribution) : result (option (tensor R)) :=
  match d with
  | DiagGaussian s => DiagGaussianDistribution.entropy s
  | SquashedDiagGaussian s => SquashedDiagGaussianDistribution.entropy s
  | PlainCategorical s => CategoricalDistribution.entropy s
  | LimitedActions s => CategoricalDistributionLimitedActions.entropy s
  | LimitedActions_Manual s => CategoricalDistributionLimitedActions_Manual.entropy s
  | MultiCategorical s => MultiCategoricalDistribution.entropy s
  | BernoulliDist s => BernoulliDistribution.entropy s
  | StateDependentNoise s => StateDependentNoiseDistribution.entropy s
  end.

Definition sample (g : generator) (d : Distribution) : result (tensor R) :=
  match d with
  | DiagGaussian s => DiagGaussianDistribution.sample g s
  | SquashedDiagGaussian s =>
      r <- SquashedDiagGaussianDistribution.sample g s ;; Ok (snd r)
  | PlainCategorical s => CategoricalDistribution.sample g s
  | LimitedActions s => CategoricalDistributionLimitedActions.sample g s
  | LimitedActions_Manual s => CategoricalDistributionLimitedActions_Manual.sample g s
  | MultiCategorical s => MultiCategoricalDistribution.sample g s
  | BernoulliDist s => BernoulliDistribution.sample g s
  | StateDependentNoise s => StateDependentNoiseDistribution.sample s
  end.

Definition mode (d : Distribution) : result (tensor R) :=
  match d with
  | DiagGaussian s => DiagGaussianDistribution.mode s
  | SquashedDiagGaussian s =>
      r <- SquashedDiagGaussianDistribution.mode s ;; Ok (snd r)
  | PlainCategorical s => CategoricalDistribution.mode s
  | LimitedActions s => CategoricalDistributionLimitedActions.mode s
  | LimitedActions_Manual s => CategoricalDistributionLimitedActions_Manual.mode s
  | MultiCategorical s => MultiCategoricalDistribution.mode s
  | BernoulliDist s => BernoulliDistribution.mode s
  | StateDependentNoise s => StateDependentNoiseDistribution.mode s
  end.

(** ** Action spaces *)

Inductive space : Type :=
| Box (dim : nat)
| Discrete (n : nat)
| MultiDiscrete (nvec : list nat)
| MultiBinary (n : nat)
| OtherSpace (type_name : string).

(** Modelled from the spec: [get_action_dim] of
    stable_baselines3.common.preprocessing is not among the sources; the
    continuous descriptor [Continuous(dim)] carries its dimension. *)
Definition get_action_dim (dim : nat) : nat := dim.

(** ** Configuration mappings *)

Definition kwargs : Type := list (string * pyvalue).

Fixpoint dict_get (d : kwargs) (k : string) : option pyvalue :=
  match d with
  | [] => None
  | (k', v) :: d' => if String.eqb k' k then Some v else dict_get d' k
  end.

(** [d.get(k)]: [None] for a missing key. *)
Definition get (d : kwargs) (k : string) : pyvalue :=
  match dict_get d k with Some v => v | None => PyNone end.

(** [d[k]] *)
Definition getitem (d : kwargs) (k : string) : result pyvalue :=
  match dict_get d k with Some v => Ok v | None => Raise (KeyError k) end.

(** [del d[k]] *)
Definition delitem (d : kwargs) (k : string) : kwargs :=
  filter (fun kv => negb (String.eqb (fst kv) k)) d.

(** [cls(x, **d)] for a constructor with no keyword of its own besides the
    positional one: any entry is an unexpected or a repeated argument. *)
Definition no_kwargs (d : kwargs) : result unit :=
  match d with
  | [] => Ok tt
  | _ => Raise (TypeError "__init__() got an unexpected keyword argument")
  end.

(** The keywords of the gSDE constructor and their defaults.  A flag is used
    through its truth value.  [epsilon] must be a number: another value fails
    at its first arithmetic use, which the model reports here. *)
Record sde_args : Type := mkSdeArgs {
  a_full_std : bool;
  a_use_expln : bool;
  a_squash_output : bool;
  a_learn_features : bool;
  a_epsilon : R
}.

Definition default_epsilon : R := 1 / 10 ^ 6.

Definition default_sde_args : sde_args :=
  mkSdeArgs true false false false default_epsilon.

Fixpoint bind_sde_kwargs (d : kwargs) (a : sde_args) : result sde_args :=
  match d with
  | [] => Ok a
  | (k, v) :: d' =>
      a' <- (if String.eqb k "full_std" then
               Ok (mkSdeArgs (truthy v) (a_use_expln a) (a_squash_output a)
                             (a_learn_features a) (a_epsilon a))
             else if String.eqb k "use_expln" then
               Ok (mkSdeArgs (a_full_std a) (truthy v) (a_squash_output a)
                             (a_learn_features a) (a_epsilon a))
             else if String.eqb k "squash_output" then
               Ok (mkSdeArgs (a_full_std a) (a_use_expln a) (truthy v)
                             (a_learn_features a) (a_epsilon a))
             else if String.eqb k "learn_features" then
               Ok (mkSdeArgs (a_full_std a) (a_use_expln a) (a_squash_output a)
                             (truthy v) (a_epsilon a))
             else if String.eqb k "epsilon" then
               match v with
               | PyFloat x =>
                   Ok (mkSdeArgs (a_full_std a) (a_use_expln a) (a_squash_output a)
                                 (a_learn_features a) x)
               | PyBool b =>
                   Ok (mkSdeArgs (a_full_std a) (a_use_expln a) (a_squash_output a)
                                 (a_learn_features a) (b2r b))
               | _ => Raise (TypeError "unsupported operand type(s) for +")
               end
             else Raise (TypeError "__init__() got an unexpected keyword argument")) ;;
      bind_sde_kwargs d' a'
  end.

(** ** make_proba_distribution, lines 963-1010

    The branch of lines 993-998 repeats the condition of the branch before it
    and is never taken. *)

Definition make_proba_distribution (action_space : space) (use_sde : bool)
    (dist_kwargs : option kwargs) : result Distribution :=
  let dist_kwargs := match dist_kwargs with None => [] | Some d => d end in
  let use_limited_actions :=
    if negb (is_none (get dist_kwargs "get_valid_actions")) then true
    else truthy (get dist_kwargs "get_invalid_actions_layer") in
  match action_space with
  | Box dim =>
      if use_sde then
        a <- bind_sde_kwargs dist_kwargs default_sde_args ;;
        Ok (StateDependentNoise
              (StateDependentNoiseDistribution.init (get_action_dim dim)
                 (a_full_std a) (a_use_expln a) (a_squash_output a)
                 (a_learn_features a) (a_epsilon a)))
      else
        _ <- no_kwargs dist_kwargs ;;
        Ok (DiagGaussian (DiagGaussianDistribution.init (get_action_dim dim)))
  | Discrete n =>
      if use_limited_actions then
        get_invalid_actions_layer <- getitem dist_kwargs "get_invalid_actions_layer" ;;
        let dist_kwargs := delitem dist_kwargs "get_invalid_actions_layer" in
        _ <- no_kwargs dist_kwargs ;;
        d <- CategoricalDistributionLimitedActions.init n get_invalid_actions_layer ;;
        Ok (LimitedActions d)
      else
        _ <- no_kwargs dist_kwargs ;;
        d <- CategoricalDistribution.init n ;;
        Ok (PlainCategorical d)
  | MultiDiscrete nvec =>
      _ <- no_kwargs dist_kwargs ;;
      Ok (MultiCategorical (MultiCategoricalDistribution.init nvec))
  | MultiBinary n =>
      _ <- no_kwargs dist_kwargs ;;
      Ok (BernoulliDist (BernoulliDistribution.init n))
  | OtherSpace name =>
      Raise (NotImplementedError
               ("Error: probability distribution, not implemented for action spaceof type "
                ++ name
                ++ ". Must be of type Gym Spaces: Box, Discrete, MultiDiscrete or MultiBinary."))
  end.

(** ** kl_divergence, lines 1013-1044 *)

(** What a [distribution] field can hold when it is handed to
    [th.distributions.kl_divergence]. *)
Inductive torch_dist : Type :=
| TNormal (d : Normal.t)
| TCategorical (d : Categorical.t)
| TBernoulli (d : Bernoulli.t)
| TList (ds : list Categorical.t).

(** [th.distributions.kl_divergence]: the closed forms registered for pairs of
    the same family; [None] and any other pair have none. *)
Definition th_kl_divergence (p q : option torch_dist) : result (tensor R) :=
  match p, q with
  | Some (TNormal p), Some (TNormal q) => Normal.kl p q
  | Some (TCategorical p), Some (TCategorical q) => Categorical.kl p q
  | Some (TBernoulli p), Some (TBernoulli q) => Bernoulli.kl p q
  | _, _ => Raise (NotImplementedError "No KL(p || q) is implemented for p type and q type")
  end.

(** [dist.distribution] *)
Definition distribution_of (d : Distribution) : option torch_dist :=
  match d with
  | DiagGaussian s =>
      option_map TNormal (DiagGaussianDistribution.distribution s)
  | SquashedDiagGaussian s =>
      option_map TNormal
        (DiagGaussianDistribution.distribution (SquashedDiagGaussianDistribution.base s))
  | PlainCategorical s =>
      option_map TCategorical (CategoricalDistribution.distribution s)
  | LimitedActions s =>
      option_map TCategorical (CategoricalDistributionLimitedActions.distribution s)
  | LimitedActions_Manual s =>
      option_map TCategorical (CategoricalDistributionLimitedActions_Manual.distribution s)
  | MultiCategorical s =>
      option_map TList (MultiCategoricalDistribution.distribution s)
  | BernoulliDist s =>
      option_map TBernoulli (BernoulliDistribution.distribution s)
  | StateDependentNoise s =>
      option_map TNormal (StateDependentNoiseDistribution.distribution s)
  end.

(** [np.isclose] on two integers with the default tolerances
    [rtol = 1e-05] and [atol = 1e-08]: [|a - b| <= atol + rtol * |b|],
    both sides scaled by [10 ^ 8]. *)
Definition isclose (a b : nat) : bool :=
  (10 ^ 8 * Z.abs (Z.of_nat a - Z.of_nat b) <=? 1 + 10 ^ 3 * Z.abs (Z.of_nat b))%Z.

(** [np.allclose] on two integer vectors: they are broadcast against each
    other, then compared entry by entry. *)
Definition allclose (a b : list nat) : result bool :=
  r <- bcast (ValueError "operands could not be broadcast together")
             (fun x y => Ok (isclose x y)) a b ;;
  Ok (forallb (fun c => c) r).

(** [assert cond, msg] *)
Definition assert (cond : bool) (msg : string) : result unit :=
  if cond then Ok tt else Raise (AssertionError msg).

Definition kl_divergence (dist_true dist_pred : Distribution) : result (tensor R) :=
  _ <- assert (if class_eq_dec (class_of dist_true) (class_of dist_pred)
               then true else false)
              "Error: input distributions should be the same type" ;;
  match dist_pred, dist_true with
  | MultiCategorical pred, MultiCategorical true_ =>
      close <- allclose (MultiCategoricalDistribution.action_dims pred)
                        (MultiCategoricalDistribution.action_dims true_) ;;
      _ <- assert close "Error: distributions must have the same input space" ;;
      ps <- iter (MultiCategoricalDistribution.distribution true_) ;;
      qs <- iter (MultiCategoricalDistribution.distribution pred) ;;
      kls <- mapM (fun pq => Categorical.kl (fst pq) (snd pq)) (combine ps qs) ;;
      st <- stack_dim1 kls ;;
      tensor_sum_dim1 st
  | _, _ =>
      th_kl_divergence (distribution_of dist_true) (distribution_of dist_pred)
  end.

(** ** Fresh instances

    An instance as its constructor returns it, before any bind. *)

Inductive fresh : Distribution -> Prop :=
| fresh_DiagGaussian (n : nat) :
    fresh (DiagGaussian (DiagGaussianDistribution.init n))
| fresh_SquashedDiagGaussian (n : nat) (epsilon : R) :
    fresh (SquashedDiagGaussian (SquashedDiagGaussianDistribution.init n epsilon))
| fresh_PlainCategorical (n : nat) (s : CategoricalDistribution.t) :
    CategoricalDistribution.init n = Ok s ->
    fresh (PlainCategorical s)
| fresh_LimitedActions (n : nat) (obj : pyvalue)
    (s : CategoricalDistributionLimitedActions.t) :
    CategoricalDistributionLimitedActions.init n obj = Ok s ->
    fresh (LimitedActions s)
| fresh_LimitedActions_Manual (n : nat) (f : pyvalue)
    (s : CategoricalDistributionLimitedActions_Manual.t) :
    CategoricalDistributionLimitedActions_Manual.init n f = Ok s ->
    fresh (LimitedActions_Manual s)
| fresh_MultiCategorical (dims : list nat) :
    fresh (MultiCategorical (MultiCategoricalDistribution.init dims))
| fresh_Bernoulli (n : nat) :
    fresh (BernoulliDist (BernoulliDistribution.init n))
| fresh_StateDependentNoise (n : nat)
    (full_std use_expln squash_output learn_features : bool) (epsilon : R) :
    fresh (StateDependentNoise
             (StateDependentNoiseDistribution.init n full_std use_expln
                squash_output learn_features epsilon)).


(** ** Example instances *)

(** A masking layer that flags index 1 of three actions, and a masked
    categorical instance built on it. *)
Definition example_layer : layer := fun _ => T2 [[0; 1; 0]].

Definition example_limited : CategoricalDistributionLimitedActions.t :=
  CategoricalDistributionLimitedActions.mk
    3 example_layer (PyLayerClass example_layer) None None None None None None.

(** What binding the logits [[1, 2, 3]] leaves in an instance whose layer
    flags index 1. *)
Definition bound_123 (self : CategoricalDistributionLimitedActions.t)
  : CategoricalDistributionLimitedActions.t :=
  CategoricalDistributionLimitedActions.mk
    (CategoricalDistributionLimitedActions.action_dim self)
    (CategoricalDistributionLimitedActions._get_invalid_actions_layer self)
    (CategoricalDistributionLimitedActions._get_invalid_actions_obj self)
    (Some [[1; 2; 3]])
    (CategoricalDistributionLimitedActions._valid_actions self)
    (Some (T2 [[Rltb 0 0; Rltb 0 1; Rltb 0 0]]))
    (Some (- 10))
    (Some [[1; - 10; 3]])
    (Some (Categorical.init [[1; - 10; 3]])).

(** A squashed Gaussian bound on the mean [[0]] with [log_std = [0]], and
    the draw before squashing that [sample()] or [mode()] stored, if any. *)
Definition example_squashed (gaussian_actions : option (tensor R))
  : SquashedDiagGaussianDistribution.t :=
  SquashedDiagGaussianDistribution.mk
    (DiagGaussianDistribution.mk
       1 (Some (Normal.mk (T2 [[0]]) (T2 [[1 * exp 0]]))))
    default_epsilon gaussian_actions.

(** A gSDE instance with one latent feature, two actions and two pre-sampled
    exploration matrices. *)
Definition example_sde : StateDependentNoiseDistribution.t :=
  StateDependentNoiseDistribution.mk
    2 (Some 1%nat) None
    (Some (T2 [[1; 2]]))
    (Some (T3 [[[1; 2]]; [[3; 4]]]))
    None false true default_epsilon false None None.

(** A generator whose normal draws are all zero: a draw shaped like its
    argument, and a batch of [n] such draws. *)
Definition zero_generator : generator :=
  mkGen (fun t => tmap (fun _ => 0) t)
        (fun n t => match t with
                    | T2 m => T3 (repeat (map (map (fun _ => 0)) m) n)
                    | _ => tmap (fun _ => 0) t
                    end)
        (fun _ _ => 0%nat)
        (fun _ => false).

(** ** Predicates used in the statements *)

(** The keywords the gSDE constructor accepts besides [action_dim]. *)
Definition sde_keyword (k : string) : bool :=
  String.eqb k "full_std" || String.eqb k "use_expln"
  || String.eqb k "squash_output" || String.eqb k "learn_features"
  || String.eqb k "epsilon".

(** A gSDE instance none of whose optional fields is set. *)
Definition sde_unset (s : StateDependentNoiseDistribution.t) : Prop :=
  StateDependentNoiseDistribution.latent_sde_dim s = None
  /\ StateDependentNoiseDistribution.weights_dist s = None
  /\ StateDependentNoiseDistribution.exploration_mat s = None
  /\ StateDependentNoiseDistribution.exploration_matrices s = None
  /\ StateDependentNoiseDistribution._latent_sde s = None
  /\ StateDependentNoiseDistribution.distribution s = None.

(** The mean and the standard deviation of a Gaussian bound on a batch,
    entry by entry: row [r] of the mean paired with [exp(log_std)]. *)
Definition gaussian_params (mean : matrix) (log_std : vec) : tensor (R * R) :=
  T2 (map (fun r => combine r (map exp log_std)) mean).

(** [tensor_In x t]: [x] is an entry of [t]. *)
Definition tensor_In {A : Type} (x : A) (t : tensor A) : Prop :=
  match t with
  | T0 y => x = y
  | T1 v => In x v
  | T2 m => exists r, In r m /\ In x r
  | T3 c => exists m r, In m c /\ In r m /\ In x r
  end.

(** * Properties *)

(** ** Results and list traversals *)

Lemma bind_ok {A B : Type} (r : result A) (k : A -> result B) (b : B) :
  bind r k = Ok b -> exists a, r = Ok a /\ k a = Ok b.
Proof.
  destruct r as [a | e]; simpl; intros H.
  - exists a. split; [reflexivity | exact H].
  - discriminate H.
Qed.

Lemma bind_raise_l {A B : Type} (r : result A) (k : A -> result B) :
  raises r -> raises (bind r k).
Proof. intros [e ->]. exists e. reflexivity. Qed.


Lemma raises_not_ok {A : Type} (r : result A) (a : A) :
  raises r -> r <> Ok a.
Proof. intros [e ->]. discriminate. Qed.

Lemma getattr_none_raises {A : Type} (attr : string) :
  raises (getattr (A := A) None attr).
Proof. eexists. reflexivity. Qed.

Lemma iter_none_raises {A : Type} : raises (iter (A := A) None).
Proof. eexists. reflexivity. Qed.

(** Taking a bind apart in a hypothesis. *)
Ltac inv_bind H :=
  let a := fresh "a" in
  let Ha := fresh "Ha" in
  apply bind_ok in H; destruct H as [a [Ha H]].

Lemma mapM_pure {A B : Type} (f : A -> B) (l : list A) :
  mapM (fun a => Ok (f a)) l = Ok (map f l).
Proof.
  induction l as [| a l IH]; simpl.
  - reflexivity.
  - rewrite IH. reflexivity.
Qed.

Lemma mapM_length {A B : Type} (f : A -> result B) (l : list A) (r : list B) :
  mapM f l = Ok r -> length r = length l.
Proof.
  revert r. induction l as [| a l IH]; simpl; intros r H.
  - injection H as <-. reflexivity.
  - inv_bind H. inv_bind H. injection H as <-. simpl.
    f_equal. apply IH. assumption.
Qed.

Lemma mapM_nth {A B : Type} (f : A -> result B) (l : list A) (r : list B) :
  mapM f l = Ok r ->
  forall i a, nth_error l i = Some a ->
  exists b, nth_error r i = Some b /\ f a = Ok b.
Proof.
  revert r. induction l as [| x l IH]; simpl; intros r H i a Hi.
  - destruct i; discriminate Hi.
  - inv_bind H. inv_bind H. injection H as <-.
    destruct i as [| i]; simpl in *.
    + injection Hi as ->. eexists. split; [reflexivity | assumption].
    + eapply IH; eassumption.
Qed.

Lemma zipM_pure {A B C : Type} (e : exn) (f : A -> B -> C) (u : list A) (v : list B) :
  length u = length v ->
  zipM e (fun a b => Ok (f a b)) u v = Ok (zip_with f u v).
Proof.
  revert v. induction u as [| a u IH]; intros [| b v] H; simpl in *;
    try discriminate H; try reflexivity.
  injection H as H. rewrite (IH v H). reflexivity.
Qed.

Lemma zipM_length {A B C : Type} (e : exn) (f : A -> B -> result C)
    (u : list A) (v : list B) (w : list C) :
  zipM e f u v = Ok w -> length u = length w /\ length v = length w.
Proof.
  revert v w. induction u as [| a u IH]; intros [| b v] w H; simpl in *;
    try discriminate H.
  - injection H as <-. split; reflexivity.
  - inv_bind H. inv_bind H. injection H as <-.
    destruct (IH _ _ Ha0) as [H1 H2]. simpl. split; congruence.
Qed.

Lemma zipM_nth {A B C : Type} (e : exn) (f : A -> B -> result C)
    (u : list A) (v : list B) (w : list C) :
  zipM e f u v = Ok w ->
  forall i a b, nth_error u i = Some a -> nth_error v i = Some b ->
  exists c, nth_error w i = Some c /\ f a b = Ok c.
Proof.
  revert v w. induction u as [| x u IH]; intros [| y v] w H i a b Ha Hb;
    simpl in *; try discriminate H.
  - destruct i; discriminate Ha.
  - inv_bind H. inv_bind H. injection H as <-.
    destruct i as [| i]; simpl in *.
    + injection Ha as ->. injection Hb as ->.
      eexists. split; [reflexivity | assumption].
    + eapply IH; eassumption.
Qed.

Lemma bcast_pure {A B C : Type} (e : exn) (f : A -> B -> C) (u : list A) (v : list B) :
  length u = length v ->
  bcast e (fun a b => Ok (f a b)) u v = Ok (zip_with f u v).
Proof.
  intros H. unfold bcast.
  destruct u as [| a [| a' u]]; destruct v as [| b [| b' v]];
    try discriminate H; try reflexivity.
  apply zipM_pure. exact H.
Qed.

Lemma zip_with_length {A B C : Type} (f : A -> B -> C) (u : list A) (v : list B) :
  length u = length v -> length (zip_with f u v) = length u.
Proof.
  intros H. unfold zip_with. rewrite length_map, length_combine, <- H.
  apply Nat.min_id.
Qed.

(** ** The factory on a discrete space without masking *)

(** C1.  For every discrete space [Discrete n], with the exploration flag unset
    and an empty (or absent) configuration, [make_proba_distribution] does not
    return a [CategoricalDistribution]: the constructor raises
    [Exception("In CategoricalDistribution")] for every [n]. *)
Theorem make_proba_distribution_discrete_plain_raises (n : nat) :
  make_proba_distribution (Discrete n) false None
    = Raise (Exception "In CategoricalDistribution")
  /\ make_proba_distribution (Discrete n) false (Some [])
    = Raise (Exception "In CategoricalDistribution").
Proof. split; reflexivity. Qed.

(** No call of the constructor returns an instance. *)
Lemma CategoricalDistribution_init_raises (n : nat) :
  CategoricalDistribution.init n = Raise (Exception "In CategoricalDistribution").
Proof. reflexivity. Qed.

(** ** sum_independent_dims *)

Lemma tmap2_T1 {A B C : Type} (f : A -> B -> C) (u : list A) (v : list B) :
  length u = length v ->
  tmap2 f (T1 u) (T1 v) = Ok (T1 (zip_with f u v)).
Proof.
  intros H. unfold tmap2, tmap2M. simpl.
  rewrite (bcast_pure size_mismatch f u v H). reflexivity.
Qed.

Lemma normal_log_prob_T1 (mu sigma a : vec) :
  length a = length mu -> length mu = length sigma ->
  exists lp, Normal.log_prob (Normal.mk (T1 mu) (T1 sigma)) (T1 a) = Ok (T1 lp)
             /\ length lp = length a.
Proof.
  intros H1 H2. unfold Normal.log_prob. simpl.
  rewrite (tmap2_T1 Rminus a mu H1). simpl.
  rewrite tmap2_T1.
  - eexists. split; [reflexivity |].
    rewrite !zip_with_length; try assumption; try reflexivity.
    rewrite zip_with_length; congruence.
  - rewrite zip_with_length; congruence.
Qed.

Lemma zip_with_fst {A B : Type} (u : list A) (v : list B) :
  length u = length v -> zip_with (fun a _ => a) u v = u.
Proof.
  revert v. induction u as [| a u IH]; intros [| b v] H; simpl in *;
    try discriminate H; try reflexivity.
  injection H as H. unfold zip_with in *. simpl. rewrite (IH v H). reflexivity.
Qed.

Lemma zip_with_snd {A B : Type} (u : list A) (v : list B) :
  length u = length v -> zip_with (fun _ b => b) u v = v.
Proof.
  revert v. induction u as [| a u IH]; intros [| b v] H; simpl in *;
    try discriminate H; try reflexivity.
  injection H as H. unfold zip_with in *. simpl. rewrite (IH v H). reflexivity.
Qed.

Lemma zip_with_ones (u v : vec) :
  length u = length v -> zip_with Rmult (map (fun _ => 1) u) v = v.
Proof.
  revert v. induction u as [| a u IH]; intros [| b v] H; simpl in *;
    try discriminate H; try reflexivity.
  injection H as H. unfold zip_with in *. simpl. rewrite (IH v H).
  f_equal. lra.
Qed.

Lemma diag_gaussian_bind_T1 (self : DiagGaussianDistribution.t) (mu ls : vec) :
  length mu = length ls ->
  DiagGaussianDistribution.proba_distribution self (T1 mu) (T1 ls)
  = Ok (DiagGaussianDistribution.mk (DiagGaussianDistribution.action_dim self)
          (Some (Normal.mk (T1 mu) (T1 (map exp ls))))).
Proof.
  intros H. unfold DiagGaussianDistribution.proba_distribution. simpl.
  rewrite tmap2_T1 by (rewrite !length_map; exact H). simpl.
  rewrite zip_with_ones by (rewrite length_map; exact H).
  assert (Hlen : length mu = length (map exp ls)).
  { rewrite length_map. exact H. }
  unfold Normal.init.
  rewrite (tmap2_T1 (fun l _ : R => l) mu (map exp ls) Hlen). simpl.
  rewrite (tmap2_T1 (fun _ s : R => s) mu (map exp ls) Hlen). simpl.
  rewrite zip_with_fst, zip_with_snd by exact Hlen.
  reflexivity.
Qed.

(** C10.  [sum_independent_dims] sums over dimension 1 and keeps the batch
    dimension for an input of rank 2 or 3; an input of rank 1 is summed over
    all its entries into a 0-dimensional tensor.  Hence the Gaussian
    [log_prob] of an unbatched vector of [n] actions is one scalar, the sum of
    the [n] elementary log-densities, and not one value per entry. *)
Theorem sum_independent_dims_collapses_rank1 :
  (forall m : matrix,
      sum_independent_dims (T2 m) = Ok (T1 (map vsum m))
      /\ tensor_len (T1 (map vsum m)) = tensor_len (T2 m))
  /\ (forall c : list matrix,
         sum_independent_dims (T3 c) = Ok (T2 (map colsum c))
         /\ tensor_len (T2 (map colsum c)) = tensor_len (T3 c))
  /\ (forall v : vec, sum_independent_dims (T1 v) = Ok (T0 (vsum v)))
  /\ (forall x : R, sum_independent_dims (T0 x) = Ok (T0 x))
  /\ (forall (self : DiagGaussianDistribution.t) (mu ls a : vec),
         length mu = length ls -> length a = length mu ->
         exists self' d lp,
           DiagGaussianDistribution.proba_distribution self (T1 mu) (T1 ls) = Ok self'
           /\ DiagGaussianDistribution.distribution self' = Some d
           /\ Normal.log_prob d (T1 a) = Ok (T1 lp)
           /\ length lp = length a
           /\ DiagGaussianDistribution.log_prob self' (T1 a) = Ok (T0 (vsum lp))).
Proof.
  split; [| split; [| split; [| split]]].
  - intros m. split; [reflexivity |]. simpl. rewrite length_map. reflexivity.
  - intros c. split; [reflexivity |]. simpl. rewrite length_map. reflexivity.
  - intros v. reflexivity.
  - intros x. reflexivity.
  - intros self mu ls a H1 H2.
    assert (Hs : length mu = length (map exp ls)).
    { rewrite length_map. exact H1. }
    destruct (normal_log_prob_T1 mu (map exp ls) a H2 Hs) as [lp [Hlp Hlen]].
    eexists. exists (Normal.mk (T1 mu) (T1 (map exp ls))), lp.
    split; [exact (diag_gaussian_bind_T1 self mu ls H1) |]. split; [reflexivity |].
    split; [exact Hlp |]. split; [exact Hlen |].
    unfold DiagGaussianDistribution.log_prob. simpl.
    rewrite Hlp. reflexivity.
Qed.

(** ** The masked categorical distribution *)

Lemma fold_left_Rmin_spec (l : list R) (x : R) :
  (fold_left Rmin l x = x \/ In (fold_left Rmin l x) l)
  /\ fold_left Rmin l x <= x
  /\ forall y, In y l -> fold_left Rmin l x <= y.
Proof.
  revert x. induction l as [| a l IH]; intros x; simpl.
  - split; [left; reflexivity |]. split; [lra |]. intros y [].
  - destruct (IH (Rmin x a)) as [Hin [Hle Hall]].
    pose proof (Rmin_l x a) as Hl. pose proof (Rmin_r x a) as Hr.
    split; [| split].
    + destruct Hin as [Heq | Hin].
      * rewrite Heq. unfold Rmin. destruct (Rle_dec x a); auto.
      * right. right. exact Hin.
    + lra.
    + intros y [<- | Hy]; [lra | apply Hall; exact Hy].
Qed.

Lemma matrix_min_spec (m : matrix) (lo : R) :
  matrix_min m = Ok lo ->
  In lo (concat m) /\ forall x, In x (concat m) -> lo <= x.
Proof.
  unfold matrix_min. destruct (concat m) as [| x l]; [discriminate |].
  intros H. injection H as <-.
  destruct (fold_left_Rmin_spec l x) as [Hin [Hle Hall]].
  split.
  - destruct Hin as [-> | Hin]; [left; reflexivity | right; exact Hin].
  - intros y [<- | Hy]; [exact Hle | apply Hall; exact Hy].
Qed.

Lemma Rltb_true (x y : R) : Rltb x y = true <-> x < y.
Proof.
  unfold Rltb. destruct (Rlt_dec x y); split; intros; try assumption;
    try reflexivity; try discriminate; contradiction.
Qed.

Lemma Rltb_false (x y : R) : Rltb x y = false <-> ~ x < y.
Proof.
  unfold Rltb. destruct (Rlt_dec x y); split; intros; try assumption;
    try reflexivity; try discriminate; contradiction.
Qed.

Lemma masked_fill_T2_entry (logits new : matrix) (flags : list (list bool))
    (v : R) :
  masked_fill logits (T2 flags) v = Ok new ->
  length new = length logits
  /\ forall i j b l, entry flags i j = Some b -> entry logits i j = Some l ->
       entry new i j = Some (if b then v else l).
Proof.
  unfold masked_fill. intros H. split.
  - destruct (zipM_length _ _ _ _ _ H) as [H1 _]. symmetry. exact H1.
  - intros i j b l Hb Hl. unfold entry in *.
    destruct (nth_error flags i) as [brow |] eqn:Ef; [| discriminate Hb].
    destruct (nth_error logits i) as [row |] eqn:El; [| discriminate Hl].
    destruct (zipM_nth _ _ _ _ _ H i row brow El Ef) as [nrow [-> Hrow]].
    destruct (zipM_nth _ _ _ _ _ Hrow j l b Hl Hb) as [c [-> Hc]].
    injection Hc as <-. reflexivity.
Qed.

Lemma entry_map {A B : Type} (f : A -> B) (m : list (list A)) (i j : nat) :
  entry (map (map f) m) i j = option_map f (entry m i j).
Proof.
  unfold entry. rewrite nth_error_map.
  destruct (nth_error m i) as [row |]; simpl; [| reflexivity].
  rewrite nth_error_map. reflexivity.
Qed.

(** *** The mode is the argmax of the logits *)

Lemma argmax_from_mono (f : R -> R) :
  (forall x y, x < y <-> f x < f y) ->
  forall row bi b i,
    argmax_from bi (f b) i (map f row) = argmax_from bi b i row.
Proof.
  intros Hf row. induction row as [| x row IH]; intros bi b i; simpl.
  - reflexivity.
  - destruct (Rlt_dec (f b) (f x)) as [H | H];
      destruct (Rlt_dec b x) as [H' | H'].
    + apply IH.
    + exfalso. apply H'. apply (proj2 (Hf b x)). exact H.
    + exfalso. apply H. apply (proj1 (Hf b x)). exact H'.
    + apply IH.
Qed.

Lemma argmax_mono (f : R -> R) (row : vec) :
  (forall x y, x < y <-> f x < f y) ->
  argmax (map f row) = argmax row.
Proof.
  intros Hf. destruct row as [| x row]; simpl; [reflexivity |].
  rewrite (argmax_from_mono f Hf). reflexivity.
Qed.

Lemma vsum_exp_pos (row : vec) : row <> [] -> 0 < vsum (map exp row).
Proof.
  assert (H0 : forall l, 0 <= vsum (map exp l)).
  { induction l as [| y l IHl]; simpl; [lra |].
    pose proof (exp_pos y). lra. }
  destruct row as [| x row]; [congruence |]. intros _. simpl.
  pose proof (exp_pos x). specialize (H0 row). lra.
Qed.

Lemma argmax_softmax (row : vec) :
  argmax (Categorical.softmax row) = argmax row.
Proof.
  destruct row as [| x row]; [reflexivity |].
  unfold Categorical.softmax.
  set (K := vsum (map exp (x :: row))).
  assert (HK : 0 < K) by (apply vsum_exp_pos; discriminate).
  apply (argmax_mono (fun l => exp l / K)).
  intros a b. split; intros H.
  - apply Rmult_lt_compat_r; [apply Rinv_0_lt_compat; exact HK |].
    apply exp_increasing. exact H.
  - apply exp_lt_inv.
    apply (Rmult_lt_reg_r (/ K)); [apply Rinv_0_lt_compat; exact HK |].
    exact H.
Qed.

Lemma argmax_normalise (row : vec) :
  argmax (Categorical.normalise row) = argmax row.
Proof.
  unfold Categorical.normalise.
  apply (argmax_mono (fun l => l - Categorical.logsumexp row)).
  intros a b. lra.
Qed.

Lemma mapM_ext {A B : Type} (f g : A -> result B) (l : list A) :
  (forall a, f a = g a) -> mapM f l = mapM g l.
Proof.
  intros H. induction l as [| a l IH]; simpl; [reflexivity |].
  rewrite H, IH. reflexivity.
Qed.

Lemma mapM_map {A B C : Type} (f : A -> B) (g : B -> result C) (l : list A) :
  mapM g (map f l) = mapM (fun a => g (f a)) l.
Proof.
  induction l as [| a l IH]; simpl; [reflexivity |].
  rewrite IH. reflexivity.
Qed.

(** The mode of a categorical distribution is the row-wise argmax of the
    logits it was built from. *)
Lemma categorical_mode_logits (raw : matrix) :
  argmax_dim1 (Categorical.probs (Categorical.init raw)) = argmax_dim1 raw.
Proof.
  unfold argmax_dim1, Categorical.probs, Categorical.init. simpl.
  rewrite !mapM_map.
  rewrite (mapM_ext _ argmax); [reflexivity |].
  intros row. rewrite argmax_softmax. apply argmax_normalise.
Qed.

(** What a successful bind of the masked categorical distribution leaves in
    the instance. *)
Lemma limited_actions_bind_inv
    (self self' : CategoricalDistributionLimitedActions.t)
    (logits : matrix) (obs : tensor R) :
  CategoricalDistributionLimitedActions.proba_distribution self logits (Some obs)
    = Ok self' ->
  exists lo v new,
    matrix_min logits = Ok lo
    /\ v = (if Rle_dec (- 10) (lo - 10) then - 10 else lo - 10)
    /\ masked_fill logits
         (tmap (fun x => Rltb 0 x)
               (CategoricalDistributionLimitedActions._get_invalid_actions_layer self obs))
         v = Ok new
    /\ CategoricalDistributionLimitedActions._original_action_logits self' = Some logits
    /\ CategoricalDistributionLimitedActions._invalid_actions self'
       = Some (tmap (fun x => Rltb 0 x)
                 (CategoricalDistributionLimitedActions._get_invalid_actions_layer self obs))
    /\ CategoricalDistributionLimitedActions._invalid_logit_value self' = Some v
    /\ CategoricalDistributionLimitedActions._new_action_logits self' = Some new
    /\ CategoricalDistributionLimitedActions.distribution self'
       = Some (Categorical.init new).
Proof.
  unfold CategoricalDistributionLimitedActions.proba_distribution. intros H.
  apply bind_ok in H. destruct H as [v [Hv H]].
  apply bind_ok in H. destruct H as [new [Hnew H]].
  injection H as <-. simpl.
  unfold CategoricalDistributionLimitedActions.invalid_logit_value in Hv.
  apply bind_ok in Hv. destruct Hv as [lo [Hlo Hv]].
  injection Hv as Hv.
  exists lo, v, new. repeat split; try assumption; try reflexivity.
  symmetry. exact Hv.
Qed.

Lemma limited_actions_bind_123
    (self : CategoricalDistributionLimitedActions.t) (obs : tensor R) :
  CategoricalDistributionLimitedActions._get_invalid_actions_layer self obs
    = T2 [[0; 1; 0]] ->
  CategoricalDistributionLimitedActions.proba_distribution self [[1; 2; 3]] (Some obs)
  = Ok (bound_123 self).
Proof.
  intros HF.
  assert (Hmin : matrix_min [[1; 2; 3]] = Ok 1).
  { unfold matrix_min. simpl. f_equal. unfold Rmin.
    repeat (destruct (Rle_dec _ _)); lra. }
  assert (Hv : CategoricalDistributionLimitedActions.invalid_logit_value [[1; 2; 3]]
               = Ok (- 10)).
  { unfold CategoricalDistributionLimitedActions.invalid_logit_value.
    rewrite Hmin. simpl. destruct (Rle_dec (- 10) (1 - 10)); [reflexivity | lra]. }
  assert (Hfill : masked_fill [[1; 2; 3]]
                    (tmap (fun x => Rltb 0 x) (T2 [[0; 1; 0]])) (- 10)
                  = Ok [[1; - 10; 3]]).
  { simpl.
    assert (E0 : Rltb 0 0 = false) by (apply Rltb_false; lra).
    assert (E1 : Rltb 0 1 = true) by (apply Rltb_true; lra).
    rewrite E0, E1. reflexivity. }
  unfold CategoricalDistributionLimitedActions.proba_distribution.
  rewrite HF, Hv. cbn [bind]. rewrite Hfill. cbn [bind]. reflexivity.
Qed.

(** C2.  On every successful bind of the masked categorical distribution, with
    [lo] the smallest raw logit: the invalid logit value is [lo - 10] when that
    is below [-10] and exactly [-10] otherwise; a logit at a flagged position
    becomes this value and every other logit is kept.  For the one-row batch
    [[1, 2, 3]] with only index 1 flagged the adjusted logits are
    [[1, -10, 3]] and [mode()] is index 2. *)
Theorem limited_actions_invalid_logit_value :
  (forall (self self' : CategoricalDistributionLimitedActions.t)
          (logits : matrix) (obs : tensor R) (F : matrix),
      CategoricalDistributionLimitedActions.proba_distribution self logits (Some obs)
        = Ok self' ->
      CategoricalDistributionLimitedActions._get_invalid_actions_layer self obs = T2 F ->
      exists lo v new,
        matrix_min logits = Ok lo
        /\ In lo (concat logits)
        /\ (forall x, In x (concat logits) -> lo <= x)
        /\ CategoricalDistributionLimitedActions._invalid_logit_value self' = Some v
        /\ (lo - 10 < - 10 -> v = lo - 10)
        /\ (- 10 <= lo - 10 -> v = - 10)
        /\ CategoricalDistributionLimitedActions._new_action_logits self' = Some new
        /\ CategoricalDistributionLimitedActions.distribution self'
           = Some (Categorical.init new)
        /\ length new = length logits
        /\ forall i j x l,
             entry F i j = Some x -> entry logits i j = Some l ->
             entry new i j = Some (if Rltb 0 x then v else l))
  /\ (forall (self : CategoricalDistributionLimitedActions.t) (obs : tensor R),
         CategoricalDistributionLimitedActions._get_invalid_actions_layer self obs
           = T2 [[0; 1; 0]] ->
         exists self',
           CategoricalDistributionLimitedActions.proba_distribution
             self [[1; 2; 3]] (Some obs) = Ok self'
           /\ CategoricalDistributionLimitedActions._invalid_logit_value self'
              = Some (- 10)
           /\ CategoricalDistributionLimitedActions._new_action_logits self'
              = Some [[1; - 10; 3]]
           /\ CategoricalDistributionLimitedActions.mode self' = Ok (T1 [INR 2])).
Proof.
  split.
  - intros self self' logits obs F H HF.
    destruct (limited_actions_bind_inv _ _ _ _ H)
      as [lo [v [new [Hlo [Hv [Hfill [_ [_ [Hval [Hnew Hdist]]]]]]]]]].
    rewrite HF in Hfill. simpl in Hfill.
    destruct (matrix_min_spec _ _ Hlo) as [Hin Hmin].
    destruct (masked_fill_T2_entry _ _ _ _ Hfill) as [Hlen Hentry].
    exists lo, v, new.
    split; [exact Hlo |]. split; [exact Hin |]. split; [exact Hmin |].
    split; [exact Hval |].
    split; [| split].
    + intros Hlt. rewrite Hv. destruct (Rle_dec (- 10) (lo - 10)); [lra | reflexivity].
    + intros Hge. rewrite Hv. destruct (Rle_dec (- 10) (lo - 10)); [reflexivity | lra].
    + split; [exact Hnew |]. split; [exact Hdist |]. split; [exact Hlen |].
      intros i j x l Hx Hl. apply Hentry; [| exact Hl].
      rewrite entry_map, Hx. reflexivity.
  - intros self obs HF.
    exists (bound_123 self).
    split; [apply limited_actions_bind_123; exact HF |].
    split; [reflexivity |]. split; [reflexivity |].
    unfold CategoricalDistributionLimitedActions.mode. simpl getattr. simpl bind.
    rewrite categorical_mode_logits.
    unfold argmax_dim1. simpl.
    destruct (Rlt_dec 1 (- 10)) as [H1 | H1]; [lra |].
    destruct (Rlt_dec 1 3) as [H2 | H2]; [reflexivity | lra].
Qed.

Lemma masked_fill_T2_defined (logits new : matrix) (flags : list (list bool))
    (v : R) (i j : nat) (b : bool) :
  masked_fill logits (T2 flags) v = Ok new ->
  entry flags i j = Some b ->
  exists l, entry logits i j = Some l.
Proof.
  unfold masked_fill. intros H Hb. unfold entry in *.
  destruct (nth_error flags i) as [brow |] eqn:Ef; [| discriminate Hb].
  destruct (zipM_length _ _ _ _ _ H) as [H1 H2].
  assert (Hi : (i < length logits)%nat).
  { rewrite H1, <- H2. apply nth_error_Some. congruence. }
  destruct (nth_error logits i) as [row |] eqn:El;
    [| apply nth_error_Some in Hi; contradiction].
  destruct (zipM_nth _ _ _ _ _ H i row brow El Ef) as [nrow [_ Hrow]].
  destruct (zipM_length _ _ _ _ _ Hrow) as [H3 H4].
  assert (Hj : (j < length row)%nat).
  { rewrite H3, <- H4. apply nth_error_Some. congruence. }
  destruct (nth_error row j) as [l |] eqn:Erow;
    [| apply nth_error_Some in Hj; contradiction].
  exists l. reflexivity.
Qed.

(** C9.  In the bind of the masked categorical distribution a position is
    flagged invalid exactly when the output of the masking layer there is
    strictly greater than 0; where the output is exactly 0 the action stays
    valid and its logit is the raw one. *)
Theorem limited_actions_flag_iff_positive
    (self self' : CategoricalDistributionLimitedActions.t)
    (logits : matrix) (obs : tensor R) (F : matrix) :
  CategoricalDistributionLimitedActions.proba_distribution self logits (Some obs)
    = Ok self' ->
  CategoricalDistributionLimitedActions._get_invalid_actions_layer self obs = T2 F ->
  exists flags new,
    CategoricalDistributionLimitedActions._invalid_actions self' = Some (T2 flags)
    /\ CategoricalDistributionLimitedActions._new_action_logits self' = Some new
    /\ forall i j x,
         entry F i j = Some x ->
         (entry flags i j = Some true <-> 0 < x)
         /\ (entry flags i j = Some false <-> x <= 0)
         /\ (x = 0 ->
             entry flags i j = Some false
             /\ exists l, entry logits i j = Some l /\ entry new i j = Some l).
Proof.
  intros H HF.
  destruct (limited_actions_bind_inv _ _ _ _ H)
    as [lo [v [new [_ [_ [Hfill [_ [Hflags [_ [Hnew _]]]]]]]]]].
  rewrite HF in Hfill, Hflags. simpl in Hfill, Hflags.
  exists (map (map (fun x => Rltb 0 x)) F), new.
  split; [exact Hflags |]. split; [exact Hnew |].
  intros i j x Hx.
  assert (Hb : entry (map (map (fun x => Rltb 0 x)) F) i j = Some (Rltb 0 x)).
  { rewrite entry_map, Hx. reflexivity. }
  rewrite Hb. split; [| split].
  - split; intros E.
    + apply Rltb_true. congruence.
    + f_equal. apply Rltb_true. exact E.
  - split; intros E.
    + assert (E' : Rltb 0 x = false) by congruence.
      apply Rltb_false in E'. lra.
    + f_equal. apply Rltb_false. lra.
  - intros ->.
    assert (E0 : Rltb 0 0 = false) by (apply Rltb_false; lra).
    split; [f_equal; exact E0 |].
    destruct (masked_fill_T2_defined _ _ _ _ _ _ _ Hfill Hb) as [l Hl].
    exists l. split; [exact Hl |].
    destruct (masked_fill_T2_entry _ _ _ _ Hfill) as [_ Hentry].
    rewrite (Hentry i j _ l Hb Hl), E0. reflexivity.
Qed.

Lemma entry_in_concat {A : Type} (m : list (list A)) (i j : nat) (x : A) :
  entry m i j = Some x -> In x (concat m).
Proof.
  unfold entry. destruct (nth_error m i) as [row |] eqn:E; [| discriminate].
  intros H. apply in_concat. exists row. split.
  - eapply nth_error_In. exact E.
  - eapply nth_error_In. exact H.
Qed.



(** The variant the factory never returns keeps two distributions: it draws
    from the masked logits and evaluates [log_prob] on the raw ones. *)
Lemma manual_variant_two_distributions
    (s s' : CategoricalDistributionLimitedActions_Manual.t)
    (logits : matrix) (obs : option (tensor R)) :
  CategoricalDistributionLimitedActions_Manual.proba_distribution s logits obs = Ok s' ->
  CategoricalDistributionLimitedActions_Manual.distribution s'
    = Some (Categorical.init logits)
  /\ forall a,
       CategoricalDistributionLimitedActions_Manual.log_prob s' a
       = Categorical.log_prob (Categorical.init logits) a.
Proof.
  intros H. destruct obs as [o |]; [| discriminate H].
  unfold CategoricalDistributionLimitedActions_Manual.proba_distribution in H.
  repeat (apply bind_ok in H; destruct H as [? [_ H]]).
  injection H as <-. split; reflexivity.
Qed.

Lemma factory_never_manual (sp : space) (use_sde : bool)
    (dist_kwargs : option kwargs) (d : Distribution) :
  make_proba_distribution sp use_sde dist_kwargs = Ok d ->
  class_of d <> cLimitedActions_Manual /\ class_of d <> cCategorical
  /\ class_of d <> cSquashedDiagGaussian.
Proof.
  unfold make_proba_distribution.
  set (kw := match dist_kwargs with Some k => k | None => [] end).
  destruct sp; intros H.
  - destruct use_sde.
    + apply bind_ok in H. destruct H as [? [_ H]]. injection H as <-.
      repeat split; discriminate.
    + apply bind_ok in H. destruct H as [? [_ H]]. injection H as <-.
      repeat split; discriminate.
  - destruct (if negb (is_none (get kw "get_valid_actions")) then true
              else truthy (get kw "get_invalid_actions_layer")).
    + repeat (apply bind_ok in H; destruct H as [? [_ H]]).
      injection H as <-. repeat split; discriminate.
    + apply bind_ok in H. destruct H as [? [_ H]].
      apply bind_ok in H. destruct H as [? [Hs _]]. discriminate Hs.
  - apply bind_ok in H. destruct H as [? [_ H]]. injection H as <-.
    repeat split; discriminate.
  - apply bind_ok in H. destruct H as [? [_ H]]. injection H as <-.
    repeat split; discriminate.
  - discriminate H.
Qed.

(** ** Queries before any bind *)

Lemma limited_actions_init_unbound (n : nat) (obj : pyvalue)
    (s : CategoricalDistributionLimitedActions.t) :
  CategoricalDistributionLimitedActions.init n obj = Ok s ->
  CategoricalDistributionLimitedActions.distribution s = None.
Proof.
  unfold CategoricalDistributionLimitedActions.init.
  destruct (is_none obj); [discriminate |]. intros H.
  apply bind_ok in H. destruct H as [l [_ H]]. injection H as <-. reflexivity.
Qed.

Lemma manual_init_unbound (n : nat) (f : pyvalue)
    (s : CategoricalDistributionLimitedActions_Manual.t) :
  CategoricalDistributionLimitedActions_Manual.init n f = Ok s ->
  CategoricalDistributionLimitedActions_Manual.distribution s = None
  /\ CategoricalDistributionLimitedActions_Manual.sample_distribution s = None.
Proof.
  unfold CategoricalDistributionLimitedActions_Manual.init.
  destruct (is_none f); [discriminate |]. intros H.
  injection H as <-. split; reflexivity.
Qed.




(** ** kl_divergence *)

Lemma kl_divergence_class_mismatch (dist_true dist_pred : Distribution) :
  class_of dist_true <> class_of dist_pred ->
  kl_divergence dist_true dist_pred
  = Raise (AssertionError "Error: input distributions should be the same type").
Proof.
  intros H. unfold kl_divergence.
  destruct (class_eq_dec (class_of dist_true) (class_of dist_pred));
    [contradiction | reflexivity].
Qed.

(** [np.allclose] lets two cardinality lists of different lengths through
    when one of them has a single entry, and two different cardinalities when
    they are large. *)
Lemma allclose_broadcasts : allclose [3%nat] [3%nat; 3%nat] = Ok true.
Proof. vm_compute. reflexivity. Qed.

Lemma allclose_tolerates :
  allclose [(100 * 1000)%nat] [(100 * 1000 + 1)%nat] = Ok true.
Proof. vm_compute. reflexivity. Qed.

Lemma isclose_refl (a : nat) : isclose a a = true.
Proof. unfold isclose. apply Z.leb_le. lia. Qed.

Lemma allclose_refl (dims : list nat) : allclose dims dims = Ok true.
Proof.
  unfold allclose.
  rewrite (bcast_pure _ isclose dims dims eq_refl). cbn [bind]. f_equal.
  unfold zip_with. induction dims as [| a dims IH]; simpl; [reflexivity |].
  rewrite isclose_refl. exact IH.
Qed.

(** With equal cardinality lists the result is the sum over the sub-spaces
    of the categorical divergences. *)
Lemma kl_divergence_multicategorical (dims : list nat)
    (ps qs : list Categorical.t) :
  kl_divergence
    (MultiCategorical (MultiCategoricalDistribution.mk dims (Some ps)))
    (MultiCategorical (MultiCategoricalDistribution.mk dims (Some qs)))
  = (kls <- mapM (fun pq => Categorical.kl (fst pq) (snd pq)) (combine ps qs) ;;
     st <- stack_dim1 kls ;;
     tensor_sum_dim1 st).
Proof.
  unfold kl_divergence. simpl class_of.
  destruct (class_eq_dec cMultiCategorical cMultiCategorical); [| congruence].
  cbn [assert bind MultiCategoricalDistribution.action_dims
       MultiCategoricalDistribution.distribution].
  rewrite allclose_refl. reflexivity.
Qed.

(** Every other variant hands its elementary distributions to torch. *)
Lemma kl_divergence_delegates (dist_true dist_pred : Distribution) :
  class_of dist_true = class_of dist_pred ->
  class_of dist_pred <> cMultiCategorical ->
  kl_divergence dist_true dist_pred
  = th_kl_divergence (distribution_of dist_true) (distribution_of dist_pred).
Proof.
  intros Hc Hm. unfold kl_divergence.
  destruct (class_eq_dec (class_of dist_true) (class_of dist_pred));
    [| contradiction].
  cbn [assert bind].
  destruct dist_pred; try reflexivity.
  exfalso. apply Hm. reflexivity.
Qed.

(** C5.  The code at the failing input: the true distribution has the
    sub-space cardinalities [[3, 3]], the predicted one [[3]].  The lists
    differ, and [kl_divergence] raises nothing: it returns the divergence of
    the first sub-space alone. *)
Theorem kl_divergence_different_cardinalities_returns :
  exists t p,
    MultiCategoricalDistribution.proba_distribution
      (MultiCategoricalDistribution.init [3%nat; 3%nat]) [[0; 0; 0; 0; 0; 0]] = Ok t
    /\ MultiCategoricalDistribution.proba_distribution
         (MultiCategoricalDistribution.init [3%nat]) [[0; 0; 0]] = Ok p
    /\ MultiCategoricalDistribution.action_dims t
       <> MultiCategoricalDistribution.action_dims p
    /\ kl_divergence (MultiCategorical t) (MultiCategorical p) = Ok (T1 [0]).
Proof.
  exists (MultiCategoricalDistribution.mk [3%nat; 3%nat]
            (Some (map Categorical.init
                     (split_cols_aux [3%nat; 3%nat] [[0; 0; 0; 0; 0; 0]])))).
  exists (MultiCategoricalDistribution.mk [3%nat]
            (Some (map Categorical.init (split_cols_aux [3%nat] [[0; 0; 0]])))).
  split; [reflexivity |]. split; [reflexivity |].
  split; [discriminate |].
  unfold kl_divergence. simpl class_of.
  destruct (class_eq_dec cMultiCategorical cMultiCategorical); [| congruence].
  cbn [assert bind].
  cbn [MultiCategoricalDistribution.action_dims MultiCategoricalDistribution.distribution].
  rewrite allclose_broadcasts.
  cbn [assert bind iter].
  simpl.
  do 2 f_equal. f_equal.
  unfold Rdiv. ring.
Qed.

(** ** The expln transform of gSDE *)

Lemma Rleb_true (x y : R) : Rleb x y = true <-> x <= y.
Proof.
  unfold Rleb. destruct (Rle_dec x y); split; intros; try assumption;
    try reflexivity; try discriminate; contradiction.
Qed.

Lemma Rleb_false (x y : R) : Rleb x y = false <-> ~ x <= y.
Proof.
  unfold Rleb. destruct (Rle_dec x y); split; intros; try assumption;
    try reflexivity; try discriminate; contradiction.
Qed.

Lemma ln_le_compat (x y : R) : 0 < x -> x <= y -> ln x <= ln y.
Proof.
  intros Hx [Hlt | ->]; [| lra].
  left. apply ln_increasing; assumption.
Qed.

Lemma expln_nonpos (epsilon l : R) :
  l <= 0 -> StateDependentNoiseDistribution.expln epsilon l = exp l.
Proof.
  intros H. unfold StateDependentNoiseDistribution.expln,
    StateDependentNoiseDistribution.safe_log_std.
  assert (E1 : Rleb l 0 = true) by (apply Rleb_true; exact H).
  assert (E2 : Rltb 0 l = false) by (apply Rltb_false; lra).
  rewrite E1, E2. simpl. ring.
Qed.

Lemma expln_pos (epsilon l : R) :
  0 < l ->
  StateDependentNoiseDistribution.expln epsilon l = log1p (l + epsilon) + 1.
Proof.
  intros H. unfold StateDependentNoiseDistribution.expln,
    StateDependentNoiseDistribution.safe_log_std.
  assert (E1 : Rleb l 0 = false) by (apply Rleb_false; lra).
  assert (E2 : Rltb 0 l = true) by (apply Rltb_true; exact H).
  rewrite E1, E2. simpl. replace (l * 1 + epsilon) with (l + epsilon) by ring.
  ring.
Qed.

Lemma default_epsilon_pos : 0 < default_epsilon.
Proof.
  unfold default_epsilon. apply Rdiv_lt_0_compat; [lra |].
  apply pow_lt. lra.
Qed.

(** The claim as first stated fails: with the default [epsilon] the entry
    [log_std = 1] is not mapped to [log1p(1) + 1]. *)
Lemma get_std_expln_not_log1p :
  StateDependentNoiseDistribution.get_std
    (StateDependentNoiseDistribution.init 1 true true false false default_epsilon)
    (T2 [[1]])
  <> Ok (T2 [[log1p 1 + 1]]).
Proof.
  unfold StateDependentNoiseDistribution.get_std. simpl.
  intros H. injection H as H.
  rewrite expln_pos in H by lra.
  unfold log1p in H.
  pose proof default_epsilon_pos as He.
  assert (Hlt : ln (1 + 1) < ln (1 + (1 + default_epsilon))).
  { apply ln_increasing; lra. }
  lra.
Qed.

(** ** The inverse of the tanh bijector *)

Lemma tmap_tmap {A B C : Type} (f : A -> B) (g : B -> C) (t : tensor A) :
  tmap g (tmap f t) = tmap (fun x => g (f x)) t.
Proof.
  destruct t as [x | v | m | c]; simpl; f_equal.
  - apply map_map.
  - rewrite map_map. apply map_ext. intros r. apply map_map.
  - rewrite map_map. apply map_ext. intros m.
    rewrite map_map. apply map_ext. intros r. apply map_map.
Qed.

Lemma finfo_eps_bounds (dt : dtype) : 0 < finfo_eps dt < 1.
Proof.
  assert (H : forall k : nat, (0 < k)%nat -> 0 < / 2 ^ k < 1).
  { intros k Hk.
    assert (H1 : 1 < 2 ^ k).
    { apply Rlt_pow_R1; [lra | exact Hk]. }
    split.
    - apply Rinv_0_lt_compat. lra.
    - rewrite <- Rinv_1. apply Rinv_lt_contravar; lra. }
  destruct dt; unfold finfo_eps; apply H; lia.
Qed.

Lemma clamp_bounds (lo hi x : R) :
  lo <= hi -> lo <= clamp lo hi x <= hi.
Proof.
  intros H. unfold clamp, Rmin, Rmax.
  destruct (Rle_dec x lo); destruct (Rle_dec _ hi); lra.
Qed.

Lemma clamp_inside (lo hi x : R) :
  lo <= x <= hi -> clamp lo hi x = x.
Proof.
  intros H. unfold clamp, Rmin, Rmax.
  destruct (Rle_dec x lo); destruct (Rle_dec _ hi); lra.
Qed.

(** The form the source uses is the inverse hyperbolic tangent. *)
Lemma tanh_atanh (x : R) :
  - 1 < x < 1 -> tanh ((1 / 2) * (log1p x - log1p (- x))) = x.
Proof.
  intros Hx. unfold log1p.
  set (a := 1 / 2 * (ln (1 + x) - ln (1 + - x))).
  assert (HE : 0 < exp a) by apply exp_pos.
  assert (HEE : exp a * exp a = (1 + x) / (1 - x)).
  { rewrite <- exp_plus.
    replace (a + a) with (ln (1 + x) + - ln (1 + - x)) by (unfold a; field).
    rewrite exp_plus, exp_Ropp, !exp_ln by lra.
    unfold Rdiv, Rminus. reflexivity. }
  unfold tanh, sinh, cosh. rewrite exp_Ropp.
  generalize dependent (exp a). clear a. intros E HE HEE.
  assert (Hx' : x = (E * E - 1) / (E * E + 1)).
  { rewrite HEE. field. lra. }
  rewrite Hx'. field. split; nra.
Qed.


(** *** The floating types near 1 *)






(** With a [log1p] that keeps the sign of a small argument, the form of the
    source gives a result that is not zero at an argument so small that
    [1 + x] and [1 - x] round to 1, where the form of the docstring gives
    exactly zero. *)
Lemma atanh_naive_cancels (rnd lg lp : R -> R) (v : R) :
  rnd (1 + v) = 1 -> rnd (1 - v) = 1 -> lg 1 = 0 ->
  0 < lp v -> lp (- v) < 0 ->
  TanhBijector.atanh_naive_with rnd lg (T0 v) = T0 0
  /\ exists a, TanhBijector.atanh_with lp (T0 v) = T0 a /\ 0 < a.
Proof.
  intros H1 H2 Hlg Hp Hn. split.
  - unfold TanhBijector.atanh_naive_with. simpl. rewrite H1, H2.
    replace (1 / 1) with 1 by field. rewrite Hlg. f_equal. ring.
  - eexists. split; [reflexivity | lra].
Qed.


(** ** The noise of gSDE *)

Lemma all_some_singletons {A : Type} (rows : list A) :
  all_some (map single (map (fun x => [x]) rows)) = Some rows.
Proof.
  induction rows as [| x rows IH]; simpl; [reflexivity |].
  rewrite IH. reflexivity.
Qed.

Lemma bmm_unsqueezed (e : exn) (L : matrix) (Ms : list matrix) :
  zipM e matmat (map (fun r => [r]) L) Ms
  = (rows <- zipM e vecmat L Ms ;; Ok (map (fun x => [x]) rows)).
Proof.
  revert Ms. induction L as [| row L IH]; intros [| Mi Ms]; simpl;
    try reflexivity.
  rewrite IH. unfold matmat. simpl.
  destruct (vecmat row Mi) as [out | err]; simpl; [| reflexivity].
  destruct (zipM e vecmat L Ms); reflexivity.
Qed.

Lemma mapM_returns {A B : Type} (f : A -> result B) (l : list A) :
  (forall a, In a l -> returns (f a)) -> returns (mapM f l).
Proof.
  induction l as [| a l IH]; intros H; simpl.
  - eexists. reflexivity.
  - destruct (H a (or_introl eq_refl)) as [b ->].
    destruct IH as [bs ->]; [intros; apply H; right; assumption |].
    eexists. reflexivity.
Qed.

Lemma zipM_returns {A B C : Type} (e : exn) (f : A -> B -> result C)
    (u : list A) (v : list B) :
  length u = length v ->
  (forall a b, In a u -> In b v -> returns (f a b)) ->
  returns (zipM e f u v).
Proof.
  revert v. induction u as [| a u IH]; intros [| b v] Hlen H; simpl in *;
    try discriminate Hlen.
  - eexists. reflexivity.
  - destruct (H a b (or_introl eq_refl) (or_introl eq_refl)) as [c ->].
    destruct (IH v) as [cs ->];
      [congruence | intros; apply H; right; assumption |].
    eexists. reflexivity.
Qed.

(** The two branches of [get_noise] on a batch of latent features. *)
Lemma get_noise_branches (self : StateDependentNoiseDistribution.t)
    (L M : matrix) (Ms : list matrix) :
  StateDependentNoiseDistribution.exploration_mat self = Some (T2 M) ->
  StateDependentNoiseDistribution.exploration_matrices self = Some (T3 Ms) ->
  StateDependentNoiseDistribution.get_noise self (Some (T2 L))
  = if ((length L =? 1) || negb (length L =? length Ms))%nat
    then rows <- mapM (fun row => vecmat row M) L ;; Ok (T2 rows)
    else rows <- zipM (RuntimeError "bmm(): batch sizes differ") vecmat L Ms ;;
         Ok (T2 rows).
Proof.
  intros HM HMs. unfold StateDependentNoiseDistribution.get_noise.
  assert (E : (if StateDependentNoiseDistribution.learn_features self
               then Ok (Some (T2 L))
               else l <- getattr (Some (T2 L)) "detach" ;; Ok (Some l))
              = Ok (Some (T2 L))).
  { destruct (StateDependentNoiseDistribution.learn_features self); reflexivity. }
  rewrite E, HM, HMs. cbn [bind py_len tensor_len as_tensor].
  destruct (length L =? 1)%nat eqn:E1; cbn [bind orb].
  - unfold mm, matmat. destruct (mapM _ L); reflexivity.
  - destruct (length L =? length Ms)%nat eqn:E2; cbn [bind negb].
    + cbn [unsqueeze_dim1 bind bmm]. rewrite bmm_unsqueezed.
      destruct (zipM _ vecmat L Ms) as [rows | err]; cbn [bind]; [| reflexivity].
      unfold squeeze_dim1. rewrite all_some_singletons. reflexivity.
    + unfold mm, matmat. destruct (mapM _ L); reflexivity.
Qed.

(** [vecmat] is the product of a row with a matrix: entry [j] of the result
    is the sum over [k] of [row[k] * m[k][j]]. *)
Lemma vadd_length (u v : list R) :
  length u = length v -> length (vadd u v) = length u.
Proof.
  revert v. induction u as [| x u IH]; intros [| y v] H; simpl in *;
    try discriminate H; try reflexivity.
  f_equal. apply IH. congruence.
Qed.

Lemma vadd_nth (u v : list R) (j : nat) :
  length u = length v -> nth j (vadd u v) 0 = nth j u 0 + nth j v 0.
Proof.
  revert v j. induction u as [| x u IH]; intros [| y v] j H; simpl in *;
    try discriminate H.
  - destruct j; lra.
  - destruct j as [| j]; [reflexivity |]. apply IH. congruence.
Qed.

Lemma fold_left_vadd_nth (rs : list (list R)) (acc : list R) (j : nat) :
  (forall r, In r rs -> length r = length acc) ->
  nth j (fold_left vadd rs acc) 0
  = nth j acc 0 + vsum (map (fun r => nth j r 0) rs).
Proof.
  revert acc. induction rs as [| r rs IH]; intros acc H; simpl.
  - lra.
  - assert (Hr : length acc = length r).
    { symmetry. apply H. left. reflexivity. }
    rewrite IH.
    + rewrite (vadd_nth acc r j Hr). lra.
    + intros r' Hin. rewrite (vadd_length acc r Hr).
      apply H. right. exact Hin.
Qed.

Lemma colsum_nth (m : list (list R)) (n j : nat) :
  (forall r, In r m -> length r = n) ->
  nth j (colsum m) 0 = vsum (map (fun r => nth j r 0) m).
Proof.
  intros H. destruct m as [| r rs]; simpl.
  - destruct j; reflexivity.
  - apply fold_left_vadd_nth. intros r' Hin.
    rewrite (H r' (or_intror Hin)), (H r (or_introl eq_refl)). reflexivity.
Qed.

Lemma scale_rows_spec (row : list R) (m : list (list R)) (n j : nat) :
  (forall r, In r m -> length r = n) ->
  (forall r, In r (scale_rows row m) -> length r = n)
  /\ map (fun r => nth j r 0) (scale_rows row m)
     = zip_with (fun x r => x * nth j r 0) row m.
Proof.
  revert m. induction row as [| x row IH]; intros [| r m] H; simpl;
    try (split; [intros ? [] | reflexivity]).
  destruct (IH m) as [H1 H2]; [intros; apply H; right; assumption |].
  split.
  - intros r' [<- | Hin].
    + rewrite length_map. apply H. left. reflexivity.
    + apply H1. exact Hin.
  - unfold zip_with in *. simpl. rewrite H2. f_equal.
    replace 0 with (x * 0) at 1 by ring.
    apply (map_nth (Rmult x)).
Qed.

Lemma vecmat_entry (row out : list R) (m : list (list R)) (n j : nat) :
  (forall r, In r m -> length r = n) ->
  vecmat row m = Ok out ->
  length row = length m
  /\ nth j out 0 = vsum (zip_with (fun x r => x * nth j r 0) row m).
Proof.
  intros Hm. unfold vecmat.
  destruct (length row =? length m)%nat eqn:E; [| discriminate].
  intros H. injection H as <-. apply Nat.eqb_eq in E.
  split; [exact E |].
  destruct (scale_rows_spec row m n j Hm) as [H1 H2].
  rewrite (colsum_nth _ n j H1), H2. reflexivity.
Qed.

(** ** The theorems at concrete inputs *)

Lemma limited_actions_invalid_logit_value_witness :
  exists self',
    CategoricalDistributionLimitedActions.proba_distribution
      example_limited [[1; 2; 3]] (Some (T2 [[0]])) = Ok self'
    /\ CategoricalDistributionLimitedActions._invalid_logit_value self' = Some (- 10)
    /\ CategoricalDistributionLimitedActions._new_action_logits self'
       = Some [[1; - 10; 3]]
    /\ CategoricalDistributionLimitedActions.mode self' = Ok (T1 [INR 2]).
Proof.
  apply (proj2 limited_actions_invalid_logit_value example_limited (T2 [[0]])).
  reflexivity.
Defined.




Lemma limited_actions_flag_iff_positive_witness :
  exists flags new,
    CategoricalDistributionLimitedActions._invalid_actions (bound_123 example_limited)
      = Some (T2 flags)
    /\ CategoricalDistributionLimitedActions._new_action_logits
         (bound_123 example_limited) = Some new
    /\ forall i j x,
         entry [[0; 1; 0]] i j = Some x ->
         (entry flags i j = Some true <-> 0 < x)
         /\ (entry flags i j = Some false <-> x <= 0)
         /\ (x = 0 ->
             entry flags i j = Some false
             /\ exists l, entry [[1; 2; 3]] i j = Some l /\ entry new i j = Some l).
Proof.
  apply (limited_actions_flag_iff_positive example_limited
           (bound_123 example_limited) [[1; 2; 3]] (T2 [[0]]) [[0; 1; 0]]).
  - apply limited_actions_bind_123. reflexivity.
  - reflexivity.
Defined.

Lemma sum_independent_dims_collapses_rank1_witness :
  exists self' d lp,
    DiagGaussianDistribution.proba_distribution
      (DiagGaussianDistribution.init 2) (T1 [0; 0]) (T1 [0; 0]) = Ok self'
    /\ DiagGaussianDistribution.distribution self' = Some d
    /\ Normal.log_prob d (T1 [0; 0]) = Ok (T1 lp)
    /\ length lp = length [0; 0]
    /\ DiagGaussianDistribution.log_prob self' (T1 [0; 0]) = Ok (T0 (vsum lp)).
Proof.
  apply (proj2 (proj2 (proj2 (proj2 sum_independent_dims_collapses_rank1)))
           (DiagGaussianDistribution.init 2) [0; 0] [0; 0] [0; 0]);
    reflexivity.
Defined.

(** * Further properties of the code *)

(** ** The factory, every branch *)

Lemma bind_sde_kwargs_keys (d : kwargs) (a a' : sde_args) :
  bind_sde_kwargs d a = Ok a' ->
  forall k v, In (k, v) d -> sde_keyword k = true.
Proof.
  revert a. induction d as [| [k0 v0] d IH]; intros a H k v Hin.
  - destruct Hin.
  - simpl in H. apply bind_ok in H. destruct H as [a1 [H1 H]].
    destruct Hin as [Heq | Hin]; [| eapply IH; eassumption].
    injection Heq as -> ->. unfold sde_keyword.
    destruct (String.eqb k "full_std"); [reflexivity |].
    destruct (String.eqb k "use_expln"); [reflexivity |].
    destruct (String.eqb k "squash_output"); [reflexivity |].
    destruct (String.eqb k "learn_features"); [reflexivity |].
    destruct (String.eqb k "epsilon"); [reflexivity |].
    discriminate H1.
Qed.

Lemma no_kwargs_ok (d : kwargs) (u : unit) : no_kwargs d = Ok u -> d = [].
Proof. destruct d; [reflexivity | discriminate]. Qed.

(** X1.  Whatever the configuration, a distribution the factory returns is
    the variant of its action space, carries the dimensions of the space and
    is unbound: a Box gives a DiagGaussian (only with an empty configuration)
    or, with [use_sde], a gSDE instance whose keywords are all gSDE keywords
    and whose bijector, if any, has the epsilon of the instance; a Discrete
    space gives the masked categorical built on the configured layer class; a
    MultiDiscrete or MultiBinary space gives MultiCategorical or Bernoulli
    (only with an empty configuration); any other space gives nothing. *)
Theorem make_proba_distribution_returns (sp : space) (use_sde : bool)
    (dist_kwargs : option kwargs) (d : Distribution) :
  make_proba_distribution sp use_sde dist_kwargs = Ok d ->
  let kw := match dist_kwargs with Some k => k | None => [] end in
  fresh d
  /\ match sp with
     | Box dim =>
         if use_sde then
           exists s,
             d = StateDependentNoise s
             /\ StateDependentNoiseDistribution.action_dim s = dim
             /\ sde_unset s
             /\ (forall k v, In (k, v) kw -> sde_keyword k = true)
             /\ (forall b, StateDependentNoiseDistribution.bijector s = Some b ->
                   TanhBijector.epsilon b
                   = StateDependentNoiseDistribution.epsilon s)
         else d = DiagGaussian (DiagGaussianDistribution.init dim) /\ kw = []
     | Discrete n =>
         exists s make,
           d = LimitedActions s
           /\ dict_get kw "get_invalid_actions_layer" = Some (PyLayerClass make)
           /\ CategoricalDistributionLimitedActions.action_dim s = n
           /\ CategoricalDistributionLimitedActions._get_invalid_actions_layer s = make
           /\ CategoricalDistributionLimitedActions.distribution s = None
     | MultiDiscrete nvec =>
         d = MultiCategorical (MultiCategoricalDistribution.init nvec) /\ kw = []
     | MultiBinary n =>
         d = BernoulliDist (BernoulliDistribution.init n) /\ kw = []
     | OtherSpace _ => False
     end.
Proof.
  unfold make_proba_distribution.
  set (kw := match dist_kwargs with Some k => k | None => [] end).
  destruct sp as [dim | n | nvec | n | name]; intros H; cbn zeta.
  - destruct use_sde.
    + apply bind_ok in H. destruct H as [a [Ha H]]. injection H as <-.
      split; [apply fresh_StateDependentNoise |].
      eexists. split; [reflexivity |]. split; [reflexivity |].
      split; [repeat split |].
      split; [exact (bind_sde_kwargs_keys _ _ _ Ha) |].
      intros b Hb. unfold StateDependentNoiseDistribution.init in Hb.
      simpl in Hb. destruct (a_squash_output a); [| discriminate Hb].
      injection Hb as <-. reflexivity.
    + apply bind_ok in H. destruct H as [u [Hu H]]. injection H as <-.
      split; [apply fresh_DiagGaussian |].
      split; [reflexivity | exact (no_kwargs_ok _ _ Hu)].
  - destruct (if negb (is_none (get kw "get_valid_actions")) then true
              else truthy (get kw "get_invalid_actions_layer")).
    + apply bind_ok in H. destruct H as [obj [Hobj H]].
      apply bind_ok in H. destruct H as [u [_ H]].
      apply bind_ok in H. destruct H as [s [Hs H]]. injection H as <-.
      split; [exact (fresh_LimitedActions n obj s Hs) |].
      unfold getitem in Hobj.
      destruct (dict_get kw "get_invalid_actions_layer") as [v |] eqn:E;
        [| discriminate Hobj].
      injection Hobj as ->.
      unfold CategoricalDistributionLimitedActions.init in Hs.
      destruct (is_none obj); [discriminate Hs |].
      apply bind_ok in Hs. destruct Hs as [l [Hl Hs]]. injection Hs as <-.
      destruct obj; try discriminate Hl. injection Hl as ->.
      exists (CategoricalDistributionLimitedActions.mk
                n l (PyLayerClass l) None None None None None None), l.
      repeat split; reflexivity.
    + apply bind_ok in H. destruct H as [u [_ H]].
      apply bind_ok in H. destruct H as [s [Hs _]]. discriminate Hs.
  - apply bind_ok in H. destruct H as [u [Hu H]]. injection H as <-.
    split; [apply fresh_MultiCategorical |].
    split; [reflexivity | exact (no_kwargs_ok _ _ Hu)].
  - apply bind_ok in H. destruct H as [u [Hu H]]. injection H as <-.
    split; [apply fresh_Bernoulli |].
    split; [reflexivity | exact (no_kwargs_ok _ _ Hu)].
  - discriminate H.
Qed.

Lemma dict_get_in (d : kwargs) (k : string) (v : pyvalue) :
  dict_get d k = Some v -> In (k, v) d.
Proof.
  induction d as [| [k' v'] d IH]; simpl; [discriminate |].
  destruct (String.eqb k' k) eqn:E.
  - intros H. injection H as ->. apply String.eqb_eq in E. subst. left. reflexivity.
  - intros H. right. apply IH. exact H.
Qed.

Lemma delitem_keeps (d : kwargs) (k k' : string) (v : pyvalue) :
  In (k, v) d -> String.eqb k k' = false -> delitem d k' <> [].
Proof.
  intros Hin Hne Hnil.
  assert (H : In (k, v) (delitem d k')).
  { unfold delitem. apply filter_In. split; [exact Hin |]. simpl.
    rewrite Hne. reflexivity. }
  rewrite Hnil in H. destruct H.
Qed.

(** X2.  On a Discrete space a configuration whose [get_valid_actions] is not
    [None] never yields a distribution: without the key
    [get_invalid_actions_layer] the first masking branch raises KeyError, and
    with it the leftover [get_valid_actions] keyword is refused with a
    TypeError.  The branch that would read [get_valid_actions] is not
    reached. *)
Theorem make_proba_distribution_valid_actions_raises (n : nat) (use_sde : bool)
    (kw : kwargs) :
  is_none (get kw "get_valid_actions") = false ->
  (dict_get kw "get_invalid_actions_layer" = None ->
   make_proba_distribution (Discrete n) use_sde (Some kw)
   = Raise (KeyError "get_invalid_actions_layer"))
  /\ (dict_get kw "get_invalid_actions_layer" <> None ->
      make_proba_distribution (Discrete n) use_sde (Some kw)
      = Raise (TypeError "__init__() got an unexpected keyword argument"))
  /\ raises (make_proba_distribution (Discrete n) use_sde (Some kw)).
Proof.
  intros Hv. unfold make_proba_distribution. rewrite Hv. cbn [negb].
  assert (Hleft : no_kwargs (delitem kw "get_invalid_actions_layer")
                  = Raise (TypeError "__init__() got an unexpected keyword argument")).
  { unfold get in Hv.
    destruct (dict_get kw "get_valid_actions") as [v |] eqn:E; [| discriminate Hv].
    pose proof (delitem_keeps kw _ "get_invalid_actions_layer" v
                  (dict_get_in _ _ _ E) eq_refl) as Hne.
    destruct (delitem kw "get_invalid_actions_layer"); [congruence | reflexivity]. }
  unfold getitem.
  destruct (dict_get kw "get_invalid_actions_layer") as [obj |] eqn:E.
  - cbn [bind]. rewrite Hleft. cbn [bind].
    split; [discriminate |]. split; [reflexivity |]. eexists. reflexivity.
  - cbn [bind].
    split; [reflexivity |]. split; [congruence |]. eexists. reflexivity.
Qed.

(** ** The masked categorical distribution: when the bind succeeds *)

Lemma zipM_returns_iff {A B C : Type} (e : exn) (f : A -> B -> result C)
    (u : list A) (v : list B) :
  returns (zipM e f u v) <-> Forall2 (fun a b => returns (f a b)) u v.
Proof.
  revert v. induction u as [| a u IH]; intros [| b v]; simpl.
  - split; [constructor | eexists; reflexivity].
  - split; [intros [w H]; discriminate H | intros H; inversion H].
  - split; [intros [w H]; discriminate H | intros H; inversion H].
  - split.
    + intros [w H]. apply bind_ok in H. destruct H as [c [Hc H]].
      apply bind_ok in H. destruct H as [cs [Hcs _]].
      constructor; [exists c; exact Hc |].
      apply IH. exists cs. exact Hcs.
    + intros H. inversion H as [| ? ? ? ? [c Hc] Hrest]; subst.
      apply IH in Hrest. destruct Hrest as [cs Hcs].
      rewrite Hc, Hcs. eexists. reflexivity.
Qed.

Lemma zipM_pure_returns_iff {A B C : Type} (e : exn) (g : A -> B -> C)
    (u : list A) (v : list B) :
  returns (zipM e (fun a b => Ok (g a b)) u v) <-> length u = length v.
Proof.
  split.
  - intros [w H]. destruct (zipM_length _ _ _ _ _ H). congruence.
  - intros H. rewrite (zipM_pure e g u v H). eexists. reflexivity.
Qed.

Lemma masked_fill_T2_returns_iff (logits F : matrix) (g : R -> bool) (v : R) :
  returns (masked_fill logits (T2 (map (map g) F)) v)
  <-> Forall2 (fun (r f : list R) => length r = length f) logits F.
Proof.
  unfold masked_fill. rewrite zipM_returns_iff.
  revert F. induction logits as [| r logits IH]; intros [| f F]; simpl.
  - split; constructor.
  - split; intros H; inversion H.
  - split; intros H; inversion H.
  - split; intros H; inversion H as [| ? ? ? ? Hhd Htl]; subst; constructor.
    + apply zipM_pure_returns_iff in Hhd. rewrite length_map in Hhd. exact Hhd.
    + apply IH. exact Htl.
    + apply zipM_pure_returns_iff. rewrite length_map. exact Hhd.
    + apply IH. exact Htl.
Qed.

(** X3.  The bind of the masked categorical distribution raises an Exception
    without an observation and a RuntimeError on logits without entries,
    whatever the mask; with a mask of rank 2 it returns an instance exactly
    when the logits have an entry and the mask has the shape of the logits. *)
Theorem limited_actions_bind_returns_iff
    (self : CategoricalDistributionLimitedActions.t)
    (logits : matrix) (obs : tensor R) (F : matrix) :
  CategoricalDistributionLimitedActions._get_invalid_actions_layer self obs = T2 F ->
  CategoricalDistributionLimitedActions.proba_distribution self logits None
    = Raise (Exception "In get_valid_actions the observation is None")
  /\ (concat logits = [] ->
      CategoricalDistributionLimitedActions.proba_distribution self logits (Some obs)
      = Raise (RuntimeError "min(): cannot reduce a tensor with no elements"))
  /\ (returns (CategoricalDistributionLimitedActions.proba_distribution
                 self logits (Some obs))
      <-> concat logits <> []
          /\ Forall2 (fun (r f : list R) => length r = length f) logits F).
Proof.
  intros HF. split; [reflexivity |].
  unfold CategoricalDistributionLimitedActions.proba_distribution,
    CategoricalDistributionLimitedActions.invalid_logit_value, matrix_min.
  rewrite HF. cbn [tmap].
  split.
  - intros ->. reflexivity.
  - destruct (concat logits) as [| x l] eqn:E; cbn [bind].
    + split; [intros [w H]; discriminate H | intros [H _]; congruence].
    + set (v := if Rle_dec (- 10) (fold_left Rmin l x - 10) then - 10
                else fold_left Rmin l x - 10).
      rewrite <- (masked_fill_T2_returns_iff logits F (fun x => Rltb 0 x) v).
      split.
      * intros [w H]. split; [discriminate |].
        apply bind_ok in H. destruct H as [new [Hnew _]].
        exists new. exact Hnew.
      * intros [_ [new Hnew]]. rewrite Hnew. eexists. reflexivity.
Qed.

Lemma limited_actions_bind_returns_iff_witness :
  returns (CategoricalDistributionLimitedActions.proba_distribution
             example_limited [[1; 2; 3]] (Some (T2 [[0]]))).
Proof.
  apply (limited_actions_bind_returns_iff example_limited [[1; 2; 3]]
           (T2 [[0]]) [[0; 1; 0]] eq_refl).
  split; [discriminate |].
  constructor; [reflexivity | constructor].
Defined.

(** ** The masked categorical distribution: margin and mode *)

Lemma zipM_nth_inv {A B C : Type} (e : exn) (f : A -> B -> result C)
    (u : list A) (v : list B) (w : list C) :
  zipM e f u v = Ok w ->
  forall i c, nth_error w i = Some c ->
  exists a b, nth_error u i = Some a /\ nth_error v i = Some b /\ f a b = Ok c.
Proof.
  revert v w. induction u as [| x u IH]; intros [| y v] w H i c Hc;
    simpl in *; try discriminate H.
  - injection H as <-. destruct i; discriminate Hc.
  - apply bind_ok in H. destruct H as [c0 [Hc0 H]].
    apply bind_ok in H. destruct H as [cs [Hcs H]]. injection H as <-.
    destruct i as [| i]; simpl in *.
    + injection Hc as <-. exists x, y. repeat split; assumption.
    + eapply IH; eassumption.
Qed.

Lemma masked_fill_T2_entry_inv (logits new : matrix) (flags : list (list bool))
    (v : R) (i j : nat) (m : R) :
  masked_fill logits (T2 flags) v = Ok new ->
  entry new i j = Some m ->
  exists b l, entry flags i j = Some b /\ entry logits i j = Some l
              /\ m = (if b then v else l).
Proof.
  unfold masked_fill. intros H Hm. unfold entry in *.
  destruct (nth_error new i) as [nrow |] eqn:En; [| discriminate Hm].
  destruct (zipM_nth_inv _ _ _ _ _ H i nrow En) as [row [brow [Hr [Hb Hrow]]]].
  destruct (zipM_nth_inv _ _ _ _ _ Hrow j m Hm) as [l [b [Hl [Hbj Hc]]]].
  rewrite Hr, Hb. injection Hc as <-. exists b, l. repeat split; assumption.
Qed.

(** [argmax] returns the position of an entry that no entry exceeds. *)
Lemma argmax_from_spec (row pre : list R) (bi : nat) (b : R) :
  nth_error pre bi = Some b ->
  (forall x, In x pre -> x <= b) ->
  exists m, nth_error (pre ++ row) (argmax_from bi b (length pre) row) = Some m
            /\ forall x, In x (pre ++ row) -> x <= m.
Proof.
  revert pre bi b. induction row as [| y row IH]; intros pre bi b Hb Hmax; simpl.
  - exists b. rewrite app_nil_r. split; assumption.
  - replace (pre ++ y :: row) with ((pre ++ [y]) ++ row)
      by (rewrite <- app_assoc; reflexivity).
    replace (S (length pre)) with (length (pre ++ [y]))
      by (rewrite length_app; simpl; lia).
    destruct (Rlt_dec b y) as [Hlt | Hge].
    + apply IH.
      * rewrite nth_error_app2 by lia. rewrite Nat.sub_diag. reflexivity.
      * intros x Hx. apply in_app_or in Hx. destruct Hx as [Hx | [<- | []]].
        -- specialize (Hmax x Hx). lra.
        -- lra.
    + apply IH.
      * rewrite nth_error_app1; [exact Hb |].
        apply nth_error_Some. congruence.
      * intros x Hx. apply in_app_or in Hx. destruct Hx as [Hx | [<- | []]].
        -- apply Hmax. exact Hx.
        -- lra.
Qed.

Lemma argmax_spec (row : list R) (k : nat) :
  argmax row = Ok k ->
  exists m, nth_error row k = Some m /\ forall x, In x row -> x <= m.
Proof.
  destruct row as [| x row]; simpl; [discriminate |].
  intros H. injection H as <-.
  apply (argmax_from_spec row [x] 0 x eq_refl).
  intros y [<- | []]. lra.
Qed.

Lemma mapM_nth_inv {A B : Type} (f : A -> result B) (l : list A) (r : list B) :
  mapM f l = Ok r ->
  forall i b, nth_error r i = Some b ->
  exists a, nth_error l i = Some a /\ f a = Ok b.
Proof.
  revert r. induction l as [| x l IH]; simpl; intros r H i b Hb.
  - injection H as <-. destruct i; discriminate Hb.
  - apply bind_ok in H. destruct H as [b0 [Hb0 H]].
    apply bind_ok in H. destruct H as [bs [Hbs H]]. injection H as <-.
    destruct i as [| i]; simpl in *.
    + injection Hb as <-. exists x. split; [reflexivity | assumption].
    + eapply IH; eassumption.
Qed.

(** After a bind: the value given to the flagged logits, the new logits, and
    how they relate to the raw ones. *)
Lemma limited_actions_bind_margin
    (self self' : CategoricalDistributionLimitedActions.t)
    (logits : matrix) (obs : tensor R) (F : matrix) :
  CategoricalDistributionLimitedActions.proba_distribution self logits (Some obs)
    = Ok self' ->
  CategoricalDistributionLimitedActions._get_invalid_actions_layer self obs = T2 F ->
  exists v new,
    CategoricalDistributionLimitedActions._invalid_logit_value self' = Some v
    /\ CategoricalDistributionLimitedActions._new_action_logits self' = Some new
    /\ CategoricalDistributionLimitedActions.distribution self'
       = Some (Categorical.init new)
    /\ masked_fill logits (T2 (map (map (fun x => Rltb 0 x)) F)) v = Ok new
    /\ v <= - 10
    /\ forall l, In l (concat logits) -> v <= l - 10.
Proof.
  intros H HF.
  destruct (limited_actions_bind_inv _ _ _ _ H)
    as [lo [v [new [Hlo [Hv [Hfill [_ [_ [Hval [Hnew Hdist]]]]]]]]]].
  rewrite HF in Hfill. simpl in Hfill.
  destruct (matrix_min_spec _ _ Hlo) as [_ Hmin].
  exists v, new. repeat split; try assumption.
  - rewrite Hv. destruct (Rle_dec (- 10) (lo - 10)); lra.
  - intros l Hl. specialize (Hmin l Hl). rewrite Hv.
    destruct (Rle_dec (- 10) (lo - 10)); lra.
Qed.

(** X4.  After a bind of the masked categorical distribution every flagged
    logit is at most [-10] and at least 10 below every logit that is not
    flagged, in any row; and within a row the log-probability of a flagged
    action is at least 10 below that of an action that is not flagged. *)
Theorem limited_actions_margin
    (self self' : CategoricalDistributionLimitedActions.t)
    (logits : matrix) (obs : tensor R) (F : matrix) :
  CategoricalDistributionLimitedActions.proba_distribution self logits (Some obs)
    = Ok self' ->
  CategoricalDistributionLimitedActions._get_invalid_actions_layer self obs = T2 F ->
  exists new d,
    CategoricalDistributionLimitedActions._new_action_logits self' = Some new
    /\ CategoricalDistributionLimitedActions.distribution self' = Some d
    /\ (forall i j x a, entry F i j = Some x -> 0 < x -> entry new i j = Some a ->
          a <= - 10
          /\ forall i' j' x' a',
               entry F i' j' = Some x' -> x' <= 0 -> entry new i' j' = Some a' ->
               a <= a' - 10)
    /\ (forall i j j' x x' p p',
          entry F i j = Some x -> 0 < x ->
          entry F i j' = Some x' -> x' <= 0 ->
          entry (Categorical.logits d) i j = Some p ->
          entry (Categorical.logits d) i j' = Some p' ->
          p <= p' - 10).
Proof.
  intros H HF.
  destruct (limited_actions_bind_margin _ _ _ _ _ H HF)
    as [v [new [_ [Hnew [Hdist [Hfill [Hv Hmargin]]]]]]].
  assert (Hflag : forall i j x a, entry F i j = Some x -> 0 < x ->
                    entry new i j = Some a -> a = v).
  { intros i j x a Hx Hpos Ha.
    destruct (masked_fill_T2_entry_inv _ _ _ _ _ _ _ Hfill Ha)
      as [b [l [Hb [_ ->]]]].
    rewrite entry_map, Hx in Hb. injection Hb as <-.
    assert (E : Rltb 0 x = true) by (apply Rltb_true; exact Hpos).
    rewrite E. reflexivity. }
  assert (Hfree : forall i j x a, entry F i j = Some x -> x <= 0 ->
                    entry new i j = Some a -> In a (concat logits)).
  { intros i j x a Hx Hle Ha.
    destruct (masked_fill_T2_entry_inv _ _ _ _ _ _ _ Hfill Ha)
      as [b [l [Hb [Hl ->]]]].
    rewrite entry_map, Hx in Hb. injection Hb as <-.
    assert (E : Rltb 0 x = false) by (apply Rltb_false; lra).
    rewrite E. eapply entry_in_concat. exact Hl. }
  exists new, (Categorical.init new).
  split; [exact Hnew |]. split; [exact Hdist |]. split.
  - intros i j x a Hx Hpos Ha.
    rewrite (Hflag i j x a Hx Hpos Ha). split; [exact Hv |].
    intros i' j' x' a' Hx' Hle Ha'. apply Hmargin.
    exact (Hfree i' j' x' a' Hx' Hle Ha').
  - intros i j j' x x' p p' Hx Hpos Hx' Hle Hp Hp'.
    unfold Categorical.init, entry in Hp, Hp'. simpl in Hp, Hp'.
    rewrite nth_error_map in Hp, Hp'.
    destruct (nth_error new i) as [row |] eqn:Erow; [| discriminate Hp].
    simpl in Hp, Hp'. unfold Categorical.normalise in Hp, Hp'.
    rewrite nth_error_map in Hp, Hp'.
    destruct (nth_error row j) as [a |] eqn:Ea; [| discriminate Hp].
    destruct (nth_error row j') as [a' |] eqn:Ea'; [| discriminate Hp'].
    injection Hp as <-. injection Hp' as <-.
    assert (Ha : entry new i j = Some a) by (unfold entry; rewrite Erow; exact Ea).
    assert (Ha' : entry new i j' = Some a')
      by (unfold entry; rewrite Erow; exact Ea').
    rewrite (Hflag i j x a Hx Hpos Ha).
    pose proof (Hmargin a' (Hfree i j' x' a' Hx' Hle Ha')). lra.
Qed.

Lemma limited_actions_margin_witness :
  exists new d,
    CategoricalDistributionLimitedActions._new_action_logits
      (bound_123 example_limited) = Some new
    /\ CategoricalDistributionLimitedActions.distribution
         (bound_123 example_limited) = Some d.
Proof.
  destruct (limited_actions_margin example_limited (bound_123 example_limited)
              [[1; 2; 3]] (T2 [[0]]) [[0; 1; 0]]
              (limited_actions_bind_123 example_limited (T2 [[0]]) eq_refl)
              eq_refl) as [new [d [H1 [H2 _]]]].
  exists new, d. split; assumption.
Defined.

(** X5.  After a bind of the masked categorical distribution, [mode()]
    returns for a row that has an action that is not flagged an action that
    is not flagged. *)
Theorem limited_actions_mode_not_flagged
    (self self' : CategoricalDistributionLimitedActions.t)
    (logits : matrix) (obs : tensor R) (F : matrix) (t : tensor R) :
  CategoricalDistributionLimitedActions.proba_distribution self logits (Some obs)
    = Ok self' ->
  CategoricalDistributionLimitedActions._get_invalid_actions_layer self obs = T2 F ->
  CategoricalDistributionLimitedActions.mode self' = Ok t ->
  exists idx,
    t = T1 (map INR idx)
    /\ length idx = length logits
    /\ forall i k, nth_error idx i = Some k ->
         (exists j x, entry F i j = Some x /\ x <= 0) ->
         exists xk, entry F i k = Some xk /\ xk <= 0.
Proof.
  intros H HF Hmode.
  destruct (limited_actions_bind_margin _ _ _ _ _ H HF)
    as [v [new [_ [_ [Hdist [Hfill [_ Hmargin]]]]]]].
  unfold CategoricalDistributionLimitedActions.mode in Hmode.
  rewrite Hdist in Hmode. cbn [getattr bind] in Hmode.
  rewrite categorical_mode_logits in Hmode. unfold argmax_dim1 in Hmode.
  apply bind_ok in Hmode. destruct Hmode as [idx [Hidx Hmode]].
  injection Hmode as <-.
  exists idx. split; [reflexivity |].
  destruct (masked_fill_T2_entry _ _ _ _ Hfill) as [Hlen Hentry].
  split; [rewrite (mapM_length _ _ _ Hidx); exact Hlen |].
  intros i k Hk [j [x [Hx Hle]]].
  destruct (mapM_nth_inv _ _ _ Hidx i k Hk) as [row [Hrow Harg]].
  destruct (argmax_spec row k Harg) as [m [Hm Hmax]].
  assert (Hmk : entry new i k = Some m) by (unfold entry; rewrite Hrow; exact Hm).
  destruct (masked_fill_T2_entry_inv _ _ _ _ _ _ _ Hfill Hmk)
    as [b [l [Hb [Hl Hmv]]]].
  rewrite entry_map in Hb.
  destruct (entry F i k) as [xk |] eqn:Exk; [| discriminate Hb].
  simpl in Hb. injection Hb as <-.
  exists xk. split; [reflexivity |].
  destruct (Rle_or_lt xk 0) as [Hok | Hpos]; [exact Hok | exfalso].
  assert (E : Rltb 0 xk = true) by (apply Rltb_true; exact Hpos).
  rewrite E in Hmv. subst m.
  assert (Hbj : entry (map (map (fun x => Rltb 0 x)) F) i j = Some (Rltb 0 x)).
  { rewrite entry_map, Hx. reflexivity. }
  destruct (masked_fill_T2_defined _ _ _ _ _ _ _ Hfill Hbj) as [lj Hlj].
  pose proof (Hentry i j _ lj Hbj Hlj) as Hnj.
  assert (E' : Rltb 0 x = false) by (apply Rltb_false; lra).
  rewrite E' in Hnj.
  assert (Hin : In lj row).
  { unfold entry in Hnj. rewrite Hrow in Hnj. eapply nth_error_In. exact Hnj. }
  pose proof (Hmax lj Hin) as H1.
  pose proof (Hmargin lj (entry_in_concat _ _ _ _ Hlj)) as H2. lra.
Qed.

Lemma bound_123_mode (self : CategoricalDistributionLimitedActions.t) :
  CategoricalDistributionLimitedActions.mode (bound_123 self) = Ok (T1 [INR 2]).
Proof.
  unfold CategoricalDistributionLimitedActions.mode. simpl getattr. simpl bind.
  rewrite categorical_mode_logits. unfold argmax_dim1. simpl.
  destruct (Rlt_dec 1 (- 10)) as [H1 | H1]; [lra |].
  destruct (Rlt_dec 1 3) as [H2 | H2]; [reflexivity | lra].
Qed.

Lemma limited_actions_mode_not_flagged_witness :
  exists idx, T1 [INR 2] = T1 (map INR idx) /\ length idx = 1%nat.
Proof.
  destruct (limited_actions_mode_not_flagged example_limited
              (bound_123 example_limited) [[1; 2; 3]] (T2 [[0]]) [[0; 1; 0]]
              (T1 [INR 2])
              (limited_actions_bind_123 example_limited (T2 [[0]]) eq_refl)
              eq_refl (bound_123_mode example_limited)) as [idx [H1 [H2 _]]].
  exists idx. split; assumption.
Defined.

(** ** Broadcasting two tensors of one shape *)

Lemma zipM_map2_pure {A B C X : Type} (e : exn) (f : A -> B -> result C)
    (a : X -> A) (b : X -> B) (h : X -> C) (u : list X) :
  (forall x, In x u -> f (a x) (b x) = Ok (h x)) ->
  zipM e f (map a u) (map b u) = Ok (map h u).
Proof.
  induction u as [| x u IH]; intros H; simpl; [reflexivity |].
  rewrite (H x (or_introl eq_refl)). cbn [bind].
  rewrite IH by (intros y Hy; apply H; right; exact Hy). reflexivity.
Qed.

Lemma bcast_map2_pure {A B C X : Type} (e : exn) (f : A -> B -> result C)
    (a : X -> A) (b : X -> B) (h : X -> C) (u : list X) :
  (forall x, In x u -> f (a x) (b x) = Ok (h x)) ->
  bcast e f (map a u) (map b u) = Ok (map h u).
Proof.
  intros H. destruct u as [| x [| y u]].
  - reflexivity.
  - simpl. rewrite (H x (or_introl eq_refl)). reflexivity.
  - change (bcast e f (map a (x :: y :: u)) (map b (x :: y :: u)))
      with (zipM e f (map a (x :: y :: u)) (map b (x :: y :: u))).
    apply zipM_map2_pure. exact H.
Qed.

Lemma bcast_singleton {A B C : Type} (e : exn) (g : A -> B -> result C)
    (x : A) (y : B) :
  bcast e g [x] [y] = (r <- g x y ;; Ok [r]).
Proof. unfold bcast. simpl. destruct (g x y); reflexivity. Qed.

(** Two tensors read off one tensor have its shape, and combine entry by
    entry. *)
Lemma tmap2_common {A B C X : Type} (f : A -> B -> C)
    (a : X -> A) (b : X -> B) (P : tensor X) :
  tmap2 f (tmap a P) (tmap b P) = Ok (tmap (fun x => f (a x) (b x)) P).
Proof.
  unfold tmap2, tmap2M.
  destruct P as [x | v | m | c]; simpl promote; simpl ndim.
  - reflexivity.
  - rewrite !bcast_singleton.
    rewrite (bcast_map2_pure _ _ a b (fun x => f (a x) (b x)))
      by reflexivity.
    reflexivity.
  - rewrite bcast_singleton.
    rewrite (bcast_map2_pure _ _ (map a) (map b)
               (map (fun x => f (a x) (b x)))).
    + reflexivity.
    + intros r _. apply bcast_map2_pure. reflexivity.
  - rewrite (bcast_map2_pure _ _ (map (map a)) (map (map b))
               (map (map (fun x => f (a x) (b x))))).
    + reflexivity.
    + intros m _. apply bcast_map2_pure. intros r _.
      apply bcast_map2_pure. reflexivity.
Qed.

(** ** The diagonal Gaussian on a batch *)

Lemma mapM_ok_map {A B : Type} (f : A -> result B) (g : A -> B) (l : list A) :
  (forall a, In a l -> f a = Ok (g a)) -> mapM f l = Ok (map g l).
Proof.
  induction l as [| a l IH]; intros H; simpl; [reflexivity |].
  rewrite (H a (or_introl eq_refl)). cbn [bind].
  rewrite IH by (intros b Hb; apply H; right; exact Hb). reflexivity.
Qed.

Lemma tmap2_T2_T1 {A B C : Type} (f : A -> B -> C) (m : list (list A))
    (v : list B) :
  (forall r, In r m -> length r = length v) ->
  tmap2 f (T2 m) (T1 v) = Ok (T2 (map (fun r => zip_with f r v) m)).
Proof.
  intros H. unfold tmap2, tmap2M. simpl promote. simpl ndim.
  rewrite bcast_singleton.
  assert (E : bcast size_mismatch
                (bcast size_mismatch (fun a b => Ok (f a b))) m [v]
              = Ok (map (fun r => zip_with f r v) m)).
  { destruct m as [| r [| r' m]].
    - reflexivity.
    - rewrite bcast_singleton.
      rewrite (bcast_pure _ f r v (H r (or_introl eq_refl))). reflexivity.
    - change (bcast size_mismatch
                (bcast size_mismatch (fun a b => Ok (f a b))) (r :: r' :: m) [v])
        with (mapM (fun a => bcast size_mismatch (fun a b => Ok (f a b)) a v)
                   (r :: r' :: m)).
      apply mapM_ok_map. intros a Ha. apply bcast_pure. apply H. exact Ha. }
  rewrite E. reflexivity.
Qed.

Lemma map_combine_fst {A B C : Type} (G : A -> C) (r : list A) (s : list B) :
  length r = length s -> map (fun p => G (fst p)) (combine r s) = map G r.
Proof.
  revert s. induction r as [| a r IH]; intros [| b s] H; simpl in *;
    try discriminate H; try reflexivity.
  f_equal. apply IH. congruence.
Qed.

Lemma map_combine_snd {A B C : Type} (G : B -> C) (r : list A) (s : list B) :
  length r = length s -> map (fun p => G (snd p)) (combine r s) = map G s.
Proof.
  revert s. induction r as [| a r IH]; intros [| b s] H; simpl in *;
    try discriminate H; try reflexivity.
  f_equal. apply IH. congruence.
Qed.

Lemma map_const_combine {A B C : Type} (c : C) (r : list A) (s : list B) :
  length r = length s -> map (fun _ => c) (combine r s) = map (fun _ => c) r.
Proof. intros H. apply (map_combine_fst (fun _ => c) r s H). Qed.

Lemma gaussian_params_fst (G : R -> R) (mean : matrix) (ls : vec) :
  (forall r, In r mean -> length r = length ls) ->
  tmap (fun p => G (fst p)) (gaussian_params mean ls) = T2 (map (map G) mean).
Proof.
  intros H. unfold gaussian_params. simpl. f_equal.
  rewrite map_map. apply map_ext_in. intros r Hr.
  apply map_combine_fst. rewrite length_map. apply H. exact Hr.
Qed.

Lemma gaussian_params_snd (G : R -> R) (mean : matrix) (ls : vec) :
  (forall r, In r mean -> length r = length ls) ->
  tmap (fun p => G (snd p)) (gaussian_params mean ls)
  = T2 (map (fun _ => map (fun l => G (exp l)) ls) mean).
Proof.
  intros H. unfold gaussian_params. simpl. f_equal.
  rewrite map_map. apply map_ext_in. intros r Hr.
  rewrite (map_combine_snd G) by (rewrite length_map; apply H; exact Hr).
  apply map_map.
Qed.

Lemma map_id_ext {A : Type} (l : list (list A)) : map (map (fun x => x)) l = l.
Proof.
  induction l as [| r l IH]; simpl; [reflexivity |].
  rewrite map_id, IH. reflexivity.
Qed.

(** The instance a bind on a batch returns. *)
Lemma diag_gaussian_bind_T2 (self : DiagGaussianDistribution.t)
    (mean : matrix) (ls : vec) :
  (forall r, In r mean -> length r = length ls) ->
  DiagGaussianDistribution.proba_distribution self (T2 mean) (T1 ls)
  = Ok (DiagGaussianDistribution.mk (DiagGaussianDistribution.action_dim self)
          (Some (Normal.mk (tmap fst (gaussian_params mean ls))
                           (tmap snd (gaussian_params mean ls))))).
Proof.
  intros H.
  pose proof (gaussian_params_fst (fun x => x) mean ls H) as Hloc.
  pose proof (gaussian_params_snd (fun x => x) mean ls H) as Hscale.
  rewrite map_id_ext in Hloc.
  change (tmap (fun p : R * R => fst p) (gaussian_params mean ls))
    with (tmap fst (gaussian_params mean ls)) in Hloc.
  change (tmap (fun p : R * R => snd p) (gaussian_params mean ls))
    with (tmap snd (gaussian_params mean ls)) in Hscale.
  unfold DiagGaussianDistribution.proba_distribution. simpl tmap.
  rewrite tmap2_T2_T1.
  2:{ intros r Hr. apply in_map_iff in Hr. destruct Hr as [r0 [<- Hr0]].
      rewrite !length_map. apply H. exact Hr0. }
  cbn [bind].
  assert (Estd : map (fun r => zip_with Rmult r (map exp ls))
                     (map (map (fun _ : R => 1)) mean)
                 = map (fun _ => map (fun l => exp l) ls) mean).
  { rewrite map_map. apply map_ext_in. intros r Hr.
    rewrite zip_with_ones by (rewrite length_map; apply H; exact Hr).
    reflexivity. }
  rewrite Estd, <- Hscale, <- Hloc.
  unfold Normal.init.
  rewrite (tmap2_common (fun l _ : R => l) fst snd). cbn [bind].
  rewrite (tmap2_common (fun _ s : R => s) fst snd). cbn [bind].
  reflexivity.
Qed.

Lemma tmap_ext {A B : Type} (f g : A -> B) (t : tensor A) :
  (forall x, f x = g x) -> tmap f t = tmap g t.
Proof.
  intros H. destruct t as [x | v | m | c]; simpl; f_equal.
  - apply H.
  - apply map_ext. exact H.
  - apply map_ext. intros r. apply map_ext. exact H.
  - apply map_ext. intros m. apply map_ext. intros r. apply map_ext. exact H.
Qed.

Lemma gaussian_params_ext (K K' : R * R -> R) (mean : matrix) (ls : vec) :
  (forall x l, K (x, exp l) = K' (x, exp l)) ->
  tmap K (gaussian_params mean ls) = tmap K' (gaussian_params mean ls).
Proof.
  intros H. unfold gaussian_params. simpl. f_equal.
  rewrite !map_map.
  apply map_ext. intros r. apply map_ext_in. intros [x s] Hin.
  apply in_combine_r in Hin. apply in_map_iff in Hin.
  destruct Hin as [l [<- _]]. apply H.
Qed.

Lemma map_const_rows {A : Type} (row : list R) (m : list A) :
  map vsum (map (fun _ => row) m) = map (fun _ => vsum row) m.
Proof. rewrite map_map. reflexivity. Qed.

(** X6.  A bind of the diagonal Gaussian on a batch whose rows have the
    length of [log_std] returns a Normal with the given mean and, in every
    row, the standard deviation [exp(log_std)]; [mode()] is the mean; and
    [entropy()] has one value per batch row, the same for all rows and
    independent of the mean: the sum over the action dimensions of
    [1/2 + 1/2 * ln(2 * pi) + log_std]. *)
Theorem diag_gaussian_batch (self : DiagGaussianDistribution.t)
    (mean : matrix) (ls : vec) :
  (forall r, In r mean -> length r = length ls) ->
  exists self',
    DiagGaussianDistribution.proba_distribution self (T2 mean) (T1 ls) = Ok self'
    /\ DiagGaussianDistribution.action_dim self'
       = DiagGaussianDistribution.action_dim self
    /\ DiagGaussianDistribution.distribution self'
       = Some (Normal.mk (T2 mean) (T2 (map (fun _ => map exp ls) mean)))
    /\ DiagGaussianDistribution.mode self' = Ok (T2 mean)
    /\ DiagGaussianDistribution.entropy self'
       = Ok (Some (T1 (map (fun _ =>
                              vsum (map (fun l => 1 / 2 + 1 / 2 * ln (2 * PI) + l) ls))
                           mean))).
Proof.
  intros H.
  assert (Hloc : tmap fst (gaussian_params mean ls) = T2 mean).
  { pose proof (gaussian_params_fst (fun x => x) mean ls H) as E.
    rewrite map_id_ext in E. exact E. }
  assert (Hscale : tmap snd (gaussian_params mean ls)
                   = T2 (map (fun _ => map exp ls) mean)).
  { pose proof (gaussian_params_snd (fun x => x) mean ls H) as E.
    etransitivity; [exact E |]. reflexivity. }
  exists (DiagGaussianDistribution.mk (DiagGaussianDistribution.action_dim self)
            (Some (Normal.mk (T2 mean) (T2 (map (fun _ => map exp ls) mean))))).
  split.
  { rewrite (diag_gaussian_bind_T2 self mean ls H), Hloc, Hscale. reflexivity. }
  split; [reflexivity |]. split; [reflexivity |]. split; [reflexivity |].
  unfold DiagGaussianDistribution.entropy, Normal.entropy, sum_independent_dims.
  simpl. do 3 f_equal.
  rewrite !map_map. apply map_ext. intros _. f_equal.
  apply map_ext. intros l. rewrite ln_exp. reflexivity.
Qed.

Lemma diag_gaussian_batch_witness :
  exists self',
    DiagGaussianDistribution.proba_distribution
      (DiagGaussianDistribution.init 2) (T2 [[1; 2]; [3; 4]]) (T1 [0; 0])
    = Ok self'
    /\ DiagGaussianDistribution.mode self' = Ok (T2 [[1; 2]; [3; 4]]).
Proof.
  destruct (diag_gaussian_batch (DiagGaussianDistribution.init 2)
              [[1; 2]; [3; 4]] [0; 0]) as [self' [H1 [_ [_ [H2 _]]]]].
  - intros r [<- | [<- | []]]; reflexivity.
  - exists self'. split; assumption.
Defined.

(** X7.  For a diagonal Gaussian bound on a batch, [log_prob] of the mean
    has one value per batch row: minus the sum over the action dimensions of
    [log_std + ln(sqrt(2 * pi))]. *)
Theorem diag_gaussian_log_prob_at_mean (self self' : DiagGaussianDistribution.t)
    (mean : matrix) (ls : vec) :
  (forall r, In r mean -> length r = length ls) ->
  DiagGaussianDistribution.proba_distribution self (T2 mean) (T1 ls) = Ok self' ->
  DiagGaussianDistribution.log_prob self' (T2 mean)
  = Ok (T1 (map (fun _ => vsum (map (fun l => - l - ln (sqrt (2 * PI))) ls)) mean)).
Proof.
  intros H Hb. rewrite (diag_gaussian_bind_T2 self mean ls H) in Hb.
  assert (Hloc : tmap fst (gaussian_params mean ls) = T2 mean).
  { pose proof (gaussian_params_fst (fun x => x) mean ls H) as E.
    rewrite map_id_ext in E. exact E. }
  pose proof (gaussian_params_snd (fun s => - ln s - ln (sqrt (2 * PI))) mean ls H)
    as Hsnd.
  remember (gaussian_params mean ls) as P eqn:HP.
  injection Hb as <-.
  unfold DiagGaussianDistribution.log_prob, Normal.log_prob.
  cbn [DiagGaussianDistribution.distribution getattr bind Normal.loc Normal.scale].
  rewrite <- Hloc.
  rewrite (tmap2_common Rminus fst fst). cbn [bind].
  rewrite (tmap2_common _ (fun p : R * R => fst p - fst p) snd). cbn [bind].
  rewrite (tmap_ext _ (fun p : R * R => - ln (snd p) - ln (sqrt (2 * PI)))).
  2:{ intros [x s]. simpl. unfold Rdiv. ring. }
  rewrite Hsnd.
  unfold sum_independent_dims. simpl. do 2 f_equal.
  rewrite map_map. apply map_ext. intros _. f_equal.
  apply map_ext. intros l. rewrite ln_exp. reflexivity.
Qed.

Lemma diag_gaussian_log_prob_at_mean_witness :
  DiagGaussianDistribution.log_prob
    (DiagGaussianDistribution.mk 2
       (Some (Normal.mk (tmap fst (gaussian_params [[1; 2]] [0; 0]))
                        (tmap snd (gaussian_params [[1; 2]] [0; 0])))))
    (T2 [[1; 2]])
  = Ok (T1 (map (fun _ : list R =>
                   vsum (map (fun l => - l - ln (sqrt (2 * PI))) [0; 0]))
                [[1; 2]])).
Proof.
  apply (diag_gaussian_log_prob_at_mean (DiagGaussianDistribution.init 2)).
  - intros r [<- | []]. reflexivity.
  - apply diag_gaussian_bind_T2. intros r [<- | []]. reflexivity.
Defined.

(** X8.  The KL divergence of a diagonal Gaussian bound on a batch against
    itself is zero in every entry; it has the shape of the mean, one value
    per batch row and action dimension, not one per batch row. *)
Theorem kl_divergence_diag_gaussian_self (self self' : DiagGaussianDistribution.t)
    (mean : matrix) (ls : vec) :
  (forall r, In r mean -> length r = length ls) ->
  DiagGaussianDistribution.proba_distribution self (T2 mean) (T1 ls) = Ok self' ->
  kl_divergence (DiagGaussian self') (DiagGaussian self')
  = Ok (T2 (map (map (fun _ => 0)) mean)).
Proof.
  intros H Hb. rewrite (diag_gaussian_bind_T2 self mean ls H) in Hb.
  assert (Hzero : tmap (fun p : R * R =>
                          1 / 2 * ((snd p / snd p) ^ 2
                                   + ((fst p - fst p) / snd p) ^ 2 - 1
                                   - ln ((snd p / snd p) ^ 2)))
                       (gaussian_params mean ls)
                  = T2 (map (map (fun _ => 0)) mean)).
  { rewrite (gaussian_params_ext _ (fun p => (fun _ => 0) (fst p))).
    - exact (gaussian_params_fst (fun _ => 0) mean ls H).
    - intros x l. simpl.
      pose proof (exp_pos l) as Hpos.
      replace (exp l / exp l) with 1 by (field; lra).
      replace ((x - x) / exp l) with 0 by (field; lra).
      replace (1 * (1 * 1)) with 1 by ring. rewrite ln_1. ring. }
  remember (gaussian_params mean ls) as P eqn:HP.
  injection Hb as <-.
  unfold kl_divergence. simpl class_of.
  destruct (class_eq_dec cDiagGaussian cDiagGaussian); [| congruence].
  cbn [assert bind distribution_of DiagGaussianDistribution.distribution option_map].
  unfold th_kl_divergence, Normal.kl.
  cbn [Normal.loc Normal.scale].
  rewrite (tmap2_common (fun ps qs => (ps / qs) ^ 2) snd snd). cbn [bind].
  rewrite (tmap2_common Rminus fst fst). cbn [bind].
  rewrite (tmap2_common (fun d qs => (d / qs) ^ 2)
             (fun p : R * R => fst p - fst p) snd). cbn [bind].
  rewrite (tmap2_common (fun vr t1 => 1 / 2 * (vr + t1 - 1 - ln vr))
             (fun p : R * R => (snd p / snd p) ^ 2)
             (fun p : R * R => ((fst p - fst p) / snd p) ^ 2)).
  f_equal. exact Hzero.
Qed.

Lemma kl_divergence_diag_gaussian_self_witness :
  kl_divergence
    (DiagGaussian
       (DiagGaussianDistribution.mk 2
          (Some (Normal.mk (tmap fst (gaussian_params [[1; 2]] [0; 0]))
                           (tmap snd (gaussian_params [[1; 2]] [0; 0]))))))
    (DiagGaussian
       (DiagGaussianDistribution.mk 2
          (Some (Normal.mk (tmap fst (gaussian_params [[1; 2]] [0; 0]))
                           (tmap snd (gaussian_params [[1; 2]] [0; 0]))))))
  = Ok (T2 (map (map (fun _ => 0)) [[1; 2]])).
Proof.
  apply (kl_divergence_diag_gaussian_self (DiagGaussianDistribution.init 2)
           _ [[1; 2]] [0; 0]).
  - intros r [<- | []]. reflexivity.
  - apply diag_gaussian_bind_T2. intros r [<- | []]. reflexivity.
Defined.

Lemma make_proba_distribution_returns_witness :
  fresh (BernoulliDist (BernoulliDistribution.init 3)).
Proof.
  exact (proj1 (make_proba_distribution_returns (MultiBinary 3) false None
                  (BernoulliDist (BernoulliDistribution.init 3)) eq_refl)).
Defined.

Lemma make_proba_distribution_valid_actions_raises_witness :
  raises (make_proba_distribution (Discrete 3) false
            (Some [("get_valid_actions"%string, PyFunction (fun _ => [1; 0; 1]))])).
Proof.
  exact (proj2 (proj2 (make_proba_distribution_valid_actions_raises 3 false
                         [("get_valid_actions"%string,
                           PyFunction (fun _ => [1; 0; 1]))] eq_refl))).
Defined.

(** ** KL divergence of a categorical distribution against itself *)

Lemma bcast_diag_pure {A C : Type} (e : exn) (f : A -> A -> result C)
    (h : A -> C) (u : list A) :
  (forall x, In x u -> f x x = Ok (h x)) ->
  bcast e f u u = Ok (map h u).
Proof.
  intros H.
  pose proof (bcast_map2_pure e f (fun x => x) (fun x => x) h u H) as E.
  rewrite map_id in E. exact E.
Qed.

Lemma vsum_zero (l : list R) : (forall x, In x l -> x = 0) -> vsum l = 0.
Proof.
  induction l as [| x l IH]; intros H; simpl; [reflexivity |].
  rewrite (H x (or_introl eq_refl)), IH; [lra |].
  intros y Hy. apply H. right. exact Hy.
Qed.

Lemma categorical_row_kl_self (row : list R) : Categorical.row_kl row row = Ok 0.
Proof.
  unfold Categorical.row_kl.
  rewrite (bcast_diag_pure _ _
             (fun l => exp l / vsum (map exp row) * (l - l))) by reflexivity.
  cbn [bind]. f_equal. apply vsum_zero.
  intros x Hx. apply in_map_iff in Hx. destruct Hx as [l [<- _]].
  unfold Rdiv. ring.
Qed.

Lemma categorical_kl_self (d : Categorical.t) :
  Categorical.kl d d = Ok (T1 (map (fun _ => 0) (Categorical.logits d))).
Proof.
  unfold Categorical.kl.
  rewrite (bcast_diag_pure _ _ (fun _ => 0)).
  - reflexivity.
  - intros row _. apply categorical_row_kl_self.
Qed.

(** X9.  After a bind of the masked categorical distribution, the KL
    divergence of the instance against itself is zero, one value per batch
    row. *)
Theorem kl_divergence_limited_actions_self
    (self self' : CategoricalDistributionLimitedActions.t)
    (logits : matrix) (obs : option (tensor R)) :
  CategoricalDistributionLimitedActions.proba_distribution self logits obs
    = Ok self' ->
  kl_divergence (LimitedActions self') (LimitedActions self')
  = Ok (T1 (map (fun _ => 0) logits)).
Proof.
  intros H. destruct obs as [o |]; [| discriminate H].
  destruct (limited_actions_bind_inv _ _ _ _ H)
    as [lo [v [new [_ [_ [Hfill [_ [_ [_ [_ Hdist]]]]]]]]]].
  assert (Hlen : length new = length logits).
  { unfold CategoricalDistributionLimitedActions.proba_distribution in H.
    clear Hdist.
    destruct (tmap (fun x => Rltb 0 x)
                (CategoricalDistributionLimitedActions._get_invalid_actions_layer
                   self o)) as [b | bs | bm | bc]; simpl in Hfill.
    - injection Hfill as <-. destruct b; [apply length_map | reflexivity].
    - destruct (zipM_length _ _ _ _ _ Hfill) as [H1 _]. symmetry. exact H1.
    - destruct (zipM_length _ _ _ _ _ Hfill) as [H1 _]. symmetry. exact H1.
    - discriminate Hfill. }
  unfold kl_divergence. simpl class_of.
  destruct (class_eq_dec cLimitedActions cLimitedActions); [| congruence].
  cbn [assert bind distribution_of]. rewrite Hdist. cbn [option_map th_kl_divergence].
  rewrite categorical_kl_self. do 2 f_equal.
  unfold Categorical.init. simpl. rewrite map_map.
  clear - Hlen. revert logits Hlen.
  induction new as [| r new IH]; intros [| r' logits] Hlen; simpl in *;
    try discriminate Hlen; try reflexivity.
  f_equal. apply IH. congruence.
Qed.

Lemma kl_divergence_limited_actions_self_witness :
  kl_divergence (LimitedActions (bound_123 example_limited))
                (LimitedActions (bound_123 example_limited))
  = Ok (T1 (map (fun _ => 0) [[1; 2; 3]])).
Proof.
  apply (kl_divergence_limited_actions_self example_limited _ [[1; 2; 3]]
           (Some (T2 [[0]]))).
  apply limited_actions_bind_123. reflexivity.
Defined.

(** ** MultiCategorical: the split of the logits *)

Lemma split_cols_aux_length (sizes : list nat) (m : matrix) :
  length (split_cols_aux sizes m) = length sizes.
Proof.
  revert m. induction sizes as [| n sizes IH]; intros m; simpl;
    [reflexivity | rewrite IH; reflexivity].
Qed.

Lemma split_cols_aux_rows (sizes : list nat) (m : matrix) (chunk : matrix) :
  In chunk (split_cols_aux sizes m) -> length chunk = length m.
Proof.
  revert m. induction sizes as [| n sizes IH]; intros m H; simpl in H.
  - destruct H.
  - destruct H as [<- | H]; [apply length_map |].
    rewrite (IH _ H). apply length_map.
Qed.

Lemma split_cols_aux_widths (sizes : list nat) (m : matrix) :
  (forall row, In row m -> length row = list_sum sizes) ->
  Forall2 (fun n chunk => forall r, In r chunk -> length r = n)
          sizes (split_cols_aux sizes m).
Proof.
  revert m. induction sizes as [| n sizes IH]; intros m H; simpl; constructor.
  - intros r Hr. apply in_map_iff in Hr. destruct Hr as [row [<- Hrow]].
    rewrite length_firstn, (H row Hrow). simpl. lia.
  - apply IH. intros r Hr. apply in_map_iff in Hr. destruct Hr as [row [<- Hrow]].
    rewrite length_skipn, (H row Hrow). simpl. lia.
Qed.

Lemma split_cols_aux_concat (sizes : list nat) (m : matrix) (i : nat) (row : list R) :
  nth_error m i = Some row ->
  length row = list_sum sizes ->
  concat (map (fun chunk => nth i chunk []) (split_cols_aux sizes m)) = row.
Proof.
  revert m row. induction sizes as [| n sizes IH]; intros m row Hi Hlen; simpl.
  - simpl in Hlen. destruct row; [reflexivity | discriminate Hlen].
  - rewrite (IH (map (skipn n) m) (skipn n row)).
    + assert (E : nth i (map (firstn n) m) [] = firstn n row).
      { apply nth_error_nth. rewrite nth_error_map, Hi. reflexivity. }
      rewrite E. apply firstn_skipn.
    + rewrite nth_error_map, Hi. reflexivity.
    + rewrite length_skipn, Hlen. simpl. lia.
Qed.

(** X10.  The bind of the MultiCategorical distribution returns exactly when
    every row of the logits is as wide as the sub-space sizes add up; it then
    holds one categorical distribution per sub-space, in order, each over the
    whole batch and as wide as its sub-space, and the chunks of a row put
    side by side are the row. *)
Theorem multi_categorical_bind_split (self : MultiCategoricalDistribution.t)
    (logits : matrix) :
  let dims := MultiCategoricalDistribution.action_dims self in
  (returns (MultiCategoricalDistribution.proba_distribution self logits)
   <-> forall row, In row logits -> length row = list_sum dims)
  /\ forall self',
       MultiCategoricalDistribution.proba_distribution self logits = Ok self' ->
       exists splits,
         MultiCategoricalDistribution.action_dims self' = dims
         /\ MultiCategoricalDistribution.distribution self'
            = Some (map Categorical.init splits)
         /\ length splits = length dims
         /\ (forall chunk, In chunk splits -> length chunk = length logits)
         /\ Forall2 (fun n chunk => forall r, In r chunk -> length r = n)
                    dims splits
         /\ forall i row, nth_error logits i = Some row ->
              concat (map (fun chunk => nth i chunk []) splits) = row.
Proof.
  intros dims.
  assert (Hall : forallb (fun row => (length row =? list_sum dims)%nat) logits = true
                 <-> forall row, In row logits -> length row = list_sum dims).
  { rewrite forallb_forall. split; intros H row Hr.
    - apply Nat.eqb_eq. apply H. exact Hr.
    - apply Nat.eqb_eq. apply H. exact Hr. }
  unfold MultiCategoricalDistribution.proba_distribution, split_cols. fold dims.
  split.
  - destruct (forallb _ logits) eqn:E.
    + split; [intros _; apply Hall; reflexivity | intros _; eexists; reflexivity].
    + split; [intros [w Hw]; discriminate Hw |].
      intros H. apply Hall in H. discriminate H.
  - intros self' H.
    destruct (forallb _ logits) eqn:E; [| discriminate H].
    cbn [bind] in H. injection H as <-.
    pose proof (proj1 Hall eq_refl) as Hrows.
    exists (split_cols_aux dims logits).
    split; [reflexivity |]. split; [reflexivity |].
    split; [apply split_cols_aux_length |].
    split; [intros chunk Hc; exact (split_cols_aux_rows _ _ _ Hc) |].
    split; [apply split_cols_aux_widths; exact Hrows |].
    intros i row Hi. apply split_cols_aux_concat; [exact Hi |].
    apply Hrows. eapply nth_error_In. exact Hi.
Qed.

Lemma multi_categorical_bind_split_witness :
  returns (MultiCategoricalDistribution.proba_distribution
             (MultiCategoricalDistribution.init [2%nat; 3%nat])
             [[1; 2; 3; 4; 5]]).
Proof.
  apply (proj1 (multi_categorical_bind_split
                  (MultiCategoricalDistribution.init [2%nat; 3%nat])
                  [[1; 2; 3; 4; 5]])).
  intros row [<- | []]. reflexivity.
Defined.

(** ** MultiCategorical: stacking and summing over the sub-spaces *)

Lemma vadd_assoc (a b c : list R) : vadd (vadd a b) c = vadd a (vadd b c).
Proof.
  revert b c. induction a as [| x a IH]; intros [| y b] [| z c]; simpl;
    try reflexivity.
  rewrite IH. f_equal. ring.
Qed.

Lemma fold_left_vadd_shift (rs : list (list R)) (a b : list R) :
  fold_left vadd rs (vadd a b) = vadd a (fold_left vadd rs b).
Proof.
  revert b. induction rs as [| r rs IH]; intros b; simpl; [reflexivity |].
  rewrite vadd_assoc. apply IH.
Qed.

Lemma vsum_zip_cons (r : list R) (t : list (list R)) :
  length r = length t ->
  map vsum (zip_with cons r t) = vadd r (map vsum t).
Proof.
  revert t. induction r as [| x r IH]; intros [| col t] H; simpl in *;
    try discriminate H; try reflexivity.
  unfold zip_with in *. simpl. rewrite IH by congruence. reflexivity.
Qed.

Lemma transpose_colsum (vs : list (list R)) (b : nat) :
  vs <> [] ->
  (forall v, In v vs -> length v = b) ->
  exists t, transpose vs = Ok t /\ length t = b /\ map vsum t = colsum vs.
Proof.
  induction vs as [| r vs IH]; intros Hne Hlen; [congruence |].
  destruct vs as [| r2 rs].
  - exists (map (fun x => [x]) r). split; [reflexivity |].
    split; [rewrite length_map; apply Hlen; left; reflexivity |].
    simpl. rewrite map_map. simpl.
    rewrite <- (map_id r) at 2. apply map_ext. intros x. ring.
  - destruct IH as [t [Ht [Hb Hsum]]];
      [discriminate | intros v Hv; apply Hlen; right; exact Hv |].
    assert (Hr : length r = length t).
    { rewrite Hb. apply Hlen. left. reflexivity. }
    exists (zip_with cons r t).
    change (transpose (r :: r2 :: rs))
      with (t0 <- transpose (r2 :: rs) ;;
            zipM (RuntimeError "stack expects each tensor to be equal size")
                 (fun x col => Ok (x :: col)) r t0).
    rewrite Ht. cbn [bind]. rewrite (zipM_pure _ cons r t Hr).
    split; [reflexivity |].
    split; [rewrite zip_with_length by exact Hr; congruence |].
    rewrite (vsum_zip_cons r t Hr), Hsum. simpl.
    symmetry. apply fold_left_vadd_shift.
Qed.

Lemma all_some_as_T1 (vs : list (list R)) :
  all_some (map as_T1 (map T1 vs)) = Some vs.
Proof.
  induction vs as [| v vs IH]; simpl; [reflexivity |].
  simpl in IH. rewrite IH. reflexivity.
Qed.

(** Stacking vectors of one length along dimension 1 and summing over that
    dimension adds them up. *)
Lemma stack_sum_dim1 (vs : list (list R)) (b : nat) :
  vs <> [] ->
  (forall v, In v vs -> length v = b) ->
  (st <- stack_dim1 (map T1 vs) ;; tensor_sum_dim1 st) = Ok (T1 (colsum vs))
  /\ length (colsum vs) = b.
Proof.
  intros Hne Hlen.
  destruct (transpose_colsum vs b Hne Hlen) as [t [Ht [Hb Hsum]]].
  split; [| rewrite <- Hsum, length_map; exact Hb].
  assert (E : stack_dim1 (map T1 vs) = (m <- transpose vs ;; Ok (T2 m))).
  { destruct vs as [| v vs]; [congruence |].
    change (stack_dim1 (map T1 (v :: vs)))
      with (match all_some (map as_T1 (map (@T1 R) (v :: vs))) with
            | Some vs0 => m <- transpose vs0 ;; Ok (T2 m)
            | None => Raise (RuntimeError "stack expects each tensor to be equal size")
            end).
    rewrite all_some_as_T1. reflexivity. }
  rewrite E, Ht. cbn [bind tensor_sum_dim1]. rewrite Hsum.
  reflexivity.
Qed.

(** X11.  After a bind of the MultiCategorical distribution with at least
    one sub-space, [entropy()] has one value per batch row, the sum of the
    entropies of the sub-space distributions on that row; with no sub-space
    it raises, there being nothing to stack. *)
Theorem multi_categorical_entropy_sum (self self' : MultiCategoricalDistribution.t)
    (logits : matrix) :
  MultiCategoricalDistribution.proba_distribution self logits = Ok self' ->
  (MultiCategoricalDistribution.action_dims self = [] ->
   MultiCategoricalDistribution.entropy self'
   = Raise (RuntimeError "stack expects a non-empty TensorList"))
  /\ (MultiCategoricalDistribution.action_dims self <> [] ->
      exists ds e,
        MultiCategoricalDistribution.distribution self' = Some ds
        /\ MultiCategoricalDistribution.entropy self' = Ok (Some (T1 e))
        /\ length e = length logits
        /\ forall i,
             nth i e 0
             = vsum (map (fun d => nth i (map Categorical.row_entropy
                                             (Categorical.logits d)) 0) ds)).
Proof.
  intros H.
  unfold MultiCategoricalDistribution.proba_distribution in H.
  apply bind_ok in H. destruct H as [splits [Hs H]]. injection H as <-.
  unfold split_cols in Hs.
  destruct (forallb _ logits); [| discriminate Hs]. injection Hs as <-.
  split.
  - intros ->. reflexivity.
  - intros Hne.
    set (dims := MultiCategoricalDistribution.action_dims self) in *.
    set (ds := map Categorical.init (split_cols_aux dims logits)).
    set (vs := map (fun d => map Categorical.row_entropy (Categorical.logits d)) ds).
    assert (Hvs_ne : vs <> []).
    { unfold vs, ds. intros E. apply map_eq_nil in E. apply map_eq_nil in E.
      apply (f_equal (@length _)) in E. rewrite split_cols_aux_length in E.
      destruct dims; [congruence | discriminate E]. }
    assert (Hvs_len : forall v, In v vs -> length v = length logits).
    { intros v Hv. unfold vs, ds in Hv. rewrite map_map in Hv.
      apply in_map_iff in Hv. destruct Hv as [chunk [<- Hc]].
      unfold Categorical.init. simpl. rewrite !length_map.
      exact (split_cols_aux_rows _ _ _ Hc). }
    destruct (stack_sum_dim1 vs (length logits) Hvs_ne Hvs_len) as [Hst Hlen].
    exists ds, (colsum vs).
    split; [reflexivity |]. split; [| split; [exact Hlen |]].
    + unfold MultiCategoricalDistribution.entropy.
      cbn [MultiCategoricalDistribution.distribution iter bind]. fold ds.
      assert (E : map Categorical.entropy ds = map T1 vs).
      { unfold vs. rewrite map_map. reflexivity. }
      rewrite E.
      destruct (stack_dim1 (map T1 vs)) as [st | err]; cbn [bind] in *;
        [| discriminate Hst].
      rewrite Hst. reflexivity.
    + intros i. rewrite (colsum_nth vs (length logits) i Hvs_len).
      unfold vs. rewrite map_map. reflexivity.
Qed.

Lemma multi_categorical_entropy_sum_witness :
  exists ds e,
    MultiCategoricalDistribution.distribution
      (MultiCategoricalDistribution.mk [2%nat; 3%nat]
         (Some (map Categorical.init
                  (split_cols_aux [2%nat; 3%nat] [[1; 2; 3; 4; 5]])))) = Some ds
    /\ MultiCategoricalDistribution.entropy
         (MultiCategoricalDistribution.mk [2%nat; 3%nat]
            (Some (map Categorical.init
                     (split_cols_aux [2%nat; 3%nat] [[1; 2; 3; 4; 5]]))))
       = Ok (Some (T1 e)).
Proof.
  destruct (proj2 (multi_categorical_entropy_sum
                     (MultiCategoricalDistribution.init [2%nat; 3%nat])
                     (MultiCategoricalDistribution.mk [2%nat; 3%nat]
                        (Some (map Categorical.init
                                 (split_cols_aux [2%nat; 3%nat] [[1; 2; 3; 4; 5]]))))
                     [[1; 2; 3; 4; 5]] eq_refl))
    as [ds [e [H1 [H2 _]]]].
  - discriminate.
  - exists ds, e. split; assumption.
Defined.

(** ** Bernoulli: mode and entropy *)

Lemma sigmoid_inv (l : R) :
  0 < sigmoid l /\ sigmoid l * (1 + exp (- l)) = 1.
Proof.
  unfold sigmoid. pose proof (exp_pos (- l)) as H. split.
  - apply Rdiv_lt_0_compat; lra.
  - field. lra.
Qed.

Lemma sigmoid_bounds (l : R) : 0 < sigmoid l < 1.
Proof.
  destruct (sigmoid_inv l) as [H1 H2]. pose proof (exp_pos (- l)) as H.
  split; [exact H1 | nra].
Qed.

Lemma sigmoid_half (l : R) :
  (0 < l -> 1 / 2 < sigmoid l)
  /\ (l = 0 -> sigmoid l = 1 / 2)
  /\ (l < 0 -> sigmoid l < 1 / 2).
Proof.
  destruct (sigmoid_inv l) as [H1 H2]. pose proof (exp_pos (- l)) as Hp.
  split; [| split].
  - intros H. assert (He : exp (- l) < 1).
    { rewrite <- exp_0. apply exp_increasing. lra. }
    nra.
  - intros ->. rewrite Ropp_0, exp_0 in H2. lra.
  - intros H. assert (He : 1 < exp (- l)).
    { rewrite <- exp_0. apply exp_increasing. lra. }
    nra.
Qed.

Lemma th_round_unit (p : R) :
  0 < p < 1 -> th_round p = if Rlt_dec (1 / 2) p then 1 else 0.
Proof.
  intros Hp. unfold th_round.
  assert (E : Int_part p = 0%Z).
  { symmetry. apply Int_part_spec. simpl. lra. }
  rewrite E. simpl.
  replace (p - 0) with p by ring.
  destruct (Rlt_dec p (1 / 2)); destruct (Rlt_dec (1 / 2) p);
    try reflexivity; lra.
Qed.

Lemma th_round_sigmoid (l : R) :
  th_round (sigmoid l) = if Rlt_dec 0 l then 1 else 0.
Proof.
  rewrite (th_round_unit _ (sigmoid_bounds l)).
  destruct (sigmoid_half l) as [H1 [H2 H3]].
  destruct (Rlt_dec (1 / 2) (sigmoid l)) as [Hs | Hs];
    destruct (Rlt_dec 0 l) as [Hl | Hl]; try reflexivity.
  - exfalso. destruct (Rtotal_order l 0) as [Hn | [Hz | Hp]].
    + specialize (H3 Hn). lra.
    + specialize (H2 Hz). lra.
    + contradiction.
  - exfalso. specialize (H1 Hl). lra.
Qed.

(** X12.  The mode of the Bernoulli distribution is 1 exactly at the entries
    whose logit is strictly positive, and 0 at a logit of zero (probability
    one half) or below.  [entropy()] sums over dimension 1: on a batch it has
    one value per row, and on unbatched 1-D logits it raises an IndexError. *)
Theorem bernoulli_mode_entropy (self : BernoulliDistribution.t) :
  (forall logits : tensor R,
      BernoulliDistribution.mode (BernoulliDistribution.proba_distribution self logits)
      = Ok (tmap (fun l => if Rlt_dec 0 l then 1 else 0) logits))
  /\ (forall m : matrix,
         BernoulliDistribution.entropy
           (BernoulliDistribution.proba_distribution self (T2 m))
         = Ok (Some (T1 (map (fun row =>
                                vsum (map (fun l => Bernoulli.bce l (sigmoid l)) row))
                             m))))
  /\ (forall v : vec,
         BernoulliDistribution.entropy
           (BernoulliDistribution.proba_distribution self (T1 v))
         = Raise (IndexError "Dimension out of range")).
Proof.
  split; [| split].
  - intros logits. unfold BernoulliDistribution.mode. simpl.
    unfold Bernoulli.probs, Bernoulli.init. simpl.
    rewrite tmap_tmap. f_equal. apply tmap_ext. apply th_round_sigmoid.
  - intros m. unfold BernoulliDistribution.entropy. simpl.
    rewrite map_map. reflexivity.
  - intros v. reflexivity.
Qed.

(** ** The tanh bijector: round trips *)

Lemma tmap_ext_in {A B : Type} (f g : A -> B) (t : tensor A) :
  (forall x, tensor_In x t -> f x = g x) -> tmap f t = tmap g t.
Proof.
  intros H. destruct t as [x | v | m | c]; simpl in *; f_equal.
  - apply H. reflexivity.
  - apply map_ext_in. exact H.
  - apply map_ext_in. intros r Hr. apply map_ext_in. intros x Hx.
    apply H. exists r. split; assumption.
  - apply map_ext_in. intros m Hm. apply map_ext_in. intros r Hr.
    apply map_ext_in. intros x Hx. apply H. exists m, r. repeat split; assumption.
Qed.

Lemma tmap_id {A : Type} (t : tensor A) : tmap (fun x => x) t = t.
Proof.
  destruct t as [x | v | m | c]; simpl; f_equal.
  - apply map_id.
  - rewrite <- (map_id m) at 2. apply map_ext. intros r. apply map_id.
  - rewrite <- (map_id c) at 2. apply map_ext. intros m.
    rewrite <- (map_id m) at 2. apply map_ext. intros r. apply map_id.
Qed.

Lemma tensor_In_tmap {A B : Type} (f : A -> B) (t : tensor A) (y : B) :
  tensor_In y (tmap f t) -> exists x, tensor_In x t /\ y = f x.
Proof.
  destruct t as [x | v | m | c]; simpl.
  - intros ->. exists x. split; reflexivity.
  - intros H. apply in_map_iff in H. destruct H as [x [<- Hx]].
    exists x. split; [exact Hx | reflexivity].
  - intros [r [Hr Hy]]. apply in_map_iff in Hr. destruct Hr as [r0 [<- Hr0]].
    apply in_map_iff in Hy. destruct Hy as [x [<- Hx]].
    exists x. split; [exists r0; split; assumption | reflexivity].
  - intros [m [r [Hm [Hr Hy]]]].
    apply in_map_iff in Hm. destruct Hm as [m0 [<- Hm0]].
    apply in_map_iff in Hr. destruct Hr as [r0 [<- Hr0]].
    apply in_map_iff in Hy. destruct Hy as [x [<- Hx]].
    exists x. split; [exists m0, r0; repeat split; assumption | reflexivity].
Qed.

Lemma tanh_parts (v : R) :
  1 + tanh v = exp v * (2 / (exp v + exp (- v)))
  /\ 1 + - tanh v = exp (- v) * (2 / (exp v + exp (- v)))
  /\ 0 < 2 / (exp v + exp (- v)).
Proof.
  pose proof (exp_pos v) as H1. pose proof (exp_pos (- v)) as H2.
  unfold tanh, sinh, cosh.
  split; [field; lra |]. split; [field; lra |].
  apply Rdiv_lt_0_compat; lra.
Qed.

Lemma tanh_range (v : R) : - 1 < tanh v < 1.
Proof.
  destruct (tanh_parts v) as [H1 [H2 H3]].
  pose proof (exp_pos v) as E1. pose proof (exp_pos (- v)) as E2.
  assert (P1 : 0 < exp v * (2 / (exp v + exp (- v))))
    by (apply Rmult_lt_0_compat; assumption).
  assert (P2 : 0 < exp (- v) * (2 / (exp v + exp (- v))))
    by (apply Rmult_lt_0_compat; assumption).
  lra.
Qed.

Lemma atanh_tanh (v : R) :
  (1 / 2) * (log1p (tanh v) - log1p (- tanh v)) = v.
Proof.
  destruct (tanh_parts v) as [H1 [H2 H3]]. unfold log1p.
  rewrite H1, H2.
  rewrite !ln_mult by (try apply exp_pos; exact H3).
  rewrite !ln_exp. field.
Qed.

(** X13.  The tanh bijector: [forward(inverse(y))] is [y] clamped into
    [[-1 + eps, 1 - eps]], hence [y] itself when no entry is outside; and
    [inverse(forward(x))] is [x] when no entry of [tanh(x)] is outside that
    interval. *)
Theorem tanh_bijector_round_trip (dt : dtype) :
  let lo := - 1 + finfo_eps dt in
  let hi := 1 - finfo_eps dt in
  (forall y, TanhBijector.forward (TanhBijector.inverse dt y) = tmap (clamp lo hi) y)
  /\ (forall y, (forall v, tensor_In v y -> lo <= v <= hi) ->
        TanhBijector.forward (TanhBijector.inverse dt y) = y)
  /\ (forall x, (forall v, tensor_In v x -> lo <= tanh v <= hi) ->
        TanhBijector.inverse dt (TanhBijector.forward x) = x).
Proof.
  intros lo hi. pose proof (finfo_eps_bounds dt) as He.
  assert (Hfwd : forall y, TanhBijector.forward (TanhBijector.inverse dt y)
                           = tmap (clamp lo hi) y).
  { intros y. unfold TanhBijector.forward, TanhBijector.inverse, TanhBijector.inverse_with,
      TanhBijector.atanh_with.
    fold lo hi. rewrite !tmap_tmap. apply tmap_ext. intros v.
    apply tanh_atanh.
    pose proof (clamp_bounds lo hi v) as Hb. unfold lo, hi in *. lra. }
  split; [exact Hfwd |]. split.
  - intros y Hy. rewrite Hfwd. rewrite <- (tmap_id y) at 2.
    apply tmap_ext_in. intros v Hv. apply clamp_inside. apply Hy. exact Hv.
  - intros x Hx.
    unfold TanhBijector.forward, TanhBijector.inverse, TanhBijector.inverse_with,
      TanhBijector.atanh_with.
    fold lo hi. rewrite !tmap_tmap. rewrite <- (tmap_id x) at 2.
    apply tmap_ext_in. intros v Hv.
    rewrite (clamp_inside lo hi (tanh v) (Hx v Hv)). apply atanh_tanh.
Qed.

Lemma tanh_bijector_round_trip_witness :
  TanhBijector.forward (TanhBijector.inverse float32 (T1 [0])) = T1 [0].
Proof.
  apply (proj1 (proj2 (tanh_bijector_round_trip float32))).
  intros v [<- | []]. pose proof (finfo_eps_bounds float32). simpl. lra.
Defined.

(** ** The squashed Gaussian *)

(** X14.  [sample()] and [mode()] of the squashed Gaussian store the draw
    before squashing and return its tanh, every entry strictly between -1
    and 1; and [log_prob] of such an action gives the same result with the
    stored draw as without it (through the inverse), as long as no entry of
    the action is outside the clamp interval. *)
Theorem squashed_gaussian_cache (self : SquashedDiagGaussianDistribution.t) :
  (forall g self' a,
      SquashedDiagGaussianDistribution.sample g self = Ok (self', a)
      \/ SquashedDiagGaussianDistribution.mode self = Ok (self', a) ->
      exists ga,
        SquashedDiagGaussianDistribution.gaussian_actions self' = Some ga
        /\ SquashedDiagGaussianDistribution.base self'
           = SquashedDiagGaussianDistribution.base self
        /\ a = tmap tanh ga
        /\ forall v, tensor_In v a -> - 1 < v < 1)
  /\ (forall dt ga,
         (forall v, tensor_In v ga ->
                    - 1 + finfo_eps dt <= tanh v <= 1 - finfo_eps dt) ->
         SquashedDiagGaussianDistribution.log_prob self dt (tmap tanh ga) None
         = SquashedDiagGaussianDistribution.log_prob self dt (tmap tanh ga) (Some ga)).
Proof.
  split.
  - intros g self' a H.
    assert (E : exists ga,
               Ok (SquashedDiagGaussianDistribution.mk
                     (SquashedDiagGaussianDistribution.base self)
                     (SquashedDiagGaussianDistribution.epsilon self) (Some ga),
                   tmap tanh ga) = Ok (self', a)).
    { destruct H as [H | H].
      - unfold SquashedDiagGaussianDistribution.sample in H.
        apply bind_ok in H. destruct H as [ga [_ H]]. exists ga. exact H.
      - unfold SquashedDiagGaussianDistribution.mode in H.
        apply bind_ok in H. destruct H as [ga [_ H]]. exists ga. exact H. }
    destruct E as [ga E]. injection E as <- <-.
    exists ga. repeat split; try reflexivity.
    + apply tensor_In_tmap in H0. destruct H0 as [x [_ ->]]. apply tanh_range.
    + apply tensor_In_tmap in H0. destruct H0 as [x [_ ->]]. apply tanh_range.
  - intros dt ga Hga.
    unfold SquashedDiagGaussianDistribution.log_prob.
    assert (E : TanhBijector.inverse dt (tmap tanh ga) = ga).
    { unfold TanhBijector.inverse, TanhBijector.inverse_with,
        TanhBijector.atanh_with.
      rewrite !tmap_tmap. rewrite <- (tmap_id ga) at 2.
      apply tmap_ext_in. intros v Hv.
      rewrite (clamp_inside _ _ (tanh v) (Hga v Hv)). apply atanh_tanh. }
    rewrite E. reflexivity.
Qed.

Lemma squashed_gaussian_cache_witness :
  SquashedDiagGaussianDistribution.proba_distribution
    (SquashedDiagGaussianDistribution.init 1 default_epsilon)
    (T2 [[0]]) (T1 [0]) = Ok (example_squashed None)
  /\ SquashedDiagGaussianDistribution.mode (example_squashed None)
     = Ok (example_squashed (Some (T2 [[0]])), tmap tanh (T2 [[0]]))
  /\ (forall v, tensor_In v (tmap tanh (T2 [[0]])) -> - 1 < v < 1)
  /\ returns (SquashedDiagGaussianDistribution.log_prob
                (example_squashed (Some (T2 [[0]]))) float32
                (tmap tanh (T2 [[0]])) (Some (T2 [[0]])))
  /\ SquashedDiagGaussianDistribution.log_prob
       (example_squashed (Some (T2 [[0]]))) float32 (tmap tanh (T2 [[0]])) None
     = SquashedDiagGaussianDistribution.log_prob
         (example_squashed (Some (T2 [[0]]))) float32 (tmap tanh (T2 [[0]]))
         (Some (T2 [[0]])).
Proof.
  split; [reflexivity |].
  assert (Hmode : SquashedDiagGaussianDistribution.mode (example_squashed None)
                  = Ok (example_squashed (Some (T2 [[0]])), tmap tanh (T2 [[0]])))
    by reflexivity.
  split; [exact Hmode |].
  destruct (proj1 (squashed_gaussian_cache (example_squashed None))
              zero_generator _ _ (or_intror Hmode)) as [ga [_ [_ [_ Hrange]]]].
  split; [exact Hrange |].
  split; [eexists; reflexivity |].
  apply (proj2 (squashed_gaussian_cache (example_squashed (Some (T2 [[0]]))))).
  intros v [r [[<- | []] [<- | []]]].
  pose proof (finfo_eps_bounds float32) as He.
  assert (E : tanh 0 = 0).
  { unfold tanh, sinh. rewrite Ropp_0, exp_0. unfold Rdiv. ring. }
  rewrite E. lra.
Defined.

(** ** The manual masked variant *)

Lemma bcast_length_right {A B C : Type} (e : exn) (f : A -> B -> result C)
    (u : list A) (v : list B) (w : list C) :
  bcast e f u v = Ok w -> (2 <= length v)%nat -> length w = length v.
Proof.
  intros H Hv. unfold bcast in H.
  destruct u as [| a [| a' u]].
  - destruct v as [| b [| b' v]]; simpl in Hv; try lia.
    destruct (zipM_length _ _ _ _ _ H) as [_ H2]. symmetry. exact H2.
  - apply (mapM_length _ _ _ H).
  - destruct v as [| b [| b' v]]; simpl in Hv; try lia.
    destruct (zipM_length _ _ _ _ _ H) as [_ H2]. symmetry. exact H2.
Qed.

(** X15.  In the manual masked variant, after a bind on logits of two or
    more batch rows, [sample()] raises a RuntimeError for every draw: the
    logits of the drawn actions are compared with [-9.5] and the comparison,
    a tensor with several entries, is used as the condition of an [if].
    Its [log_prob] is evaluated on the raw logits, not on the masked ones
    that [sample()] and [mode()] use. *)
Theorem manual_variant_sample_batch
    (s s' : CategoricalDistributionLimitedActions_Manual.t)
    (logits : matrix) (obs : option (tensor R)) :
  CategoricalDistributionLimitedActions_Manual.proba_distribution s logits obs = Ok s' ->
  (forall a, CategoricalDistributionLimitedActions_Manual.log_prob s' a
             = Categorical.log_prob (Categorical.init logits) a)
  /\ ((2 <= length logits)%nat ->
      forall g,
        CategoricalDistributionLimitedActions_Manual.sample g s'
        = Raise (RuntimeError
                   "Boolean value of Tensor with more than one value is ambiguous")).
Proof.
  intros H. destruct obs as [o |]; [| discriminate H].
  unfold CategoricalDistributionLimitedActions_Manual.proba_distribution in H.
  apply bind_ok in H. destruct H as [v [_ H]].
  apply bind_ok in H. destruct H as [rows [_ H]].
  apply bind_ok in H. destruct H as [valid_list [_ H]].
  apply bind_ok in H. destruct H as [all_valid [_ H]].
  apply bind_ok in H. destruct H as [new [Hnew H]].
  injection H as <-.
  split; [reflexivity |].
  intros Hlen g.
  pose proof (bcast_length_right _ _ _ _ _ Hnew Hlen) as Hn.
  unfold CategoricalDistributionLimitedActions_Manual.sample.
  cbn [CategoricalDistributionLimitedActions_Manual.sample_distribution getattr bind].
  unfold Categorical.init. cbn [Categorical.logits].
  destruct new as [| r1 [| r2 new]]; simpl in Hn; try lia.
  reflexivity.
Qed.

Lemma manual_variant_sample_batch_witness :
  CategoricalDistributionLimitedActions_Manual.sample zero_generator
    (CategoricalDistributionLimitedActions_Manual.mk 2
       (PyFunction (fun _ => [1; 1]))
       (Some (Categorical.init [[0; 0]; [0; 0]]))
       (Some (Categorical.init [[0; 0]; [0; 0]])))
  = Raise (RuntimeError
             "Boolean value of Tensor with more than one value is ambiguous").
Proof.
  assert (Hb : CategoricalDistributionLimitedActions_Manual.proba_distribution
                 (CategoricalDistributionLimitedActions_Manual.mk 2
                    (PyFunction (fun _ => [1; 1])) None None)
                 [[0; 0]; [0; 0]] (Some (T2 [[0]; [0]]))
               = Ok (CategoricalDistributionLimitedActions_Manual.mk 2
                       (PyFunction (fun _ => [1; 1]))
                       (Some (Categorical.init [[0; 0]; [0; 0]]))
                       (Some (Categorical.init [[0; 0]; [0; 0]])))).
  { unfold CategoricalDistributionLimitedActions_Manual.proba_distribution.
    assert (Hv : CategoricalDistributionLimitedActions_Manual.invalid_logit_value
                   [[0; 0]; [0; 0]] = Ok (- 100)).
    { unfold CategoricalDistributionLimitedActions_Manual.invalid_logit_value,
        matrix_min. simpl.
      assert (E : Rmin (Rmin (Rmin 0 0) 0) 0 = 0).
      { unfold Rmin. repeat (destruct (Rle_dec _ _)); lra. }
      rewrite E. destruct (Rle_dec (- 100) (0 - 100)); [reflexivity | lra]. }
    rewrite Hv. simpl.
    destruct (Req_dec_T 1 0) as [E | E]; [lra | reflexivity]. }
  assert (Hlen : (2 <= length [[0; 0]; [0; 0]])%nat) by (simpl; lia).
  exact (proj2 (manual_variant_sample_batch _ _ _ _ Hb) Hlen zero_generator).
Defined.

(** ** kl_divergence: what it refuses *)

(** X16.  [kl_divergence] raises an AssertionError whenever its two
    arguments are of different classes, a diagonal Gaussian against its
    squashed subclass included, and it raises on two instances that were
    never bound. *)
Theorem kl_divergence_refuses (d1 d2 : Distribution) :
  (class_of d1 <> class_of d2 ->
   kl_divergence d1 d2
   = Raise (AssertionError "Error: input distributions should be the same type"))
  /\ (fresh d1 -> fresh d2 -> raises (kl_divergence d1 d2)).
Proof.
  split; [apply kl_divergence_class_mismatch |].
  intros H1 H2. unfold kl_divergence.
  destruct (class_eq_dec (class_of d1) (class_of d2)) as [E | E];
    [| eexists; reflexivity].
  cbn [assert bind].
  destruct H1 as [n1 | n1 e1 | n1 s1 Hs1 | n1 o1 s1 Hs1 | n1 f1 s1 Hs1
                  | dims1 | n1 | n1 a1 b1 c1 d1 e1];
    destruct H2 as [n2 | n2 e2 | n2 s2 Hs2 | n2 o2 s2 Hs2 | n2 f2 s2 Hs2
                    | dims2 | n2 | n2 a2 b2 c2 d2 e2];
    try discriminate E; try discriminate Hs1; try (eexists; reflexivity).
  - simpl distribution_of.
    rewrite (limited_actions_init_unbound _ _ _ Hs1),
      (limited_actions_init_unbound _ _ _ Hs2).
    eexists. reflexivity.
  - simpl distribution_of.
    rewrite (proj1 (manual_init_unbound _ _ _ Hs1)),
      (proj1 (manual_init_unbound _ _ _ Hs2)).
    eexists. reflexivity.
  - cbn [MultiCategoricalDistribution.init MultiCategoricalDistribution.action_dims
         MultiCategoricalDistribution.distribution].
    destruct (allclose dims2 dims1) as [[|] | err]; cbn [bind assert];
      eexists; reflexivity.
Qed.

Lemma kl_divergence_refuses_witness :
  kl_divergence (DiagGaussian (DiagGaussianDistribution.init 1))
                (SquashedDiagGaussian
                   (SquashedDiagGaussianDistribution.init 1 default_epsilon))
  = Raise (AssertionError "Error: input distributions should be the same type").
Proof.
  apply (proj1 (kl_divergence_refuses _ _)). discriminate.
Defined.

(** ** gSDE: the reduced layout of the standard deviation *)

Lemma bcast_ones_single (a : nat) (s : R) :
  bcast size_mismatch (fun x y => Ok (x * y)) (repeat 1 a) [s] = Ok (repeat s a).
Proof.
  destruct a as [| [| a]].
  - reflexivity.
  - simpl. do 2 f_equal. ring.
  - change (bcast size_mismatch (fun x y => Ok (x * y)) (repeat 1 (S (S a))) [s])
      with (mapM (fun x => Ok (x * s)) (repeat 1 (S (S a)))).
    rewrite (mapM_pure (fun x => x * s)). f_equal.
    generalize (S (S a)). intros n. induction n as [| n IH]; simpl;
      [reflexivity |]. rewrite IH. f_equal. ring.
Qed.

Lemma zipM_ones_rows (a : nat) (f : R -> R) (ls : list R) :
  zipM size_mismatch (bcast size_mismatch (fun x y => Ok (x * y)))
       (repeat (repeat 1 a) (length ls)) (map (fun l => [f l]) ls)
  = Ok (map (fun l => repeat (f l) a) ls).
Proof.
  induction ls as [| l ls IH]; simpl; [reflexivity |].
  rewrite bcast_ones_single. cbn [bind]. rewrite IH. reflexivity.
Qed.

Lemma bcast_ones_rows (a : nat) (f : R -> R) (ls : list R) :
  bcast size_mismatch (bcast size_mismatch (fun x y => Ok (x * y)))
        (repeat (repeat 1 a) (length ls)) (map (fun l => [f l]) ls)
  = Ok (map (fun l => repeat (f l) a) ls).
Proof.
  destruct ls as [| l [| l' ls]].
  - reflexivity.
  - simpl length. simpl repeat. simpl map. rewrite bcast_singleton.
    rewrite bcast_ones_single. reflexivity.
  - exact (zipM_ones_rows a f (l :: l' :: ls)).
Qed.

(** X17.  With the reduced layout ([full_std] false), [get_std] raises a
    TypeError as long as [proba_distribution_net] has not set
    [latent_sde_dim]; once it is set, a [log_std] column of that many rows is
    stretched over the actions: row [i] of the result holds the standard
    deviation of feature [i] once per action. *)
Theorem get_std_reduced (self : StateDependentNoiseDistribution.t) :
  StateDependentNoiseDistribution.full_std self = false ->
  let f := if StateDependentNoiseDistribution.use_expln self
           then StateDependentNoiseDistribution.expln
                  (StateDependentNoiseDistribution.epsilon self)
           else exp in
  (StateDependentNoiseDistribution.latent_sde_dim self = None ->
   forall log_std,
     StateDependentNoiseDistribution.get_std self log_std
     = Raise (TypeError
                "ones(): argument 'size' must be tuple of ints, but found NoneType"))
  /\ (forall ls,
         StateDependentNoiseDistribution.latent_sde_dim self = Some (length ls) ->
         StateDependentNoiseDistribution.get_std self (T2 (map (fun l => [l]) ls))
         = Ok (T2 (map (fun l =>
                          repeat (f l) (StateDependentNoiseDistribution.action_dim self))
                       ls))).
Proof.
  intros Hfull f. unfold StateDependentNoiseDistribution.get_std. rewrite Hfull.
  split.
  - intros ->. reflexivity.
  - intros ls ->.
    assert (E : (if StateDependentNoiseDistribution.use_expln self
                 then tmap (StateDependentNoiseDistribution.expln
                              (StateDependentNoiseDistribution.epsilon self))
                           (T2 (map (fun l => [l]) ls))
                 else tmap exp (T2 (map (fun l => [l]) ls)))
                = T2 (map (fun l => [f l]) ls)).
    { unfold f. destruct (StateDependentNoiseDistribution.use_expln self);
        simpl; rewrite map_map; reflexivity. }
    rewrite E. unfold tmap2, tmap2M. simpl promote. simpl ndim.
    rewrite bcast_singleton, bcast_ones_rows. reflexivity.
Qed.

Lemma get_std_reduced_witness :
  StateDependentNoiseDistribution.get_std
    (StateDependentNoiseDistribution.init 2 false false false false default_epsilon)
    (T2 [[0]])
  = Raise (TypeError
             "ones(): argument 'size' must be tuple of ints, but found NoneType").
Proof.
  apply (proj1 (get_std_reduced
                  (StateDependentNoiseDistribution.init 2 false false false false
                     default_epsilon) eq_refl)).
  reflexivity.
Defined.

(** ** Entries of a broadcast combination *)

Lemma mapM_In {A B : Type} (f : A -> result B) (l : list A) (r : list B) (b : B) :
  mapM f l = Ok r -> In b r -> exists a, In a l /\ f a = Ok b.
Proof.
  intros H Hb. apply In_nth_error in Hb. destruct Hb as [i Hi].
  destruct (mapM_nth_inv _ _ _ H i b Hi) as [a [Ha Hf]].
  exists a. split; [eapply nth_error_In; exact Ha | exact Hf].
Qed.

Lemma zipM_In {A B C : Type} (e : exn) (f : A -> B -> result C)
    (u : list A) (v : list B) (w : list C) (c : C) :
  zipM e f u v = Ok w -> In c w ->
  exists a b, In a u /\ In b v /\ f a b = Ok c.
Proof.
  intros H Hc. apply In_nth_error in Hc. destruct Hc as [i Hi].
  destruct (zipM_nth_inv _ _ _ _ _ H i c Hi) as [a [b [Ha [Hb Hf]]]].
  exists a, b. repeat split; try assumption; eapply nth_error_In; eassumption.
Qed.

Lemma bcast_In {A B C : Type} (e : exn) (f : A -> B -> result C)
    (u : list A) (v : list B) (w : list C) (c : C) :
  bcast e f u v = Ok w -> In c w ->
  exists a b, In a u /\ In b v /\ f a b = Ok c.
Proof.
  intros H Hc. unfold bcast in H.
  destruct u as [| a [| a' u]].
  - destruct v as [| b [| b' v]].
    + eapply zipM_In; eassumption.
    + destruct (mapM_In _ _ _ _ H Hc) as [x [[] _]].
    + eapply zipM_In; eassumption.
  - destruct (mapM_In _ _ _ _ H Hc) as [b [Hb Hf]].
    exists a, b. repeat split; [left; reflexivity | exact Hb | exact Hf].
  - destruct v as [| b [| b' v]].
    + eapply zipM_In; eassumption.
    + destruct (mapM_In _ _ _ _ H Hc) as [x [Hx Hf]].
      exists x, b. repeat split; [exact Hx | left; reflexivity | exact Hf].
    + eapply zipM_In; eassumption.
Qed.

Lemma promote_In {A : Type} (t : tensor A) (x : A) :
  (exists m r, In m (promote t) /\ In r m /\ In x r) -> tensor_In x t.
Proof.
  intros [m [r [Hm [Hr Hx]]]]. destruct t as [y | v | m0 | c]; simpl in *.
  - destruct Hm as [<- | []]. destruct Hr as [<- | []].
    destruct Hx as [<- | []]. reflexivity.
  - destruct Hm as [<- | []]. destruct Hr as [<- | []]. exact Hx.
  - destruct Hm as [<- | []]. exists r. split; assumption.
  - exists m, r. repeat split; assumption.
Qed.

Lemma demote_In {A : Type} (k : nat) (c : list (list (list A))) (t : tensor A)
    (x : A) :
  demote k c = Ok t -> tensor_In x t ->
  exists m r, In m c /\ In r m /\ In x r.
Proof.
  unfold demote. intros H Hx.
  destruct k as [| [| [| [| k]]]].
  - destruct c as [| [| [| y [| ? ?]] [| ? ?]] [| ? ?]]; try discriminate H.
    injection H as <-. simpl in Hx. subst x.
    exists [[y]], [y]. repeat split; left; reflexivity.
  - destruct c as [| [| v [| ? ?]] [| ? ?]]; try discriminate H.
    injection H as <-. simpl in Hx.
    exists [v], v. repeat split; try (left; reflexivity). exact Hx.
  - destruct c as [| m [| ? ?]]; try discriminate H.
    injection H as <-. simpl in Hx. destruct Hx as [r [Hr Hx]].
    exists m, r. repeat split; try assumption. left. reflexivity.
  - injection H as <-. simpl in Hx. exact Hx.
  - discriminate H.
Qed.

(** Every entry of a broadcast combination comes from an entry of each
    argument. *)
Lemma tmap2M_In {A B C : Type} (f : A -> B -> result C)
    (a : tensor A) (b : tensor B) (c : tensor C) (z : C) :
  tmap2M f a b = Ok c -> tensor_In z c ->
  exists x y, tensor_In x a /\ tensor_In y b /\ f x y = Ok z.
Proof.
  unfold tmap2M. intros H Hz.
  apply bind_ok in H. destruct H as [c3 [Hc3 Hd]].
  destruct (demote_In _ _ _ _ Hd Hz) as [m [r [Hm [Hr Hx]]]].
  destruct (bcast_In _ _ _ _ _ _ Hc3 Hm) as [ma [mb [Hma [Hmb Hfm]]]].
  destruct (bcast_In _ _ _ _ _ _ Hfm Hr) as [ra [rb [Hra [Hrb Hfr]]]].
  destruct (bcast_In _ _ _ _ _ _ Hfr Hx) as [x [y [Hxa [Hyb Hf]]]].
  exists x, y. split; [| split; [| exact Hf]].
  - apply promote_In. exists ma, ra. repeat split; assumption.
  - apply promote_In. exists mb, rb. repeat split; assumption.
Qed.

(** ** gSDE: the standard deviation of the action distribution *)

Lemma vadd_nonneg (u v : list R) :
  Forall (fun x => 0 <= x) u -> Forall (fun x => 0 <= x) v ->
  Forall (fun x => 0 <= x) (vadd u v).
Proof.
  intros Hu. revert v. induction Hu as [| x u Hx Hu IH]; intros v Hv; simpl;
    [constructor |].
  destruct Hv as [| y v Hy Hv]; constructor; [lra | apply IH; exact Hv].
Qed.

Lemma colsum_nonneg (m : list (list R)) :
  Forall (Forall (fun x => 0 <= x)) m -> Forall (fun x => 0 <= x) (colsum m).
Proof.
  intros H. destruct H as [| r rs Hr Hrs]; simpl; [constructor |].
  revert r Hr. induction Hrs as [| r' rs Hr' Hrs IH]; intros r Hr; simpl;
    [exact Hr |].
  apply IH. apply vadd_nonneg; assumption.
Qed.

Lemma scale_rows_nonneg (row : list R) (m : list (list R)) :
  Forall (fun x => 0 <= x) row ->
  Forall (Forall (fun x => 0 <= x)) m ->
  Forall (Forall (fun x => 0 <= x)) (scale_rows row m).
Proof.
  intros Hrow. revert m. induction Hrow as [| x row Hx Hrow IH]; intros m Hm;
    simpl; [constructor |].
  destruct Hm as [| r m Hr Hm]; constructor; [| apply IH; exact Hm].
  apply Forall_map. eapply Forall_impl; [| exact Hr].
  intros y Hy. simpl. apply Rmult_le_pos; assumption.
Qed.

Lemma squares_nonneg (m : list (list R)) :
  Forall (Forall (fun x => 0 <= x)) (map (map (fun x => x ^ 2)) m).
Proof.
  apply Forall_map. apply Forall_forall. intros r _.
  apply Forall_map. apply Forall_forall. intros x _. simpl. apply pow2_ge_0.
Qed.

(** X18.  After a bind of the gSDE distribution with a positive [epsilon],
    every entry of the standard deviation of the action distribution is
    strictly positive, whatever the latent features and the learned
    [log_std]; the latent features are kept for [sample()]. *)
Theorem sde_scale_positive (self self' : StateDependentNoiseDistribution.t)
    (mean_actions log_std latent_sde : tensor R) :
  0 < StateDependentNoiseDistribution.epsilon self ->
  StateDependentNoiseDistribution.proba_distribution
    self mean_actions log_std latent_sde = Ok self' ->
  StateDependentNoiseDistribution._latent_sde self' = Some latent_sde
  /\ exists d,
       StateDependentNoiseDistribution.distribution self' = Some d
       /\ forall s, tensor_In s (Normal.scale d) -> 0 < s.
Proof.
  intros Heps H.
  unfold StateDependentNoiseDistribution.proba_distribution in H.
  apply bind_ok in H. destruct H as [std [_ H]].
  apply bind_ok in H. destruct H as [variance [Hvar H]].
  apply bind_ok in H. destruct H as [d [Hd H]].
  injection H as <-. split; [reflexivity |].
  exists d. split; [reflexivity |].
  intros s Hs.
  assert (Hnonneg : forall v, tensor_In v variance -> 0 <= v).
  { unfold mm in Hvar.
    destruct (tmap (fun x => x ^ 2) latent_sde) as [? | ? | a |] eqn:Ea;
      try discriminate Hvar.
    destruct (tmap (fun x => x ^ 2) std) as [? | ? | b |] eqn:Eb;
      try discriminate Hvar.
    apply bind_ok in Hvar. destruct Hvar as [r [Hr Hvar]]. injection Hvar as <-.
    assert (Ha : Forall (Forall (fun x => 0 <= x)) a).
    { destruct latent_sde; try discriminate Ea. injection Ea as <-.
      apply squares_nonneg. }
    assert (Hb : Forall (Forall (fun x => 0 <= x)) b).
    { destruct std; try discriminate Eb. injection Eb as <-.
      apply squares_nonneg. }
    intros v [row [Hrow Hv]]. unfold matmat in Hr.
    destruct (mapM_In _ _ _ _ Hr Hrow) as [arow [Harow Hvm]].
    unfold vecmat in Hvm.
    destruct (length arow =? length b)%nat; [| discriminate Hvm].
    injection Hvm as <-.
    assert (Hout : Forall (fun x => 0 <= x) (colsum (scale_rows arow b))).
    { apply colsum_nonneg. apply scale_rows_nonneg; [| exact Hb].
      rewrite Forall_forall in Ha. apply Ha. exact Harow. }
    rewrite Forall_forall in Hout. apply Hout. exact Hv. }
  unfold Normal.init in Hd.
  apply bind_ok in Hd. destruct Hd as [l [_ Hd]].
  apply bind_ok in Hd. destruct Hd as [sc [Hsc Hd]]. injection Hd as <-.
  simpl in Hs.
  destruct (tmap2M_In _ _ _ _ _ Hsc Hs) as [x [y [_ [Hy Hxy]]]].
  injection Hxy as <-.
  apply tensor_In_tmap in Hy. destruct Hy as [v [Hv ->]].
  apply sqrt_lt_R0. specialize (Hnonneg v Hv). lra.
Qed.

Lemma sde_scale_positive_witness :
  exists self',
    StateDependentNoiseDistribution.proba_distribution
      (StateDependentNoiseDistribution.init 1 true false false false default_epsilon)
      (T2 [[0]]) (T2 [[0]]) (T2 [[1]]) = Ok self'
    /\ StateDependentNoiseDistribution._latent_sde self' = Some (T2 [[1]]).
Proof.
  eexists. split; [reflexivity |].
  refine (proj1 (sde_scale_positive
                   (StateDependentNoiseDistribution.init 1 true false false false
                      default_epsilon)
                   _ (T2 [[0]]) (T2 [[0]]) (T2 [[1]]) default_epsilon_pos eq_refl)).
Defined.

(** ** KL divergence of a MultiCategorical distribution against itself *)

Lemma combine_diag {A : Type} (l : list A) :
  combine l l = map (fun x => (x, x)) l.
Proof.
  induction l as [| x l IH]; simpl; [reflexivity | rewrite IH; reflexivity].
Qed.

Lemma colsum_zero_rows (vs : list (list R)) (b : nat) (rows : list (list R)) :
  length rows = b ->
  (forall v, In v vs -> length v = b) ->
  (forall v x, In v vs -> In x v -> x = 0) ->
  length (colsum vs) = b ->
  colsum vs = map (fun _ => 0) rows.
Proof.
  intros Hrows Hlen Hzero Hcl.
  apply (nth_ext _ _ 0 0).
  - rewrite length_map. congruence.
  - intros i Hi. rewrite (colsum_nth vs b i Hlen).
    assert (Hz : nth i (map (fun _ : list R => 0) rows) 0 = 0).
    { destruct (nth_in_or_default i (map (fun _ : list R => 0) rows) 0)
        as [Hin | Hd]; [| exact Hd].
      apply in_map_iff in Hin. destruct Hin as [r [Hr _]]. symmetry. exact Hr. }
    rewrite Hz. apply vsum_zero.
    intros x Hx. apply in_map_iff in Hx. destruct Hx as [v [<- Hv]].
    destruct (Nat.lt_ge_cases i (length v)) as [Hlt | Hge].
    + apply (Hzero v); [exact Hv | apply nth_In; exact Hlt].
    + apply nth_overflow. exact Hge.
Qed.

(** X19.  After a bind of the MultiCategorical distribution with at least
    one sub-space, the KL divergence of the instance against itself is zero,
    one value per batch row. *)
Theorem kl_divergence_multi_categorical_self
    (self self' : MultiCategoricalDistribution.t) (logits : matrix) :
  MultiCategoricalDistribution.action_dims self <> [] ->
  MultiCategoricalDistribution.proba_distribution self logits = Ok self' ->
  kl_divergence (MultiCategorical self') (MultiCategorical self')
  = Ok (T1 (map (fun _ => 0) logits)).
Proof.
  intros Hne H.
  unfold MultiCategoricalDistribution.proba_distribution in H.
  apply bind_ok in H. destruct H as [splits [Hs H]]. injection H as <-.
  unfold split_cols in Hs.
  destruct (forallb _ logits); [| discriminate Hs]. injection Hs as <-.
  set (dims := MultiCategoricalDistribution.action_dims self) in *.
  set (ds := map Categorical.init (split_cols_aux dims logits)).
  rewrite kl_divergence_multicategorical. rewrite combine_diag, mapM_map.
  set (vs := map (fun d => map (fun _ : list R => 0) (Categorical.logits d)) ds).
  rewrite (mapM_ok_map _ (fun d => T1 (map (fun _ => 0) (Categorical.logits d)))).
  2:{ intros d _. apply categorical_kl_self. }
  cbn [bind].
  assert (E : map (fun d => T1 (map (fun _ : list R => 0) (Categorical.logits d))) ds
              = map T1 vs).
  { unfold vs. rewrite map_map. reflexivity. }
  rewrite E.
  assert (Hvs_ne : vs <> []).
  { unfold vs, ds. intros E0. apply map_eq_nil in E0. apply map_eq_nil in E0.
    apply (f_equal (@length _)) in E0. rewrite split_cols_aux_length in E0.
    destruct dims; [congruence | discriminate E0]. }
  assert (Hvs_len : forall v, In v vs -> length v = length logits).
  { intros v Hv. unfold vs, ds in Hv. rewrite map_map in Hv.
    apply in_map_iff in Hv. destruct Hv as [chunk [<- Hc]].
    unfold Categorical.init. simpl. rewrite !length_map.
    exact (split_cols_aux_rows _ _ _ Hc). }
  destruct (stack_sum_dim1 vs (length logits) Hvs_ne Hvs_len) as [Hst Hlen].
  rewrite Hst. do 2 f_equal.
  apply (colsum_zero_rows vs (length logits) logits eq_refl Hvs_len); [| exact Hlen].
  intros v x Hv Hx. unfold vs in Hv. apply in_map_iff in Hv.
  destruct Hv as [d [<- _]]. apply in_map_iff in Hx. destruct Hx as [r [<- _]].
  reflexivity.
Qed.

Lemma kl_divergence_multi_categorical_self_witness :
  kl_divergence
    (MultiCategorical
       (MultiCategoricalDistribution.mk [2%nat; 3%nat]
          (Some (map Categorical.init
                   (split_cols_aux [2%nat; 3%nat] [[1; 2; 3; 4; 5]])))))
    (MultiCategorical
       (MultiCategoricalDistribution.mk [2%nat; 3%nat]
          (Some (map Categorical.init
                   (split_cols_aux [2%nat; 3%nat] [[1; 2; 3; 4; 5]])))))
  = Ok (T1 (map (fun _ => 0) [[1; 2; 3; 4; 5]])).
Proof.
  apply (kl_divergence_multi_categorical_self
           (MultiCategoricalDistribution.init [2%nat; 3%nat]) _ [[1; 2; 3; 4; 5]]).
  - discriminate.
  - reflexivity.
Defined.

(** ** The correction term of the tanh bijector *)

(** X20.  With a positive [epsilon] every entry of
    [TanhBijector.log_prob_correction] is finite and bounded: it lies above
    [ln(epsilon)] and is at most [ln(1 + epsilon)], whatever the input. *)
Theorem log_prob_correction_bounds (self : TanhBijector.t) (x : tensor R) (c : R) :
  0 < TanhBijector.epsilon self ->
  tensor_In c (TanhBijector.log_prob_correction self x) ->
  ln (TanhBijector.epsilon self) < c <= ln (1 + TanhBijector.epsilon self).
Proof.
  intros Heps Hc. unfold TanhBijector.log_prob_correction in Hc.
  apply tensor_In_tmap in Hc. destruct Hc as [v [_ ->]].
  pose proof (tanh_range v) as Ht.
  assert (H1 : 0 < 1 - tanh v ^ 2) by nra.
  assert (H2 : 1 - tanh v ^ 2 <= 1) by nra.
  split.
  - apply ln_increasing; lra.
  - apply ln_le_compat; lra.
Qed.

Lemma log_prob_correction_bounds_witness :
  ln default_epsilon < ln (1 - tanh 0 ^ 2 + default_epsilon)
                     <= ln (1 + default_epsilon).
Proof.
  apply (log_prob_correction_bounds (TanhBijector.init default_epsilon) (T1 [0])).
  - exact default_epsilon_pos.
  - simpl. left. reflexivity.
Defined.

(** ** gSDE: the exploration weights *)

Lemma tensor_In_repeat {A : Type} (x y : A) (a d : nat) :
  tensor_In y (T2 (repeat (repeat x a) d)) -> y = x.
Proof.
  intros [r [Hr Hy]]. apply repeat_spec in Hr. subst r.
  apply repeat_spec in Hy. exact Hy.
Qed.

(** Every entry of the result of [get_std] is the standard deviation of an
    entry of [log_std]. *)
Lemma get_std_entries (self : StateDependentNoiseDistribution.t)
    (log_std std : tensor R) (s : R) :
  StateDependentNoiseDistribution.get_std self log_std = Ok std ->
  tensor_In s std ->
  exists l, tensor_In l log_std
            /\ s = (if StateDependentNoiseDistribution.use_expln self
                    then StateDependentNoiseDistribution.expln
                           (StateDependentNoiseDistribution.epsilon self)
                    else exp) l.
Proof.
  unfold StateDependentNoiseDistribution.get_std. intros H Hs.
  set (f := if StateDependentNoiseDistribution.use_expln self
            then StateDependentNoiseDistribution.expln
                   (StateDependentNoiseDistribution.epsilon self)
            else exp).
  assert (E : (if StateDependentNoiseDistribution.use_expln self
               then tmap (StateDependentNoiseDistribution.expln
                            (StateDependentNoiseDistribution.epsilon self)) log_std
               else tmap exp log_std) = tmap f log_std).
  { unfold f. destruct (StateDependentNoiseDistribution.use_expln self); reflexivity. }
  rewrite E in H. clear E.
  destruct (StateDependentNoiseDistribution.full_std self).
  - injection H as <-. apply tensor_In_tmap. exact Hs.
  - destruct (StateDependentNoiseDistribution.latent_sde_dim self) as [d |];
      [| discriminate H].
    destruct (tmap2M_In _ _ _ _ _ H Hs) as [x [y [Hx [Hy Hxy]]]].
    injection Hxy as <-. apply tensor_In_repeat in Hx. subst x.
    apply tensor_In_tmap in Hy. destruct Hy as [l [Hl ->]].
    exists l. split; [exact Hl | apply Rmult_1_l].
Qed.

(** The argument of [log1p] in the expln transform is above [-1] at every
    entry exactly when [epsilon] is. *)
Lemma safe_log_std_domain (epsilon : R) :
  (- 1 < epsilon <->
   forall l, - 1 < StateDependentNoiseDistribution.safe_log_std epsilon l)
  /\ forall l, l <= 0 ->
       StateDependentNoiseDistribution.safe_log_std epsilon l = epsilon.
Proof.
  assert (H0 : forall l, l <= 0 ->
             StateDependentNoiseDistribution.safe_log_std epsilon l = epsilon).
  { intros l Hl. unfold StateDependentNoiseDistribution.safe_log_std.
    assert (E : Rltb 0 l = false) by (apply Rltb_false; lra).
    rewrite E. simpl. ring. }
  split; [| exact H0]. split.
  - intros He l. destruct (Rle_or_lt l 0) as [Hl | Hl].
    + rewrite H0 by exact Hl. exact He.
    + unfold StateDependentNoiseDistribution.safe_log_std.
      assert (E : Rltb 0 l = true) by (apply Rltb_true; exact Hl).
      rewrite E. simpl. lra.
  - intros H. specialize (H 0). rewrite H0 in H by lra. exact H.
Qed.

(** C6 (amended).  With the expln transform selected and [epsilon > -1]
    (where [log1p] is defined at every entry): in the full layout [get_std]
    returns the transform of every entry of [log_std]; in the reduced layout
    it raises a TypeError as long as [latent_sde_dim] is unset, and afterwards
    stretches the transform of a [log_std] column over the actions; whenever
    it returns, every entry of the result is the transform of an entry of
    [log_std].  The transform maps [log_std <= 0] to [exp(log_std)] and
    [log_std > 0] to [log1p(log_std + epsilon) + 1], where [epsilon] is the
    constructor's; for [epsilon >= 0] it is strictly positive.  At the
    boundary the value is [1] and the values to the right of it lie between
    [1 + log1p(epsilon)] and [1 + log1p(epsilon) + log_std]: the transform is
    continuous there up to the offset [log1p(epsilon)]. *)
Theorem get_std_expln (self : StateDependentNoiseDistribution.t)
    (log_std : tensor R) :
  StateDependentNoiseDistribution.use_expln self = true ->
  - 1 < StateDependentNoiseDistribution.epsilon self ->
  let epsilon := StateDependentNoiseDistribution.epsilon self in
  let f := StateDependentNoiseDistribution.expln epsilon in
  (StateDependentNoiseDistribution.full_std self = true ->
   StateDependentNoiseDistribution.get_std self log_std = Ok (tmap f log_std))
  /\ (StateDependentNoiseDistribution.full_std self = false ->
      StateDependentNoiseDistribution.latent_sde_dim self = None ->
      StateDependentNoiseDistribution.get_std self log_std
      = Raise (TypeError
                 "ones(): argument 'size' must be tuple of ints, but found NoneType"))
  /\ (StateDependentNoiseDistribution.full_std self = false ->
      forall ls,
        StateDependentNoiseDistribution.latent_sde_dim self = Some (length ls) ->
        StateDependentNoiseDistribution.get_std self (T2 (map (fun l => [l]) ls))
        = Ok (T2 (map (fun l =>
                         repeat (f l) (StateDependentNoiseDistribution.action_dim self))
                      ls)))
  /\ (forall std s,
         StateDependentNoiseDistribution.get_std self log_std = Ok std ->
         tensor_In s std ->
         exists l, tensor_In l log_std /\ s = f l)
  /\ forall l : R,
       - 1 < StateDependentNoiseDistribution.safe_log_std epsilon l
       /\ (l <= 0 -> f l = exp l)
       /\ (0 < l -> f l = log1p (l + epsilon) + 1)
       /\ (0 <= epsilon -> 0 < f l)
       /\ f 0 = 1
       /\ (0 <= epsilon -> 0 < l ->
           1 + log1p epsilon < f l /\ f l <= 1 + log1p epsilon + l).
Proof.
  intros Hexpln Hdom epsilon f.
  split; [| split; [| split; [| split]]].
  - intros Hfull. unfold StateDependentNoiseDistribution.get_std.
    rewrite Hexpln, Hfull. reflexivity.
  - intros Hfull Hnone. unfold StateDependentNoiseDistribution.get_std.
    rewrite Hfull, Hnone. reflexivity.
  - intros Hfull ls Hdim. unfold StateDependentNoiseDistribution.get_std.
    rewrite Hexpln, Hfull, Hdim. fold epsilon. fold f.
    cbn [tmap]. rewrite map_map. cbn [map].
    unfold tmap2, tmap2M. simpl promote. simpl ndim.
    rewrite bcast_singleton.
    rewrite <- (map_map (fun l => f l) (fun y => [y])).
    rewrite map_map. rewrite bcast_ones_rows. reflexivity.
  - intros std s Hstd Hs.
    destruct (get_std_entries _ _ _ _ Hstd Hs) as [l [Hl E]].
    rewrite Hexpln in E. exists l. split; [exact Hl | exact E].
  - intros l.
    split; [apply (proj1 (proj1 (safe_log_std_domain epsilon))); exact Hdom |].
    split; [apply expln_nonpos |]. split; [apply expln_pos |].
    split; [| split].
    + intros He. destruct (Rle_or_lt l 0) as [Hl | Hl].
      * unfold f. rewrite expln_nonpos by exact Hl. apply exp_pos.
      * unfold f. rewrite expln_pos by exact Hl. unfold log1p.
        assert (H1 : ln 1 < ln (1 + (l + epsilon))) by (apply ln_increasing; lra).
        rewrite ln_1 in H1. lra.
    + unfold f. rewrite expln_nonpos by lra. apply exp_0.
    + intros He Hl. unfold f. rewrite expln_pos by exact Hl. unfold log1p. split.
      * assert (H1 : ln (1 + epsilon) < ln (1 + (l + epsilon))).
        { apply ln_increasing; lra. }
        lra.
      * assert (H1 : ln (1 + (l + epsilon)) <= ln ((1 + epsilon) * exp l)).
        { apply ln_le_compat; [lra |].
          pose proof (exp_ineq1_le l) as H2.
          assert (H3 : (1 + epsilon) * (1 + l) <= (1 + epsilon) * exp l).
          { apply Rmult_le_compat_l; lra. }
          nra. }
        rewrite ln_mult in H1 by (try apply exp_pos; lra).
        rewrite ln_exp in H1. lra.
Qed.

Lemma get_std_expln_witness :
  StateDependentNoiseDistribution.get_std
    (StateDependentNoiseDistribution.init 1 true true false false default_epsilon)
    (T2 [[1; 0]])
  = Ok (tmap (StateDependentNoiseDistribution.expln default_epsilon) (T2 [[1; 0]]))
  /\ StateDependentNoiseDistribution.expln default_epsilon 1
     = log1p (1 + default_epsilon) + 1
  /\ StateDependentNoiseDistribution.expln default_epsilon 0 = 1.
Proof.
  assert (Hdom : - 1 < default_epsilon) by (pose proof default_epsilon_pos; lra).
  pose proof (get_std_expln
                (StateDependentNoiseDistribution.init 1 true true false false
                   default_epsilon)
                (T2 [[1; 0]]) eq_refl Hdom) as H.
  cbv zeta in H. destruct H as [Hfull [_ [_ [_ Hf]]]].
  split; [exact (Hfull eq_refl) |].
  split.
  - destruct (Hf 1) as [_ [_ [Hpos _]]]. apply Hpos. lra.
  - destruct (Hf 0) as [_ [_ [_ [_ [H0 _]]]]]. exact H0.
Defined.

(** ** gSDE: the rows of the noise *)

Lemma vecmat_length (row out : list R) (m : list (list R)) (n : nat) :
  (forall r, In r m -> length r = n) ->
  m <> [] ->
  vecmat row m = Ok out ->
  length out = n.
Proof.
  intros Hm Hne. unfold vecmat.
  destruct (length row =? length m)%nat eqn:E; [| discriminate].
  intros H. injection H as <-. apply Nat.eqb_eq in E.
  destruct (scale_rows_spec row m n 0 Hm) as [Hlen _].
  apply (stack_sum_dim1 (scale_rows row m) n); [| exact Hlen].
  destruct row as [| x row]; destruct m as [| r m]; simpl in *;
    try congruence; discriminate.
Qed.

(** C8.  With the base exploration matrix [M] and the pre-sampled matrices
    [Ms], all with rows of [n] entries: when the batch has one row, or a
    number of rows that differs from the number of pre-sampled matrices,
    every row of the noise is the latent row times [M]; otherwise row [i] of
    the noise is latent row [i] times the [i]-th pre-sampled matrix.  The
    product is the matrix product: entry [j] of the noise row is the sum over
    the latent features [k] of [latent[k] * matrix[k][j]].  With matching
    shapes the noise is returned. *)
Theorem get_noise_rows (self : StateDependentNoiseDistribution.t)
    (L M : matrix) (Ms : list matrix) (n : nat) :
  StateDependentNoiseDistribution.exploration_mat self = Some (T2 M) ->
  StateDependentNoiseDistribution.exploration_matrices self = Some (T3 Ms) ->
  (forall r, In r M -> length r = n) ->
  (forall Mi r, In Mi Ms -> In r Mi -> length r = n) ->
  let one_matrix := ((length L =? 1) || negb (length L =? length Ms))%nat in
  (forall N, StateDependentNoiseDistribution.get_noise self (Some (T2 L)) = Ok N ->
     exists rows,
       N = T2 rows
       /\ length rows = length L
       /\ forall i row, nth_error L i = Some row ->
            exists Mi out,
              (if one_matrix then Mi = M else nth_error Ms i = Some Mi)
              /\ nth_error rows i = Some out
              /\ length row = length Mi
              /\ (Mi <> [] -> length out = n)
              /\ forall j,
                   nth j out 0
                   = vsum (zip_with (fun x r => x * nth j r 0) row Mi))
  /\ ((forall row, In row L -> length row = length M) ->
      (forall row Mi, In row L -> In Mi Ms -> length row = length Mi) ->
      returns (StateDependentNoiseDistribution.get_noise self (Some (T2 L)))).
Proof.
  intros HM HMs HMn HMsn one_matrix.
  rewrite (get_noise_branches self L M Ms HM HMs). fold one_matrix.
  split.
  - intros N H. destruct one_matrix eqn:E.
    + apply bind_ok in H. destruct H as [rows [Hrows H]]. injection H as <-.
      exists rows. split; [reflexivity |].
      split; [apply (mapM_length _ _ _ Hrows) |].
      intros i row Hi.
      destruct (mapM_nth _ _ _ Hrows i row Hi) as [out [Hout Hv]].
      exists M, out. split; [reflexivity |]. split; [exact Hout |].
      split; [exact (proj1 (vecmat_entry row out M n 0 HMn Hv)) |].
      split; [intros Hne; exact (vecmat_length row out M n HMn Hne Hv) |].
      intros j. exact (proj2 (vecmat_entry row out M n j HMn Hv)).
    + apply bind_ok in H. destruct H as [rows [Hrows H]]. injection H as <-.
      exists rows. split; [reflexivity |].
      destruct (zipM_length _ _ _ _ _ Hrows) as [H1 H2].
      split; [symmetry; exact H1 |].
      intros i row Hi.
      assert (Hlt : (i < length Ms)%nat).
      { rewrite H2, <- H1. apply nth_error_Some. congruence. }
      destruct (nth_error Ms i) as [Mi |] eqn:EM;
        [| apply nth_error_Some in Hlt; contradiction].
      destruct (zipM_nth _ _ _ _ _ Hrows i row Mi Hi EM) as [out [Hout Hv]].
      assert (HMi : forall r, In r Mi -> length r = n).
      { intros r Hr. apply (HMsn Mi r); [| exact Hr].
        eapply nth_error_In. exact EM. }
      exists Mi, out. split; [reflexivity |]. split; [exact Hout |].
      split; [exact (proj1 (vecmat_entry row out Mi n 0 HMi Hv)) |].
      split; [intros Hne; exact (vecmat_length row out Mi n HMi Hne Hv) |].
      intros j. exact (proj2 (vecmat_entry row out Mi n j HMi Hv)).
  - intros HL HLMs. destruct one_matrix eqn:E.
    + destruct (mapM_returns (fun row => vecmat row M) L) as [rows ->].
      * intros row Hin. unfold vecmat.
        rewrite (HL row Hin), Nat.eqb_refl. eexists. reflexivity.
      * eexists. reflexivity.
    + unfold one_matrix in E. apply orb_false_iff in E. destruct E as [_ E].
      apply negb_false_iff, Nat.eqb_eq in E.
      destruct (zipM_returns (RuntimeError "bmm(): batch sizes differ")
                  vecmat L Ms E) as [rows ->].
      * intros row Mi Hr HMi. unfold vecmat.
        rewrite (HLMs row Mi Hr HMi), Nat.eqb_refl. eexists. reflexivity.
      * eexists. reflexivity.
Qed.

Lemma get_noise_rows_witness :
  exists rows out,
    StateDependentNoiseDistribution.get_noise example_sde (Some (T2 [[1]; [1]]))
    = Ok (T2 rows)
    /\ length rows = 2%nat
    /\ nth_error rows 1 = Some out
    /\ length out = 2%nat
    /\ nth 0 out 0 = vsum (zip_with (fun x r => x * nth 0 r 0) [1] [[3; 4]])
    /\ nth 1 out 0 = vsum (zip_with (fun x r => x * nth 1 r 0) [1] [[3; 4]]).
Proof.
  assert (HM : forall r, In r [[1; 2]] -> length r = 2%nat).
  { intros r [<- | []]. reflexivity. }
  assert (HMs : forall Mi r, In Mi [[[1; 2]]; [[3; 4]]] -> In r Mi ->
                             length r = 2%nat).
  { intros Mi r [<- | [<- | []]] [<- | []]; reflexivity. }
  pose proof (get_noise_rows example_sde [[1]; [1]] [[1; 2]]
                [[[1; 2]]; [[3; 4]]] 2 eq_refl eq_refl HM HMs) as H.
  cbv zeta in H. destruct H as [Hrows Hret].
  destruct Hret as [N HN].
  - intros row [<- | [<- | []]]; reflexivity.
  - intros row Mi [<- | [<- | []]] [<- | [<- | []]]; reflexivity.
  - destruct (Hrows N HN) as [rows [-> [Hlen Hrow]]].
    destruct (Hrow 1%nat [1] eq_refl) as [Mi [out [HMi [Hout [_ [Hl Hj]]]]]].
    simpl in HMi. injection HMi as <-.
    exists rows, out. split; [exact HN |]. split; [exact Hlen |].
    split; [exact Hout |]. split; [apply Hl; discriminate |].
    split; apply Hj.
Defined.

(** X21.  When [proba_distribution_net] of the gSDE distribution returns,
    [latent_sde_dim] is the given dimension (the latent dimension by
    default), the [log_std] parameter has one row per latent feature, as
    wide as the action space with [full_std] and of width 1 without, every
    entry equal to [log_std_init]; [get_std] returns on it; and the weights
    distribution is centred, with the standard deviation of [log_std_init]
    in every entry.  The action distribution is left as it was. *)
Theorem sde_net_weights (g : generator)
    (self self' : StateDependentNoiseDistribution.t)
    (latent_dim : nat) (log_std_init : R) (latent_sde_dim : option nat)
    (log_std : tensor R) :
  StateDependentNoiseDistribution.proba_distribution_net
    g self latent_dim log_std_init latent_sde_dim = Ok (self', log_std) ->
  let d := match latent_sde_dim with None => latent_dim | Some d => d end in
  let f := if StateDependentNoiseDistribution.use_expln self
           then StateDependentNoiseDistribution.expln
                  (StateDependentNoiseDistribution.epsilon self)
           else exp in
  StateDependentNoiseDistribution.latent_sde_dim self' = Some d
  /\ log_std
     = T2 (repeat (repeat log_std_init
                     (if StateDependentNoiseDistribution.full_std self
                      then StateDependentNoiseDistribution.action_dim self
                      else 1%nat)) d)
  /\ returns (StateDependentNoiseDistribution.get_std self' log_std)
  /\ StateDependentNoiseDistribution.distribution self'
     = StateDependentNoiseDistribution.distribution self
  /\ exists w mat mats,
       StateDependentNoiseDistribution.weights_dist self' = Some w
       /\ StateDependentNoiseDistribution.exploration_mat self' = Some mat
       /\ StateDependentNoiseDistribution.exploration_matrices self' = Some mats
       /\ (forall x, tensor_In x (Normal.loc w) -> x = 0)
       /\ (forall s, tensor_In s (Normal.scale w) -> s = f log_std_init).
Proof.
  intros H d f.
  unfold StateDependentNoiseDistribution.proba_distribution_net in H.
  cbv zeta in H. fold d in H.
  apply bind_ok in H. destruct H as [self2 [Hsw H]].
  injection H as <- HL.
  assert (EL : log_std
               = T2 (repeat (repeat log_std_init
                               (if StateDependentNoiseDistribution.full_std self
                                then StateDependentNoiseDistribution.action_dim self
                                else 1%nat)) d)).
  { rewrite <- HL. f_equal.
    destruct (StateDependentNoiseDistribution.full_std self);
      rewrite !map_repeat; simpl; rewrite ?map_repeat, Rmult_1_l; reflexivity. }
  rewrite HL in Hsw. clear HL.
  unfold StateDependentNoiseDistribution.sample_weights in Hsw.
  apply bind_ok in Hsw. destruct Hsw as [std [Hstd Hsw]].
  apply bind_ok in Hsw. destruct Hsw as [w [Hw Hsw]].
  apply bind_ok in Hsw. destruct Hsw as [mat [_ Hsw]].
  apply bind_ok in Hsw. destruct Hsw as [mats [_ Hsw]].
  injection Hsw as <-.
  split; [reflexivity |]. split; [exact EL |].
  split; [exists std; rewrite <- Hstd; reflexivity |].
  split; [reflexivity |].
  exists w, mat, mats. do 3 (split; [reflexivity |]).
  unfold Normal.init in Hw.
  apply bind_ok in Hw. destruct Hw as [l [Hl Hw]].
  apply bind_ok in Hw. destruct Hw as [sc [Hsc Hw]]. injection Hw as <-.
  simpl. split.
  - intros x Hx.
    destruct (tmap2M_In _ _ _ _ _ Hl Hx) as [x0 [y [Hx0 [_ Hxy]]]].
    injection Hxy as <-. apply tensor_In_tmap in Hx0.
    destruct Hx0 as [? [_ ->]]. reflexivity.
  - intros s Hs.
    destruct (tmap2M_In _ _ _ _ _ Hsc Hs) as [x0 [y [_ [Hy Hxy]]]].
    injection Hxy as <-.
    destruct (get_std_entries _ _ _ _ Hstd Hy) as [l0 [Hl0 ->]].
    rewrite EL in Hl0. apply tensor_In_repeat in Hl0. subst l0. reflexivity.
Qed.

Lemma sde_net_weights_witness :
  exists self' log_std,
    StateDependentNoiseDistribution.proba_distribution_net
      zero_generator
      (StateDependentNoiseDistribution.init 2 false false false false default_epsilon)
      3 0 None = Ok (self', log_std)
    /\ StateDependentNoiseDistribution.latent_sde_dim self' = Some 3%nat.
Proof.
  eexists. eexists. split; [reflexivity |].
  refine (proj1 (sde_net_weights zero_generator
                   (StateDependentNoiseDistribution.init 2 false false false false
                      default_epsilon)
                   _ 3 0 None _ eq_refl)).
Defined.
